(** * deepnog/data/dataset.py: sharded record iterator, shuffle buffer,
      vocabulary and batch collation

    A shallow embedding of [deepnog.data.dataset] and the properties of it
    that the specification states.

    Conventions of the embedding.
    - Python [int] is [Z]; a Python [str] is a [string]; a one-character
      [str] (a dictionary key of the vocabulary, a residue) is an [ascii]:
      protein alphabets and sequence files are ASCII, and on ASCII
      [str.upper]/[str.lower] are [upper]/[lower].  The vocabulary of an
      alphabet of any characters is in the module [Unicode].
    - A [dict] is a [gmap]; [d.get(k)] is [d !! k], [d.get(k, 0)] is
      [default 0 (d !! k)].
    - A call that may raise returns a [result]; the exceptions are the
      Python ones the module can meet.  Loops that Python runs until a
      condition holds are written with fuel, the fuel is computed from the
      state, and [OutOfFuel] is proved never to be returned.
    - The sequence file is the list of records that [SeqIO.parse] yields from
      it; the object returned by [SeqIO.parse] is the list of records not yet
      read together with the number of times [close] was called on it.
    - A numpy array of [dtype=np.int] holds integers of 64 bits: what does
      not fit is cast or refused as numpy does it.
    - [numpy.random] is an oracle [rnd : nat -> Z]: the [k]-th draw of the run
      is [rnd k] reduced into the requested range, so every value of the
      range is a possible draw and no other is. *)

From Stdlib Require Import ZArith Ascii String Lia.
From stdpp Require Import gmap strings list fin_maps sorting.

Open Scope Z_scope.

(** ** Python outcomes *)

Inductive exn : Type :=
  | StopIteration
  | NotImplementedError
  | ValueError
  | IndexError
  | TypeError
  | OverflowError.

Inductive result (A : Type) : Type :=
  | Return (a : A)
  | Raise (e : exn)
  | OutOfFuel.

Arguments Return {A} a.
Arguments Raise {A} e.
Arguments OutOfFuel {A}.

(** Sequencing: the first exception ends the computation. *)
#[global] Instance result_ret : MRet result := λ A a, Return a.
#[global] Instance result_bind : MBind result := λ A B f r,
  match r with
  | Return a => f a
  | Raise e => Raise e
  | OutOfFuel => OutOfFuel
  end.


(** ** Characters: [str.upper], [str.lower] on ASCII *)

Definition upper (c : ascii) : ascii :=
  let n := N_of_ascii c in
  if ((97 <=? n) && (n <=? 122))%N then ascii_of_N (n - 32) else c.

Definition lower (c : ascii) : ascii :=
  let n := N_of_ascii c in
  if ((65 <=? n) && (n <=? 90))%N then ascii_of_N (n + 32) else c.

(** Case folding of one ASCII character is its lower-case form. *)
Definition casefold (c : ascii) : ascii := lower c.

(** [enumerate(xs)]: the elements paired with their 0-based position. *)
Definition enumerate {A} (l : list A) : list (Z * A) :=
  imap (λ i x, (Z.of_nat i, x)) l.

(** ** Vocabulary *)

(** Modelled from the spec: [..utils.EXTENDED_IUPAC_PROTEIN_ALPHABET] is not
    among the sources at hand.  It is the "fixed 26-letter extended protein
    alphabet"; the letters are those the docstring of [gen_amino_acid_vocab]
    gives. *)
Definition EXTENDED_IUPAC_PROTEIN_ALPHABET : string :=
  "ACDEFGHIKLMNPQRSTVWYBXZJUO".

(** The body of [gen_amino_acid_vocab] on the letters of the alphabet. *)
Definition vocab_of (letters : list ascii) : gmap ascii Z :=
  foldl (λ aminoacid_to_ix '(i, aa),
           foldl (λ d key, <[key := i + 1]> d) aminoacid_to_ix
                 [upper aa; lower aa])
        ∅ (enumerate letters).

Definition gen_amino_acid_vocab (alphabet : option string) : gmap ascii Z :=
  let alphabet :=
    match alphabet with
    | None => EXTENDED_IUPAC_PROTEIN_ALPHABET
    | Some a => a
    end in
  vocab_of (list_ascii_of_string alphabet).

(** Line 301: [[self.vocab.get(c, 0) for c in next_seq.seq]]. *)
Definition encode_char (vocab : gmap ascii Z) (c : ascii) : Z :=
  default 0 (vocab !! c).

Definition encode_residues (vocab : gmap ascii Z) (seq : string) : list Z :=
  encode_char vocab <$> list_ascii_of_string seq.

(** ** The vocabulary of any alphabet

    The definitions above read text as ASCII, which is what the protein
    alphabets and the sequence files are made of; on ASCII text [str.upper]
    and [str.lower] are [upper] and [lower].  [gen_amino_acid_vocab] itself
    takes any [str].  Beyond ASCII the upper- or lower-case form of a
    character can have several characters (['ß'.upper()] is ['SS']), two
    characters that differ after case folding can share a form
    (['ı'.upper()] and ['i'.upper()] are both ['I']), and the tables are
    those of the Unicode version of the interpreter.  This module has the
    function for any [str]: a [str] is the list of its code points, the keys
    of the dictionary are [str]s, and the case tables are taken as they
    come, so that what is proved holds for every table, those of Python
    among them. *)
Module Unicode.

(** A [str] is a [list code_point]. *)
Definition code_point : Type := N.

(** [c.upper()], [c.lower()] and [c.casefold()] for a [str] [c] of one
    character. *)
Record case_tables : Type := {
  upper : code_point → list code_point;
  lower : code_point → list code_point;
  casefold : code_point → list code_point
}.

(** An ASCII literal as a [str]. *)
Definition of_string (s : string) : list code_point :=
  N_of_ascii <$> list_ascii_of_string s.

Definition gen_amino_acid_vocab (T : case_tables)
    (alphabet : option (list code_point)) : gmap (list code_point) Z :=
  let alphabet :=
    match alphabet with
    | None => of_string EXTENDED_IUPAC_PROTEIN_ALPHABET
    | Some a => a
    end in
  foldl (λ aminoacid_to_ix '(i, aa),
           foldl (λ d key, <[key := i + 1]> d) aminoacid_to_ix
                 [upper T aa; lower T aa])
        ∅ (enumerate alphabet).

(** Line 301: [[self.vocab.get(c, 0) for c in next_seq.seq]]. *)
Definition encode_char (vocab : gmap (list code_point) Z) (c : code_point)
  : Z :=
  default 0 (vocab !! [c]).

Definition encode_residues (vocab : gmap (list code_point) Z)
    (seq : list code_point) : list Z :=
  encode_char vocab <$> seq.

(** The letters [gen_amino_acid_vocab] works on, and the two keys of a
    letter. *)
Definition letters_of (alphabet : option (list code_point))
  : list code_point :=
  match alphabet with
  | None => of_string EXTENDED_IUPAC_PROTEIN_ALPHABET
  | Some a => a
  end.

Definition case_forms (T : case_tables) (a : code_point)
  : list (list code_point) :=
  [upper T a; lower T a].

(** Two letters share a key of the dictionary. *)
Definition shares_case_form (T : case_tables) (a b : code_point) : Prop :=
  Exists (λ key, key ∈ case_forms T b) (case_forms T a).

(** No letter of the alphabet shares a key with a later one. *)
Fixpoint distinct_case_forms (T : case_tables) (letters : list code_point)
  : Prop :=
  match letters with
  | [] => True
  | a :: letters' =>
      Forall (λ b, ¬ shares_case_form T a b) letters' ∧
      distinct_case_forms T letters'
  end.

#[global] Instance shares_case_form_dec T a b :
  Decision (shares_case_form T a b).
Proof. unfold shares_case_form. apply _. Defined.

#[global] Instance distinct_case_forms_dec T letters :
  Decision (distinct_case_forms T letters).
Proof. induction letters; cbn [distinct_case_forms]; apply _. Defined.

(** The rows of Python's tables that the examples below read: those of the
    ASCII letters, of U+0131 (small dotless i: its upper-case form is [I],
    and case folding leaves it as it is) and of U+017F (small long s: its
    upper-case form is [S], and case folding gives [s]).  No example reads
    another row. *)
Definition ascii_upper (c : code_point) : code_point :=
  if ((97 <=? c) && (c <=? 122))%N then (c - 32)%N else c.

Definition ascii_lower (c : code_point) : code_point :=
  if ((65 <=? c) && (c <=? 90))%N then (c + 32)%N else c.

Definition sample_tables : case_tables :=
  {| upper c := if decide (c = 305%N) then [73%N]
                else if decide (c = 383%N) then [83%N]
                else [ascii_upper c];
     lower c := [ascii_lower c];
     casefold c := if decide (c = 383%N) then [115%N]
                   else [ascii_lower c] |}.

End Unicode.

(** ** Records read from the file, and the records handed downstream *)

(** A [Bio.SeqRecord], as far as the module reads it: [.id] and [.seq]. *)
Record SeqRecord : Type := { rec_id : string; rec_seq : string }.

(** The named tuple [sequence]. *)
Record sequence_tuple : Type := {
  seq_index : Z;
  seq_id : string;
  seq_string : string;
  seq_encoded : list Z;
  seq_label : option Z
}.

(** The named tuple [collated_sequences]. *)
Record collated_sequences : Type := {
  indices : list Z;
  ids : list string;
  sequences : list (list Z);
  labels : option (list Z)
}.

Definition UNINITIALIZED_POS : Z := -999.

(** ** Library calls the module makes *)

(** The iterator returned by [SeqIO.parse]: the records not yet read, and how
    often [close] has been called on it. *)
Record parser : Type := { unread : list SeqRecord; n_close : nat }.

Definition SeqIO_parse (file_ : list SeqRecord) : parser :=
  {| unread := file_; n_close := 0 |}.

(** [next(islice(iterator, n, n), None)]: [islice] refuses a negative bound,
    otherwise [n] records are read and dropped (fewer when the iterator ends
    before).  [n] is a worker id or a number of workers less one; a bound
    above [sys.maxsize], which [islice] refuses as well, is beyond any
    number of processes and not told apart here. *)
Definition islice_advance (it : parser) (n : Z) : result parser :=
  if n <? 0 then Raise ValueError
  else Return {| unread := drop (Z.to_nat n) (unread it); n_close := n_close it |}.

(** [numpy.random.randint(low, high)]: a value of [[low, high)]; an empty
    range raises [ValueError]. *)
Definition randint (rnd : nat → Z) (k : nat) (low high : Z) : result Z :=
  if low <? high then Return (low + (rnd k) `mod` (high - low))
  else Raise ValueError.

(** [numpy.random.choice(a)] for an integer [a]: a value of [[0, a)]. *)
Definition choice (rnd : nat → Z) (k : nat) (a : Z) : result Z :=
  if 0 <? a then Return ((rnd k) `mod` a) else Raise ValueError.

(** [torch]'s [default_collate] on an array: it reads [batch[0]] first, so an
    array without rows raises [IndexError]; otherwise the entries are kept. *)
Definition default_collate {A} (batch : list A) : result (list A) :=
  match batch with
  | [] => Raise IndexError
  | _ :: _ => Return batch
  end.

(** [numpy.zeros((n_data, max_len))]: a negative dimension is refused. *)
Definition np_zeros (n_data : nat) (max_len : Z) : result (list (list Z)) :=
  if max_len <? 0 then Raise ValueError
  else Return (replicate n_data (replicate (Z.to_nat max_len) 0)).

(** *** Arrays of 64-bit integers

    The matrix and the labels of [collate_sequences] are arrays of
    [dtype=np.int], the integer of the platform: signed, of 64 bits on the
    systems the package runs on.  The values that come in are Python
    integers of any size.  [numpy.array(l)] of a list of Python
    integers chooses the type of the array from the values: every value that
    fits is an [int64], a larger one below [2^64] is a [uint64], any other
    is kept as a Python object; one type for all is found by
    [numpy.promote_types], and [int64] with [uint64] gives [float64].  Memory
    is taken as it comes: neither [MemoryError] nor the limit numpy puts on
    the size of an array is modelled. *)

Definition fits_int64 (v : Z) : bool := (- 2 ^ 63 <=? v) && (v <? 2 ^ 63).
Definition fits_uint64 (v : Z) : bool := (0 <=? v) && (v <? 2 ^ 64).

Inductive dtype : Type := int64 | uint64 | float64 | object.

Definition dtype_of_int (v : Z) : dtype :=
  if fits_int64 v then int64
  else if fits_uint64 v then uint64
  else object.

Definition promote_types (a b : dtype) : dtype :=
  match a, b with
  | object, _ | _, object => object
  | int64, int64 => int64
  | uint64, uint64 => uint64
  | _, _ => float64
  end.

(** The type of [numpy.array(l)]; an empty list gives an array of
    [float64]. *)
Definition result_type (l : list Z) : dtype :=
  match l with
  | [] => float64
  | v :: l' =>
      foldl (λ d w, promote_types d (dtype_of_int w)) (dtype_of_int v) l'
  end.

(** The [float64] nearest to an integer below [2^64] in absolute value, ties
    to the even mantissa of 53 bits; it is an integer again. *)
Definition to_float64 (v : Z) : Z :=
  let a := Z.abs v in
  if a <? 2 ^ 53 then v
  else
    let e := Z.log2 a - 52 in
    let q := a `div` 2 ^ e in
    let r := a `mod` 2 ^ e in
    let half := 2 ^ (e - 1) in
    let q' := if (half <? r) || ((r =? half) && Z.odd q) then q + 1 else q in
    Z.sgn v * (q' * 2 ^ e).

(** An array, as far as the module reads it: its type and its items (those
    of a [float64] array are whole numbers here). *)
Record ndarray : Type := { array_dtype : dtype; array_items : list Z }.

(** Line 98: [np.array(seq.encoded)]. *)
Definition np_array (l : list Z) : ndarray :=
  let d := result_type l in
  {| array_dtype := d;
     array_items := match d with
                    | float64 => to_float64 <$> l
                    | _ => l
                    end |}.

(** What an assignment into an [int64] array makes of the items of another
    array (numpy casts without a check): a [uint64] wraps around; a
    [float64] out of range gives [-2^63], the answer of the conversion
    instruction of x86-64; a Python object is converted by [int], which
    raises [OverflowError] when the value does not fit. *)
Definition uint64_to_int64 (v : Z) : Z :=
  if v <? 2 ^ 63 then v else v - 2 ^ 64.

Definition float64_to_int64 (x : Z) : Z :=
  if fits_int64 x then x else - 2 ^ 63.

Definition to_int64 (a : ndarray) : result (list Z) :=
  match array_dtype a with
  | int64 => Return (array_items a)
  | uint64 => Return (uint64_to_int64 <$> array_items a)
  | float64 => Return (float64_to_int64 <$> array_items a)
  | object =>
      if forallb fits_int64 (array_items a) then Return (array_items a)
      else Raise OverflowError
  end.

(** Line 122: [np.array([...], dtype=np.int)] on the labels.  The elements
    are converted one after the other: [None] raises [TypeError], an integer
    that does not fit raises [OverflowError], and the first that raises
    decides. *)
Fixpoint np_array_int (l : list (option Z)) : result (list Z) :=
  match l with
  | [] => Return []
  | None :: _ => Raise TypeError
  | Some v :: l' =>
      if fits_int64 v then
        vs ← np_array_int l';
        Return (v :: vs)
      else Raise OverflowError
  end.

(** [row[start:end] = v] on a row of an [int64] array, for [start] and [end]
    that are not negative (the module passes no others): the slice is
    clipped to the row; [v] must have the length of the slice, or length one
    (it is then broadcast); its items are cast to [int64]. *)
Definition slice_assign (row : list Z) (start end_ : Z) (v : ndarray)
  : result (list Z) :=
  let n := Z.of_nat (length row) in
  let lo := Z.min start n in
  let hi := Z.max lo (Z.min end_ n) in
  let len := Z.to_nat (hi - lo) in
  if decide (length (array_items v) = len) then
    items ← to_int64 v;
    Return (take (Z.to_nat lo) row ++ items ++ drop (Z.to_nat hi) row)
  else match array_items v with
       | [_] =>
           items ← to_int64 v;
           Return (take (Z.to_nat lo) row
                   ++ (items ≫= replicate len)
                   ++ drop (Z.to_nat hi) row)
       | _ => Raise ValueError
       end.

(** [l[i]] on a Python list: a negative index counts from the end. *)
Definition getitem {A} (l : list A) (i : Z) : result A :=
  let j := if i <? 0 then Z.of_nat (length l) + i else i in
  if j <? 0 then Raise IndexError
  else match l !! Z.to_nat j with
       | Some x => Return x
       | None => Raise IndexError
       end.

(** [l[i] = x] on a Python list. *)
Definition setitem {A} (l : list A) (i : Z) (x : A) : result (list A) :=
  let j := if i <? 0 then Z.of_nat (length l) + i else i in
  if (j <? 0) || (Z.of_nat (length l) <=? j) then Raise IndexError
  else Return (<[Z.to_nat j := x]> l).

(** [l.pop()]. *)
Definition pop {A} (l : list A) : result (A * list A) :=
  match reverse l with
  | [] => Raise IndexError
  | x :: r => Return (x, reverse r)
  end.

(** ** [collate_sequences] *)

(** The argument is one [sequence] or a list of them. *)
Inductive batch_arg : Type :=
  | one_sequence (s : sequence_tuple)
  | sequence_list (l : list sequence_tuple).

(** Lines 84-91: the longest encoded sequence, not below [min_length], and
    the number of sequences. *)
Definition longest (min_length : Z) (batch : list sequence_tuple) : Z * nat :=
  foldl (λ '(max_len, n_data) seq,
           let sequence_len := Z.of_nat (length (seq_encoded seq)) in
           (if max_len <? sequence_len then sequence_len else max_len,
            S n_data))
        (min_length, 0%nat) batch.

(** Lines 96-107: the loop over [enumerate(batch)]; [k] counts the draws made
    so far. *)
Fixpoint pad_rows (rnd : nat → Z) (random_padding : bool) (max_len : Z)
    (rows : list (Z * sequence_tuple)) (k : nat) (sequences : list (list Z))
  : result (list (list Z)) :=
  match rows with
  | [] => Return sequences
  | (i, seq) :: rows' =>
      let sequence := np_array (seq_encoded seq) in
      let len := Z.of_nat (length (array_items sequence)) in
      '(start, end_, k') ←
        (if random_padding && (len <? max_len) then
           let n_zeros := max_len - len in
           start ← choice rnd k (n_zeros + 1);
           Return (start, start + len, S k)
         else Return (0, len, k));
      row ← getitem sequences i;
      row' ← slice_assign row start end_ sequence;
      sequences' ← setitem sequences i row';
      pad_rows rnd random_padding max_len rows' k' sequences'
  end.

Definition collate_sequences (rnd : nat → Z) (batch : batch_arg)
    (zero_padding : bool) (min_length : Z) (random_padding : bool)
  : result collated_sequences :=
  let batch :=
    match batch with
    | one_sequence s => [s]
    | sequence_list l => l
    end in
  let '(max_len, n_data) := longest min_length batch in
  sequences ←
    (if zero_padding then
       zeros ← np_zeros n_data max_len;
       padded ← pad_rows rnd random_padding max_len (enumerate batch) 0 zeros;
       default_collate padded
     else Raise NotImplementedError);
  let ids := seq_id <$> batch in
  let indices := seq_index <$> batch in
  (* lines 121-125: [except (AttributeError, TypeError)] sets
     [labels = None]; another exception is passed on *)
  labels ←
    match (labels ← np_array_int (seq_label <$> batch);
           default_collate labels) with
    | Return labels => Return (Some labels)
    | Raise TypeError => Return None
    | Raise e => Raise e
    | OutOfFuel => OutOfFuel
    end;
  Return {| indices := indices; ids := ids; sequences := sequences;
            labels := labels |}.

(** ** The skipped-sequences counter *)

(** [ProteinIterator.n_skipped] is either a plain [int], owned by the
    iterator, or a reference to the [SynchronizedCounter] of the dataset,
    shared by all iterators of that dataset.  The value of that one shared
    counter is the part of the store that the functions below thread. *)
Inductive skip_counter : Type :=
  | int_counter (n : Z)
  | synchronized_counter.

(** Modelled from the spec: [..utils.SynchronizedCounter] is not part of the
    sources at hand.  It is the "process-wide counter of records rejected
    across all workers" that "must support atomic increment": [c += 1] adds
    one to the shared value and leaves the reference as it is; on a plain
    [int] it rebinds the attribute to the next integer. *)
Definition iadd_one (c : skip_counter) (shared : Z) : skip_counter * Z :=
  match c with
  | int_counter n => (int_counter (n + 1), shared)
  | synchronized_counter => (synchronized_counter, shared + 1)
  end.

(** What a counter reads as, given the shared value. *)
Definition counter_value (c : skip_counter) (shared : Z) : Z :=
  match c with
  | int_counter n => n
  | synchronized_counter => shared
  end.

(** ** [ProteinIterator] *)

Module ProteinIterator.

Record t : Type := {
  iterator : parser;
  has_labels : bool;
  label_from_id : gmap string Z;
  vocab : gmap ascii Z;
  n_skipped : skip_counter;
  start : Z;
  pos : Z;
  step : Z
}.

Definition set_iterator (self : t) (it : parser) : t :=
  {| iterator := it; has_labels := has_labels self;
     label_from_id := label_from_id self; vocab := vocab self;
     n_skipped := n_skipped self; start := start self; pos := pos self;
     step := step self |}.

Definition set_pos (self : t) (p : Z) : t :=
  {| iterator := iterator self; has_labels := has_labels self;
     label_from_id := label_from_id self; vocab := vocab self;
     n_skipped := n_skipped self; start := start self; pos := p;
     step := step self |}.

Definition set_n_skipped (self : t) (c : skip_counter) : t :=
  {| iterator := iterator self; has_labels := has_labels self;
     label_from_id := label_from_id self; vocab := vocab self;
     n_skipped := c; start := start self; pos := pos self;
     step := step self |}.

(** [labels] is the label table as its rows [(protein_id, label_num)], or
    [None]; the dictionary comprehension lets a later row overwrite an
    earlier one. *)
Definition __init__ (file_ : list SeqRecord)
    (labels : option (list (string * Z))) (aa_vocab : gmap ascii Z)
    (n_skipped : skip_counter) (num_workers worker_id : Z) : t :=
  {| iterator := SeqIO_parse file_;
     has_labels := match labels with None => false | Some _ => true end;
     label_from_id :=
       match labels with
       | None => ∅
       | Some rows => foldl (λ d row, <[row.1 := row.2]> d) ∅ rows
       end;
     vocab := aa_vocab;
     n_skipped := n_skipped;
     start := worker_id;
     pos := UNINITIALIZED_POS;
     step := num_workers - 1 |}.

(** The state a method runs in: the object and the shared counter. *)
Definition state : Type := t * Z.

(** A method body: it ends in a state and with a value or an exception. *)
Definition M (A : Type) : Type := state → state * result A.

#[global] Instance M_ret : MRet M := λ A a σ, (σ, Return a).
#[global] Instance M_bind : MBind M := λ A B f m σ,
  match m σ with
  | (σ', Return a) => f a σ'
  | (σ', Raise e) => (σ', Raise e)
  | (σ', OutOfFuel) => (σ', OutOfFuel)
  end.

Definition raise {A} (e : exn) : M A := λ σ, (σ, Raise e).
Definition out_of_fuel {A} : M A := λ σ, (σ, OutOfFuel).
Definition get_self : M t := λ σ, (σ, Return σ.1).

(** [try: body except StopIteration: handler]. *)
Definition try_except_StopIteration {A} (body handler : M A) : M A := λ σ,
  match body σ with
  | (σ', Raise StopIteration) => handler σ'
  | r => r
  end.

(** [_consume(self.iterator, n=n)]. *)
Definition _consume (n : Z) : M () := λ '(self, shared),
  match islice_advance (iterator self) n with
  | Return it => ((set_iterator self it, shared), Return ())
  | Raise e => ((self, shared), Raise e)
  | OutOfFuel => ((self, shared), OutOfFuel)
  end.

(** [next(self.iterator)]. *)
Definition next_iterator : M SeqRecord := λ '(self, shared),
  match unread (iterator self) with
  | [] => ((self, shared), Raise StopIteration)
  | r :: rest =>
      ((set_iterator self {| unread := rest;
                             n_close := n_close (iterator self) |}, shared),
       Return r)
  end.

(** [self.iterator.close()]: the generator is finished and gives no more
    records. *)
Definition close_iterator : M () := λ '(self, shared),
  ((set_iterator self {| unread := [];
                         n_close := S (n_close (iterator self)) |}, shared),
   Return ()).

(** [self.pos = p] and [self.pos += d]. *)
Definition assign_pos (p : Z) : M () := λ '(self, shared),
  ((set_pos self p, shared), Return ()).
Definition add_pos (d : Z) : M () := λ '(self, shared),
  ((set_pos self (pos self + d), shared), Return ()).

(** [self.n_skipped += 1]. *)
Definition incr_n_skipped : M () := λ '(self, shared),
  let '(c, shared') := iadd_one (n_skipped self) shared in
  ((set_n_skipped self c, shared'), Return ()).

(** The condition of the [while] of line 293. *)
Definition to_skip (self : t) (sequence_id : string) (label : option Z)
  : bool :=
  bool_decide (sequence_id = "") ||
  (has_labels self && bool_decide (label = None)).

(** Lines 291-299: the [while] loop, entered with the record just read. *)
Fixpoint skip_loop (fuel : nat) (next_seq : SeqRecord)
  : M (SeqRecord * string * option Z) :=
  self ← get_self;
  let sequence_id := rec_id next_seq in
  let label := label_from_id self !! sequence_id in
  if to_skip self sequence_id label then
    match fuel with
    | O => out_of_fuel
    | S fuel' =>
        incr_n_skipped;;
        _consume (step self);;
        add_pos (step self + 1);;
        next_seq ← next_iterator;
        skip_loop fuel' next_seq
    end
  else mret (next_seq, sequence_id, label).

Definition __next__ : M sequence_tuple :=
  self ← get_self;
  (if pos self =? UNINITIALIZED_POS then
     _consume (start self);;
     assign_pos (start self + 1)
   else
     _consume (step self);;
     add_pos (step self + 1));;
  try_except_StopIteration
    (next_seq ← next_iterator;
     '(next_seq, sequence_id, label) ←
        skip_loop (length (unread (iterator self))) next_seq;
     self ← get_self;
     let encoded := encode_residues (vocab self) (rec_seq next_seq) in
     mret {| seq_index := pos self;
             seq_id := sequence_id;
             seq_string := rec_seq next_seq;
             seq_encoded := encoded;
             seq_label := label |})
    (close_iterator;;
     raise StopIteration).

(** [list(it)]: [__next__] is called until it raises [StopIteration]; any
    other exception ends the run.  The result is the list of the records
    yielded, the final state and how the run ended. *)
Fixpoint collect (fuel : nat) (σ : state)
  : list sequence_tuple * state * result () :=
  match __next__ σ with
  | (σ', Return x) =>
      match fuel with
      | O => ([x], σ', OutOfFuel)
      | S fuel' =>
          let '(xs, σ'', r) := collect fuel' σ' in (x :: xs, σ'', r)
      end
  | (σ', Raise StopIteration) => ([], σ', Return ())
  | (σ', Raise e) => ([], σ', Raise e)
  | (σ', OutOfFuel) => ([], σ', OutOfFuel)
  end.

Definition to_list (σ : state) : list sequence_tuple * state * result () :=
  collect (length (unread (iterator σ.1))) σ.

End ProteinIterator.

(** ** [ProteinDataset] *)

Module ProteinDataset.

(** The attributes the iteration reads: the file (as its records), the label
    table (as its rows, after [label_num] was added) and the vocabulary.
    [self.n_skipped] is the shared [SynchronizedCounter]: its value is the
    store, and [__init__] sets it to 0. *)
Record t : Type := {
  file : list SeqRecord;
  labels : option (list (string * Z));
  vocab : gmap ascii Z
}.

Definition __init__ (file : list SeqRecord)
    (labels : option (list (string * Z))) : t * Z :=
  ({| file := file; labels := labels;
      vocab := gen_amino_acid_vocab (Some EXTENDED_IUPAC_PROTEIN_ALPHABET) |},
   0).

(** [torch.utils.data.get_worker_info()] is [None] in the main process and
    carries [num_workers] and [id] in a worker. *)
Record worker_info : Type := { num_workers : Z; id_ : Z }.

Definition __iter__ (self : t) (info : option worker_info)
  : ProteinIterator.t :=
  match info with
  | None =>
      ProteinIterator.__init__ (file self) (labels self) (vocab self)
        (int_counter 0) 1 0
  | Some w =>
      ProteinIterator.__init__ (file self) (labels self) (vocab self)
        synchronized_counter (num_workers w) (id_ w)
  end.

(** What [len(dataset)] gives: a length, or the [TypeError] that [__len__]
    raises in place of the [AttributeError] of a dataset without labels. *)
Inductive len_outcome : Type :=
  | len_is (n : nat)
  | len_TypeError.

(** [__len__]: [self.labels.label_num.size], the number of rows of the label
    table. *)
Definition __len__ (self : t) : len_outcome :=
  match labels self with
  | Some rows => len_is (length rows)
  | None => len_TypeError
  end.

End ProteinDataset.

(** ** [ShuffledProteinDataset] *)

Module ShuffledProteinDataset.

Record t : Type := { dataset : ProteinDataset.t; buffer_size : Z }.

(** What running the generator to its end leaves behind: the records
    yielded, in order; the attribute [buffer_size]; the buffer; the iterator
    and the shared counter; the number of draws made. *)
Record run : Type := {
  yielded : list sequence_tuple;
  final_buffer_size : Z;
  final_shufbuf : list sequence_tuple;
  final_state : ProteinIterator.state;
  draws : nat;
  outcome : result ()
}.

Definition yield (x : sequence_tuple) (r : run) : run :=
  {| yielded := x :: yielded r; final_buffer_size := final_buffer_size r;
     final_shufbuf := final_shufbuf r; final_state := final_state r;
     draws := draws r; outcome := outcome r |}.

Definition stop (buffer_size : Z) (shufbuf : list sequence_tuple)
    (σ : ProteinIterator.state) (k : nat) (r : result ()) : run :=
  {| yielded := []; final_buffer_size := buffer_size;
     final_shufbuf := shufbuf; final_state := σ; draws := k; outcome := r |}.

(** Lines 439-443: [for i in range(self.buffer_size)], [n] rounds left.  The
    result is the buffer, the state, and whether [StopIteration] ended the
    loop; another exception is passed on. *)
Fixpoint fill (n : nat) (shufbuf : list sequence_tuple)
    (σ : ProteinIterator.state)
  : list sequence_tuple * ProteinIterator.state * result bool :=
  match n with
  | O => (shufbuf, σ, Return false)
  | S n' =>
      match ProteinIterator.__next__ σ with
      | (σ', Return x) => fill n' (shufbuf ++ [x]) σ'
      | (σ', Raise StopIteration) => (shufbuf, σ', Return true)
      | (σ', Raise e) => (shufbuf, σ', Raise e)
      | (σ', OutOfFuel) => (shufbuf, σ', OutOfFuel)
      end
  end.

(** Lines 454-455: [while len(shufbuf) > 0: yield shufbuf.pop()]. *)
Fixpoint drain (fuel : nat) (buffer_size : Z) (shufbuf : list sequence_tuple)
    (σ : ProteinIterator.state) (k : nat) : run :=
  if (0 <? length shufbuf)%nat then
    match fuel with
    | O => stop buffer_size shufbuf σ k OutOfFuel
    | S fuel' =>
        match pop shufbuf with
        | Return (x, shufbuf') => yield x (drain fuel' buffer_size shufbuf' σ k)
        | Raise e => stop buffer_size shufbuf σ k (Raise e)
        | OutOfFuel => stop buffer_size shufbuf σ k OutOfFuel
        end
    end
  else stop buffer_size shufbuf σ k (Return ()).

(** Lines 446-455: the [while True] loop, and the loop that empties the
    buffer after its [break]. *)
Fixpoint steady (fuel : nat) (rnd : nat → Z) (buffer_size : Z)
    (shufbuf : list sequence_tuple) (σ : ProteinIterator.state) (k : nat)
  : run :=
  match ProteinIterator.__next__ σ with
  | (σ', Return item) =>
      match randint rnd k 0 (buffer_size - 1) with
      | Return evict_idx =>
          match getitem shufbuf evict_idx with
          | Return evicted =>
              match setitem shufbuf evict_idx item with
              | Return shufbuf' =>
                  match fuel with
                  | O => yield evicted
                           (stop buffer_size shufbuf' σ' (S k) OutOfFuel)
                  | S fuel' =>
                      yield evicted
                        (steady fuel' rnd buffer_size shufbuf' σ' (S k))
                  end
              | Raise e => yield evicted (stop buffer_size shufbuf σ' (S k) (Raise e))
              | OutOfFuel => stop buffer_size shufbuf σ' (S k) OutOfFuel
              end
          | Raise e => stop buffer_size shufbuf σ' (S k) (Raise e)
          | OutOfFuel => stop buffer_size shufbuf σ' (S k) OutOfFuel
          end
      | Raise e => stop buffer_size shufbuf σ' k (Raise e)
      | OutOfFuel => stop buffer_size shufbuf σ' k OutOfFuel
      end
  | (σ', Raise StopIteration) =>
      drain (length shufbuf) buffer_size shufbuf σ' k
  | (σ', Raise e) => stop buffer_size shufbuf σ' k (Raise e)
  | (σ', OutOfFuel) => stop buffer_size shufbuf σ' k OutOfFuel
  end.

(** [__iter__], run until the generator returns or raises; [shared] is the
    value of the dataset's counter at the start. *)
Definition __iter__ (rnd : nat → Z) (self : t)
    (info : option ProteinDataset.worker_info) (shared : Z) : run :=
  let shufbuf := [] in
  let dataset_iter := ProteinDataset.__iter__ (dataset self) info in
  match fill (Z.to_nat (buffer_size self)) shufbuf (dataset_iter, shared) with
  | (shufbuf, σ, Return stopped) =>
      let buffer_size :=
        if stopped then Z.of_nat (length shufbuf) else buffer_size self in
      steady (length (unread (ProteinIterator.iterator σ.1))) rnd
             buffer_size shufbuf σ 0
  | (shufbuf, σ, Raise e) => stop (buffer_size self) shufbuf σ 0 (Raise e)
  | (shufbuf, σ, OutOfFuel) => stop (buffer_size self) shufbuf σ 0 OutOfFuel
  end.

End ShuffledProteinDataset.

(** The letters [gen_amino_acid_vocab] works on. *)
Definition letters_of (alphabet : option string) : list ascii :=
  list_ascii_of_string
    match alphabet with
    | None => EXTENDED_IUPAC_PROTEIN_ALPHABET
    | Some a => a
    end.

(** ** What a shard is: the records an iterator reads

    The functions of this section are not in the source: they say, by
    recursion on the list of records, which records an iterator reads, and
    the theorems relate [ProteinIterator.__next__] to them. *)

(** Whether the [while] of line 293 skips the record [r]. *)
Definition skipped_by (self : ProteinIterator.t) (r : SeqRecord) : bool :=
  ProteinIterator.to_skip self (rec_id r)
    (ProteinIterator.label_from_id self !! rec_id r).

(** The [sequence] built in lines 301-306 from the record [r] read at
    position [p]. *)
Definition sequence_of (self : ProteinIterator.t) (p : Z) (r : SeqRecord)
  : sequence_tuple :=
  {| seq_index := p;
     seq_id := rec_id r;
     seq_string := rec_seq r;
     seq_encoded := encode_residues (ProteinIterator.vocab self) (rec_seq r);
     seq_label := ProteinIterator.label_from_id self !! rec_id r |}.

(** The records of [l] that are read and kept, with their positions, when [k]
    records are dropped first, [s] records are dropped between two reads, and
    the head of [l] has position [p]. *)
Fixpoint shard (skip : SeqRecord → bool) (k s : nat) (p : Z)
    (l : list SeqRecord) : list (Z * SeqRecord) :=
  match l with
  | [] => []
  | x :: l' =>
      match k with
      | O => (if skip x then [] else [(p, x)]) ++ shard skip s s (p + 1) l'
      | S k' => shard skip k' s (p + 1) l'
      end
  end.

(** The number of records of [l] that are read and skipped. *)
Fixpoint shard_skips (skip : SeqRecord → bool) (k s : nat)
    (l : list SeqRecord) : Z :=
  match l with
  | [] => 0
  | x :: l' =>
      match k with
      | O => (if skip x then 1 else 0) + shard_skips skip s s l'
      | S k' => shard_skips skip k' s l'
      end
  end.

(** [d] skips recorded in a counter. *)
Definition add_skips (d : Z) (c : skip_counter * Z) : skip_counter * Z :=
  match c.1 with
  | int_counter n => (int_counter (n + d), c.2)
  | synchronized_counter => (synchronized_counter, c.2 + d)
  end.

(** ** The claims' vocabulary *)

(** The validity filter in the words of the specification: a record is
    invalid if its id is empty, or a label table was supplied and has no row
    for its id. *)
Definition invalid_record (labels : option (list (string * Z)))
    (r : SeqRecord) : bool :=
  bool_decide (rec_id r = "") ||
  match labels with
  | None => false
  | Some rows => bool_decide (rec_id r ∉ rows.*1)
  end.

(** The 1-based positions, in the file, of the records that pass the
    validity filter. *)
Definition valid_positions (labels : option (list (string * Z)))
    (file : list SeqRecord) : list Z :=
  omap (λ '(i, r), if invalid_record labels r then None else Some (i + 1))
       (enumerate file).

(** The number of records of the file that the validity filter rejects. *)
Definition count_invalid (labels : option (list (string * Z)))
    (file : list SeqRecord) : Z :=
  Z.of_nat (length (filter (λ r, invalid_record labels r = true) file)).

Definition sum_list (l : list Z) : Z := foldr Z.add 0 l.

(** The worker ids of [W] workers. *)
Definition workers (W : Z) : list Z := seqZ 0 W.

(** The iterator of worker [w] of [W] over its own copy of the file, with a
    counter of its own. *)
Definition worker_iterator (file : list SeqRecord)
    (labels : option (list (string * Z))) (vocab : gmap ascii Z) (W w : Z)
  : ProteinIterator.state :=
  (ProteinIterator.__init__ file labels vocab (int_counter 0) W w, 0).

(** The [index] values an iterator yields until it is exhausted. *)
Definition index_values (σ : ProteinIterator.state) : list Z :=
  seq_index <$> (ProteinIterator.to_list σ).1.1.

(** The object after some records were read: what is left to read, the number
    of [close] calls, the position and the counter; the other attributes are
    never assigned after [__init__]. *)
Definition progressed (self : ProteinIterator.t) (rest : list SeqRecord)
    (closes : nat) (p : Z) (c : skip_counter) : ProteinIterator.t :=
  ProteinIterator.set_n_skipped
    (ProteinIterator.set_pos
       (ProteinIterator.set_iterator self
          {| unread := rest; n_close := closes |}) p) c.

(** The number of records [__next__] drops before it reads, and the position
    of the first record not yet read. *)
Definition pending (self : ProteinIterator.t) : Z :=
  if ProteinIterator.pos self =? UNINITIALIZED_POS
  then ProteinIterator.start self else ProteinIterator.step self.

Definition next_position (self : ProteinIterator.t) : Z :=
  if ProteinIterator.pos self =? UNINITIALIZED_POS
  then 1 else ProteinIterator.pos self + 1.

(** One search for the next record to keep: [k] records are dropped, one is
    read at position [p + k] ([p] is the position of the head of [l]); a
    skipped record starts the search again with [s] records to drop.  The
    result is the number of records skipped, the position reached, and the
    record kept with the records after it, if there is one. *)
Fixpoint seek (skip : SeqRecord → bool) (k s : nat) (p : Z)
    (l : list SeqRecord) : Z * Z * option (SeqRecord * list SeqRecord) :=
  match l with
  | [] => (0, p + Z.of_nat k, None)
  | x :: l' =>
      match k with
      | O =>
          if skip x then
            let '(d, p', o) := seek skip s s (p + 1) l' in (1 + d, p', o)
          else (0, p, Some (x, l'))
      | S k' => seek skip k' s (p + 1) l'
      end
  end.

(** What one call of [__next__] does, in terms of [seek]. *)
Definition next_of_seek (σ : ProteinIterator.state)
    (found : Z * Z * option (SeqRecord * list SeqRecord))
  : ProteinIterator.state * result sequence_tuple :=
  let '(self, shared) := σ in
  let '(d, p', o) := found in
  let c := add_skips d (ProteinIterator.n_skipped self, shared) in
  let closes := n_close (ProteinIterator.iterator self) in
  match o with
  | Some (y, rest) =>
      ((progressed self rest closes p' c.1, c.2),
       Return (sequence_of self p' y))
  | None =>
      ((progressed self [] (S closes) p' c.1, c.2), Raise StopIteration)
  end.

(** The states [__next__] is called in: [start] and [step] are not negative
    (the worker id is at least 0 and there is at least one worker), and the
    position is the initial one or a position of the file. *)
Definition ready (self : ProteinIterator.t) : Prop :=
  0 ≤ ProteinIterator.start self ∧ 0 ≤ ProteinIterator.step self ∧
  (ProteinIterator.pos self = UNINITIALIZED_POS ∨ 0 < ProteinIterator.pos self).

(** The records an iterator in state [self] is still to yield. *)
Definition remaining_shard (self : ProteinIterator.t)
  : list (Z * SeqRecord) :=
  shard (skipped_by self) (Z.to_nat (pending self))
        (Z.to_nat (ProteinIterator.step self)) (next_position self)
        (unread (ProteinIterator.iterator self)).

(** The records it is still to skip. *)
Definition remaining_skips (self : ProteinIterator.t) : Z :=
  shard_skips (skipped_by self) (Z.to_nat (pending self))
        (Z.to_nat (ProteinIterator.step self))
        (unread (ProteinIterator.iterator self)).

(** All workers of a dataset, run to the end one after the other on the
    shared counter (the increments of different workers commute, so the
    order does not matter): the value of the shared counter at the end. *)
Definition run_workers (file : list SeqRecord)
    (labels : option (list (string * Z))) (vocab : gmap ascii Z) (W : Z)
    (shared : Z) : Z :=
  foldl (λ sh w,
           (ProteinIterator.to_list
              (ProteinIterator.__init__ file labels vocab
                 synchronized_counter W w, sh)).1.2.2)
        shared (workers W).

(** [n] calls of [__next__], one after the other: what each call gave, and
    the state after the last. *)
Fixpoint next_calls (n : nat) (σ : ProteinIterator.state)
  : list (result sequence_tuple) * ProteinIterator.state :=
  match n with
  | O => ([], σ)
  | S n' =>
      let '(σ', r) := ProteinIterator.__next__ σ in
      let '(rs, σ'') := next_calls n' σ' in
      (r :: rs, σ'')
  end.

(** The states an iterator goes through, also after the end of the file. *)
Definition usable (self : ProteinIterator.t) : Prop :=
  0 ≤ ProteinIterator.start self ∧ 0 ≤ ProteinIterator.step self ∧
  (ProteinIterator.pos self = UNINITIALIZED_POS ∨
   0 < ProteinIterator.pos self ∨
   unread (ProteinIterator.iterator self) = []).

(** The records an iterator is still to yield, as [sequence]s. *)
Definition remaining (σ : ProteinIterator.state) : list sequence_tuple :=
  (λ pr, sequence_of σ.1 pr.1 pr.2) <$> remaining_shard σ.1.

(** ** The shuffle stage in the words of the specification

    Steady state: for each record pulled, a slot is chosen, the record in
    that slot is emitted, and the slot is overwritten with the record
    pulled.  Drain: the buffered records are emitted from the end of the
    buffer backward.  [slots] are the slots chosen, one per record pulled. *)
Fixpoint steady_state_spec {A} (slots : list nat) (buffer : list A)
    (pulled : list A) {struct pulled} : list A :=
  match pulled with
  | [] => reverse buffer
  | item :: pulled' =>
      match slots with
      | [] => []
      | slot :: slots' =>
          match buffer !! slot with
          | Some evicted =>
              evicted :: steady_state_spec slots' (<[slot := item]> buffer)
                           pulled'
          | None => []
          end
      end
  end.

(** Fill: the first [capacity] records (fewer, if there are no more) make
    the buffer; the others are pulled in the steady state. *)
Definition shuffle_stage_spec {A} (slots : list nat) (capacity : nat)
    (records : list A) : list A :=
  steady_state_spec slots (take capacity records) (drop capacity records).

(** The number of records in the buffer after the fill phase. *)
Definition effective_capacity {A} (capacity : Z) (records : list A) : Z :=
  Z.min capacity (Z.of_nat (length records)).

(** The slots that the oracle [rnd] chooses for [n] records, its draws
    numbered from [k], in a buffer of [capacity] slots. *)
Definition drawn_slots (rnd : nat → Z) (k n : nat) (capacity : Z)
  : list nat :=
  (λ j, Z.to_nat (rnd j `mod` (capacity - 1))) <$> seq k n.

(** The worker context is absent, or names a worker of at least one. *)
Definition worker_info_ok (info : option ProteinDataset.worker_info) : Prop :=
  match info with
  | None => True
  | Some i => 1 ≤ ProteinDataset.num_workers i ∧ 0 ≤ ProteinDataset.id_ i
  end.

(** The records the iterator under the shuffle stage yields. *)
Definition underlying_records (self : ProteinDataset.t)
    (info : option ProteinDataset.worker_info) (shared : Z)
  : list sequence_tuple :=
  (ProteinIterator.to_list (ProteinDataset.__iter__ self info, shared)).1.1.

(** ** Collation in the words of the specification *)

(** The row length: the longest encoded record of the batch, and at least
    [min_length]. *)
Definition row_length (min_length : Z) (batch : list sequence_tuple) : Z :=
  foldr Z.max min_length
        ((λ s, Z.of_nat (length (seq_encoded s))) <$> batch).

(** A zero-filled row of length [max_len] with [encoded] placed at offset
    [start]. *)
Definition place (max_len start : Z) (encoded : list Z) : list Z :=
  replicate (Z.to_nat start) 0 ++ encoded ++
  replicate (Z.to_nat (max_len - start) - length encoded) 0.

(** The start offsets: for a record shorter than the row, with random
    padding, a draw from [[0, max_len - len]]; otherwise 0.  [k] numbers the
    draws. *)
Fixpoint start_offsets (rnd : nat → Z) (random_padding : bool) (max_len : Z)
    (k : nat) (batch : list sequence_tuple) : list Z :=
  match batch with
  | [] => []
  | s :: batch' =>
      let len := Z.of_nat (length (seq_encoded s)) in
      if random_padding && (len <? max_len) then
        rnd k `mod` (max_len - len + 1)
          :: start_offsets rnd random_padding max_len (S k) batch'
      else 0 :: start_offsets rnd random_padding max_len k batch'
  end.

(** The records of the argument of [collate_sequences]. *)
Definition records_of (batch : batch_arg) : list sequence_tuple :=
  match batch with
  | one_sequence s => [s]
  | sequence_list l => l
  end.

(** ** Further vocabulary for the properties of the code *)

(** [str.upper] and [str.lower] on a whole (ASCII) string. *)
Definition str_upper (s : string) : string :=
  string_of_list_ascii (upper <$> list_ascii_of_string s).
Definition str_lower (s : string) : string :=
  string_of_list_ascii (lower <$> list_ascii_of_string s).

(** The records an iterator run to its end yields, and the value of its skip
    counter at the end. *)
Definition yielded_records (σ : ProteinIterator.state)
  : list sequence_tuple :=
  (ProteinIterator.to_list σ).1.1.

Definition final_skip_count (σ : ProteinIterator.state) : Z :=
  let σ' := (ProteinIterator.to_list σ).1.2 in
  counter_value (ProteinIterator.n_skipped σ'.1) σ'.2.

(** The file, reduced to the records that pass the validity filter. *)
Definition valid_records (labels : option (list (string * Z)))
    (file : list SeqRecord) : list SeqRecord :=
  filter (λ r, invalid_record labels r = false) file.

(** ** Values that the arrays can hold *)

(** The encoded record can be written into the matrix: no value is kept as
    a Python object by [numpy.array]. *)
Definition storable (encoded : list Z) : Prop :=
  Forall (λ v, - 2 ^ 63 ≤ v < 2 ^ 64) encoded.

(** What the matrix then holds of the record: the record itself when its
    values fit [int64]. *)
Definition stored (encoded : list Z) : list Z :=
  match result_type encoded with
  | int64 | object => encoded
  | uint64 => uint64_to_int64 <$> encoded
  | float64 => (λ v, float64_to_int64 (to_float64 v)) <$> encoded
  end.

(** A label that does not fit [int64] comes before every missing label. *)
Fixpoint label_overflow (labels : list (option Z)) : bool :=
  match labels with
  | [] => false
  | None :: _ => false
  | Some v :: labels' => negb (fits_int64 v) || label_overflow labels'
  end.

(** The batch can be held by the arrays of [collate_sequences]. *)
Definition collatable (batch : list sequence_tuple) : Prop :=
  Forall (λ s, storable (seq_encoded s)) batch ∧
  label_overflow (seq_label <$> batch) = false.



(** [sys.maxsize] of a 64-bit interpreter. *)
Definition sys_maxsize : Z := 2 ^ 63 - 1.

#[global] Instance storable_dec (encoded : list Z) :
  Decision (storable encoded).
Proof. unfold storable. apply _. Defined.

#[global] Instance collatable_dec (batch : list sequence_tuple) :
  Decision (collatable batch).
Proof. unfold collatable. apply _. Defined.
(** * Properties *)

(** ** Vocabulary *)

Section Characters.

Local Ltac by_cases c :=
  destruct c as [[] [] [] [] [] [] [] []]; vm_compute; auto; try discriminate.

Lemma upper_lower c : upper (lower c) = upper c.
Proof. by_cases c. Qed.

Lemma lower_upper c : lower (upper c) = lower c.
Proof. by_cases c. Qed.

Lemma lower_lower c : lower (lower c) = lower c.
Proof. by_cases c. Qed.

Lemma upper_upper c : upper (upper c) = upper c.
Proof. by_cases c. Qed.

Lemma upper_or_lower c : c = upper c ∨ c = lower c.
Proof. by_cases c. Qed.

Lemma upper_fixed c : lower (upper c) = upper c → upper c = c.
Proof. by_cases c. Qed.

Lemma lower_fixed c : upper (lower c) = lower c → lower c = c.
Proof. by_cases c. Qed.

End Characters.

Lemma casefold_upper a b : casefold a = casefold b → upper a = upper b.
Proof.
  unfold casefold. intros H.
  rewrite <- (upper_lower a), <- (upper_lower b). by rewrite H.
Qed.


Lemma upper_lower_meet a b : upper a = lower b → a = b.
Proof.
  intros H.
  assert (Ha : upper a = a).
  { apply upper_fixed. by rewrite H, lower_lower. }
  assert (Hb : lower b = b).
  { apply lower_fixed. by rewrite <- H, upper_upper. }
  congruence.
Qed.

(** Two letters that share a dictionary key are equal after case folding. *)
Lemma keys_meet a b :
  upper a = upper b ∨ upper a = lower b ∨ lower a = upper b ∨
  lower a = lower b →
  casefold a = casefold b.
Proof.
  unfold casefold. intros [H | [H | [H | H]]].
  - by rewrite <- (lower_upper a), H, lower_upper.
  - by rewrite (upper_lower_meet a b H).
  - symmetry in H. by rewrite (upper_lower_meet b a H).
  - done.
Qed.

Lemma enumerate_snoc {A} (l : list A) (x : A) :
  enumerate (l ++ [x]) = enumerate l ++ [(Z.of_nat (length l), x)].
Proof.
  unfold enumerate. rewrite imap_app. simpl. by rewrite Nat.add_0_r.
Qed.

Lemma vocab_of_snoc (l : list ascii) (a : ascii) :
  vocab_of (l ++ [a]) =
  <[lower a := Z.of_nat (length l) + 1]>
    (<[upper a := Z.of_nat (length l) + 1]> (vocab_of l)).
Proof. unfold vocab_of. rewrite enumerate_snoc, foldl_app. done. Qed.

(** Every entry of the vocabulary comes from a letter of the alphabet. *)
Lemma vocab_of_lookup_Some (l : list ascii) (c : ascii) (code : Z) :
  vocab_of l !! c = Some code →
  ∃ (i : nat) a, l !! i = Some a ∧ (c = upper a ∨ c = lower a) ∧
                 code = Z.of_nat i + 1.
Proof.
  induction l as [|a l IH] using rev_ind.
  - unfold vocab_of. simpl. by rewrite lookup_empty.
  - rewrite vocab_of_snoc. intros H.
    destruct (decide (lower a = c)) as [<-|Hl].
    { rewrite lookup_insert_eq in H. injection H as <-.
      exists (length l), a. rewrite list_lookup_middle by done. auto. }
    rewrite lookup_insert_ne in H by done.
    destruct (decide (upper a = c)) as [<-|Hu].
    { rewrite lookup_insert_eq in H. injection H as <-.
      exists (length l), a. rewrite list_lookup_middle by done. auto. }
    rewrite lookup_insert_ne in H by done.
    destruct (IH H) as (i & b & Hi & Hc & ->).
    exists i, b. split_and!; auto.
    rewrite lookup_app_l; [done|]. by eapply lookup_lt_Some.
Qed.

(** Both keys of a letter carry the code of the last letter that equals it
    after case folding. *)
Lemma vocab_of_lookup_class (l : list ascii) (j : nat) (b : ascii) :
  l !! j = Some b →
  ∃ k : nat, (j ≤ k)%nat ∧
    vocab_of l !! upper b = Some (Z.of_nat k + 1) ∧
    vocab_of l !! lower b = Some (Z.of_nat k + 1).
Proof.
  revert j. induction l as [|x l IH] using rev_ind; intros j Hj.
  - done.
  - rewrite vocab_of_snoc.
    assert (j < length (l ++ [x]))%nat as Hlt by by eapply lookup_lt_Some.
    rewrite length_app in Hlt. simpl in Hlt.
    destruct (decide (casefold x = casefold b)) as [E|Hne].
    + exists (length l). split; [lia|].
      pose proof (casefold_upper _ _ E) as Eu. unfold casefold in E.
      rewrite E, Eu. split; [|by rewrite lookup_insert_eq].
      destruct (decide (lower b = upper b)) as [->|Hlu].
      * by rewrite lookup_insert_eq.
      * rewrite lookup_insert_ne by done. by rewrite lookup_insert_eq.
    + assert (j ≠ length l) as Hj'.
      { intros ->. rewrite list_lookup_middle in Hj by done. congruence. }
      rewrite lookup_app_l in Hj by lia.
      destruct (IH j Hj) as (k & Hk & Hu & Hl).
      exists k. split; [done|].
      rewrite !lookup_insert_ne; [done|..];
        intros K; apply Hne, keys_meet; auto.
Qed.

Lemma vocab_of_lookup_None (l : list ascii) (c : ascii) :
  (∀ a, a ∈ l → c ≠ upper a ∧ c ≠ lower a) → vocab_of l !! c = None.
Proof.
  intros H. destruct (vocab_of l !! c) as [code|] eqn:E; [|done].
  destruct (vocab_of_lookup_Some _ _ _ E) as (i & a & Hi & Hc & _).
  destruct (H a) as [? ?]; [by eapply list_elem_of_lookup_2|].
  by destruct Hc.
Qed.

Lemma gen_amino_acid_vocab_letters alphabet :
  gen_amino_acid_vocab alphabet = vocab_of (letters_of alphabet).
Proof. by destruct alphabet. Qed.

(** ** The vocabulary of any alphabet *)

Section unicode_vocabulary.

Context (T : Unicode.case_tables).

Lemma unicode_vocab_snoc (l : list Unicode.code_point)
    (a : Unicode.code_point) :
  Unicode.gen_amino_acid_vocab T (Some (l ++ [a])) =
  <[Unicode.lower T a := Z.of_nat (length l) + 1]>
    (<[Unicode.upper T a := Z.of_nat (length l) + 1]>
       (Unicode.gen_amino_acid_vocab T (Some l))).
Proof.
  unfold Unicode.gen_amino_acid_vocab. by rewrite enumerate_snoc, foldl_app.
Qed.

Lemma unicode_vocab_letters (alphabet : option (list Unicode.code_point)) :
  Unicode.gen_amino_acid_vocab T alphabet
  = Unicode.gen_amino_acid_vocab T (Some (Unicode.letters_of alphabet)).
Proof. by destruct alphabet. Qed.

Lemma elem_of_case_forms (key : list Unicode.code_point)
    (a : Unicode.code_point) :
  key ∈ Unicode.case_forms T a ↔
  key = Unicode.upper T a ∨ key = Unicode.lower T a.
Proof.
  unfold Unicode.case_forms.
  rewrite elem_of_cons, list_elem_of_singleton. tauto.
Qed.

(** The entry of a key is the code of the last letter that has the key as
    its upper- or lower-case form. *)
Lemma unicode_vocab_lookup (l key : list Unicode.code_point) (code : Z) :
  Unicode.gen_amino_acid_vocab T (Some l) !! key = Some code ↔
  ∃ (i : nat) a,
    l !! i = Some a ∧ key ∈ Unicode.case_forms T a ∧
    code = Z.of_nat i + 1 ∧
    ∀ (j : nat) b, (i < j)%nat → l !! j = Some b →
                   key ∉ Unicode.case_forms T b.
Proof.
  revert code. induction l as [|a l IH] using rev_ind; intros code.
  - unfold Unicode.gen_amino_acid_vocab. cbn. rewrite lookup_empty.
    split; [done|]. by intros (i & b & ? & _).
  - rewrite unicode_vocab_snoc.
    destruct (decide (key ∈ Unicode.case_forms T a)) as [Hin|Hout].
    + match goal with
      | |- ?entry = Some code ↔ _ =>
          assert (entry = Some (Z.of_nat (length l) + 1)) as ->
      end.
      { apply elem_of_case_forms in Hin as [->| ->].
        - destruct (decide (Unicode.lower T a = Unicode.upper T a))
            as [->|Hne].
          + by rewrite lookup_insert_eq.
          + rewrite lookup_insert_ne by done. by rewrite lookup_insert_eq.
        - by rewrite lookup_insert_eq. }
      split.
      * intros [= <-]. exists (length l), a.
        rewrite list_lookup_middle by done. split_and!; [done..|].
        intros j b Hj Hb. apply lookup_lt_Some in Hb.
        rewrite length_app in Hb. cbn in Hb. lia.
      * intros (i & b & Hi & _ & -> & Hlast).
        destruct (decide (i = length l)) as [->|Hne]; [done|].
        exfalso. pose proof (lookup_lt_Some _ _ _ Hi) as Hlt.
        rewrite length_app in Hlt. cbn in Hlt.
        apply (Hlast (length l) a); [lia| |done].
        by rewrite list_lookup_middle.
    + assert (Unicode.upper T a ≠ key ∧ Unicode.lower T a ≠ key)
        as [Hu Hl].
      { rewrite elem_of_case_forms in Hout. split; intros <-; tauto. }
      rewrite !lookup_insert_ne by done. rewrite IH. split.
      * intros (i & b & Hi & Hb & -> & Hlast).
        exists i, b. split_and!; [|done..|].
        { rewrite lookup_app_l; [done|]. by eapply lookup_lt_Some. }
        intros j c Hj Hc.
        destruct (decide (j = length l)) as [->|Hne].
        -- rewrite list_lookup_middle in Hc by done. by injection Hc as <-.
        -- apply (Hlast j c Hj).
           rewrite lookup_app_l in Hc; [done|].
           apply lookup_lt_Some in Hc. rewrite length_app in Hc.
           cbn in Hc. lia.
      * intros (i & b & Hi & Hb & -> & Hlast).
        assert (i ≠ length l) as Hne.
        { intros ->. rewrite list_lookup_middle in Hi by done.
          by injection Hi as <-. }
        pose proof (lookup_lt_Some _ _ _ Hi) as Hlt.
        rewrite length_app in Hlt. cbn in Hlt.
        rewrite lookup_app_l in Hi by lia.
        exists i, b. split_and!; [done..|].
        intros j c Hj Hc. apply (Hlast j c Hj).
        rewrite lookup_app_l; [done|]. by eapply lookup_lt_Some.
Qed.

Lemma unicode_vocab_code_range (l key : list Unicode.code_point) (code : Z) :
  Unicode.gen_amino_acid_vocab T (Some l) !! key = Some code →
  1 ≤ code ≤ Z.of_nat (length l).
Proof.
  intros (i & a & Hi & _ & -> & _)%unicode_vocab_lookup.
  apply lookup_lt_Some in Hi. lia.
Qed.

Lemma unicode_vocab_lookup_None (l key : list Unicode.code_point) :
  Unicode.gen_amino_acid_vocab T (Some l) !! key = None ↔
  ∀ a, a ∈ l → key ∉ Unicode.case_forms T a.
Proof.
  split.
  - intros Hnone a Ha Hkey.
    apply list_elem_of_lookup_1 in Ha as [i Hi].
    assert (∃ i a, l !! i = Some a ∧ key ∈ Unicode.case_forms T a) as Hex
      by eauto.
    clear i a Hi Hkey.
    assert (∃ (i : nat) a,
              l !! i = Some a ∧ key ∈ Unicode.case_forms T a ∧
              ∀ (j : nat) b, (i < j)%nat → l !! j = Some b →
                             key ∉ Unicode.case_forms T b)
      as (i & a & Hi & Hkey & Hlast).
    { induction l as [|b l IH] using rev_ind.
      - by destruct Hex as (i & a & ? & _).
      - destruct (decide (key ∈ Unicode.case_forms T b)) as [Hb|Hb].
        + exists (length l), b. rewrite list_lookup_middle by done.
          split_and!; [done..|]. intros j c Hj Hc.
          apply lookup_lt_Some in Hc. rewrite length_app in Hc.
          cbn in Hc. lia.
        + rewrite unicode_vocab_snoc in Hnone.
          assert (Unicode.upper T b ≠ key ∧ Unicode.lower T b ≠ key)
            as [Hu Hl].
          { rewrite elem_of_case_forms in Hb. split; intros <-; tauto. }
          rewrite !lookup_insert_ne in Hnone by done.
          destruct IH as (i & a & Hi & Hkey & Hlast); [done| |].
          { destruct Hex as (i & a & Hi & Hkey).
            destruct (decide (i = length l)) as [->|Hne].
            - rewrite list_lookup_middle in Hi by done.
              by injection Hi as <-.
            - exists i, a. split; [|done].
              apply lookup_lt_Some in Hi as Hlt.
              rewrite length_app in Hlt. cbn in Hlt.
              by rewrite lookup_app_l in Hi by lia. }
          exists i, a. split_and!; [|done|].
          { rewrite lookup_app_l; [done|]. by eapply lookup_lt_Some. }
          intros j c Hj Hc.
          destruct (decide (j = length l)) as [->|Hne].
          * rewrite list_lookup_middle in Hc by done. by injection Hc as <-.
          * apply (Hlast j c Hj).
            apply lookup_lt_Some in Hc as Hlt.
            rewrite length_app in Hlt. cbn in Hlt.
            by rewrite lookup_app_l in Hc by lia. }
    assert (Unicode.gen_amino_acid_vocab T (Some l) !! key
            = Some (Z.of_nat i + 1)) as E.
    { apply unicode_vocab_lookup. eauto 10. }
    congruence.
  - intros Hall.
    destruct (Unicode.gen_amino_acid_vocab T (Some l) !! key) as [code|]
      eqn:E; [|done].
    apply unicode_vocab_lookup in E as (i & a & Hi & Hkey & _).
    exfalso. apply (Hall a); [by eapply list_elem_of_lookup_2|done].
Qed.

Lemma shares_case_form_sym a b :
  Unicode.shares_case_form T a b → Unicode.shares_case_form T b a.
Proof.
  unfold Unicode.shares_case_form. rewrite !Exists_exists.
  intros (key & Ha & Hb). eauto.
Qed.

Lemma distinct_case_forms_lookup (l : list Unicode.code_point) (i j : nat) a b :
  Unicode.distinct_case_forms T l →
  l !! i = Some a → l !! j = Some b → i ≠ j →
  ∀ key, key ∈ Unicode.case_forms T a → key ∉ Unicode.case_forms T b.
Proof.
  assert (∀ l (i j : nat) a b,
            Unicode.distinct_case_forms T l →
            l !! i = Some a → l !! j = Some b → (i < j)%nat →
            ¬ Unicode.shares_case_form T a b) as Hlt.
  { clear. intros l. induction l as [|c l IH]; intros i j a b Hd Hi Hj Hij;
      [done|].
    destruct Hd as [Hc Hd]. destruct j as [|j]; [lia|]. cbn in Hj.
    destruct i as [|i].
    - injection Hi as <-. rewrite Forall_forall in Hc.
      apply Hc. by eapply list_elem_of_lookup_2.
    - cbn in Hi. apply (IH i j); [done..|lia]. }
  intros Hd Hi Hj Hij key Ha Hb.
  destruct (decide (i < j)%nat).
  - apply (Hlt l i j a b); [done..|].
    unfold Unicode.shares_case_form. rewrite Exists_exists. eauto.
  - apply (Hlt l j i b a); [done..|lia|].
    unfold Unicode.shares_case_form. rewrite Exists_exists. eauto.
Qed.

(** When no two letters share a key, the letter at position [i] owns its
    keys. *)
Lemma unicode_vocab_lookup_distinct (l : list Unicode.code_point) (i : nat)
    a key :
  Unicode.distinct_case_forms T l →
  l !! i = Some a → key ∈ Unicode.case_forms T a →
  Unicode.gen_amino_acid_vocab T (Some l) !! key = Some (Z.of_nat i + 1).
Proof.
  intros Hd Hi Hkey. apply unicode_vocab_lookup.
  exists i, a. split_and!; [done..|].
  intros j b Hj Hb. apply (distinct_case_forms_lookup l i j a b); auto. lia.
Qed.

End unicode_vocabulary.

(** C7, as the code has it: [gen_amino_acid_vocab] has no check for
    repeated letters and no way to fail; for every alphabet, and whatever
    the case tables, it returns a mapping in which a key carries the code of
    the last letter that has the key as its upper- or lower-case form, and
    no other key has an entry.  So when a later letter shares a key with an
    earlier one, the code of the earlier letter is overwritten: the key then
    has the code of a position that is not before the later letter. *)
Theorem vocabulary_key_carries_last_code
    (T : Unicode.case_tables) (alphabet : option (list Unicode.code_point))
    (key : list Unicode.code_point) :
  let vocab := Unicode.gen_amino_acid_vocab T alphabet in
  let letters := Unicode.letters_of alphabet in
  (∀ code,
     vocab !! key = Some code ↔
     ∃ (i : nat) a,
       letters !! i = Some a ∧ key ∈ Unicode.case_forms T a ∧
       code = Z.of_nat i + 1 ∧
       ∀ (j : nat) b, (i < j)%nat → letters !! j = Some b →
                      key ∉ Unicode.case_forms T b) ∧
  (∀ (i j : nat) a b,
     (i < j)%nat → letters !! i = Some a → letters !! j = Some b →
     key ∈ Unicode.case_forms T a → key ∈ Unicode.case_forms T b →
     vocab !! key ≠ Some (Z.of_nat i + 1) ∧
     ∃ k : nat, (j ≤ k)%nat ∧ vocab !! key = Some (Z.of_nat k + 1)).
Proof.
  intros vocab letters. subst vocab. rewrite unicode_vocab_letters.
  fold letters. split; [intros code; apply unicode_vocab_lookup|].
  intros i j a b Hij Hi Hj Ha Hb.
  destruct (Unicode.gen_amino_acid_vocab T (Some letters) !! key)
    as [code|] eqn:E.
  - apply unicode_vocab_lookup in E as (k & c & Hk & Hc & -> & Hlast).
    assert (j ≤ k)%nat as Hjk.
    { destruct (decide (j ≤ k)%nat); [done|].
      exfalso. apply (Hlast j b); [lia|done..]. }
    split; [intros [=]; lia|]. by exists k.
  - exfalso. pose proof (proj1 (unicode_vocab_lookup_None T letters key) E)
      as Hnone.
    apply (Hnone a); [by eapply list_elem_of_lookup_2|done].
Qed.

(** C7, as the specification states it, fails: the alphabet ["Aa"] repeats a
    letter after case folding, and [gen_amino_acid_vocab] returns a mapping
    for it, in which the code 1 of the first letter is gone. *)
Lemma repeated_letter_is_not_refused :
  let T := Unicode.sample_tables in
  let alphabet := Unicode.of_string "Aa" in
  ¬ NoDup (Unicode.casefold T <$> alphabet) ∧
  Unicode.gen_amino_acid_vocab T (Some alphabet)
  = {[ [65%N] := 2; [97%N] := 2 ]}.
Proof.
  split; [|reflexivity].
  intros H. apply NoDup_cons in H as [H _]. apply H. vm_compute. constructor.
Qed.

(** Beyond ASCII a repeated letter need not lose all its keys: in the
    alphabet of [s] and the long s (U+017F), which is [s] after case
    folding, the long s takes the key [S], and the key [s] keeps the code 1
    of the first letter. *)
Lemma long_s_takes_one_key :
  let T := Unicode.sample_tables in
  let alphabet := [115%N; 383%N] in
  ¬ NoDup (Unicode.casefold T <$> alphabet) ∧
  Unicode.gen_amino_acid_vocab T (Some alphabet)
  = {[ [83%N] := 2; [115%N] := 1; [383%N] := 2 ]}.
Proof.
  split; [|reflexivity].
  intros H. apply NoDup_cons in H as [H _]. apply H. vm_compute. constructor.
Qed.

(** C8, as the code has it: when no two letters of the alphabet share an
    upper- or lower-case form, the two forms of the letter at position [i]
    both have the code [i + 1]; every code of the vocabulary lies in
    [[1, |alphabet|]], so 0 is never assigned; distinct letters have
    distinct codes and every code of [[1, |alphabet|]] is the code of a
    letter; a symbol is encoded as 0 by the lookup of line 301 exactly if it
    is no form of a letter of the alphabet. *)
Theorem vocabulary_bijection
    (T : Unicode.case_tables) (alphabet : option (list Unicode.code_point)) :
  let letters := Unicode.letters_of alphabet in
  let vocab := Unicode.gen_amino_acid_vocab T alphabet in
  let n := Z.of_nat (length letters) in
  Unicode.distinct_case_forms T letters →
  (∀ (i : nat) a, letters !! i = Some a →
     vocab !! Unicode.upper T a = Some (Z.of_nat i + 1) ∧
     vocab !! Unicode.lower T a = Some (Z.of_nat i + 1)) ∧
  (∀ key code, vocab !! key = Some code → 1 ≤ code ≤ n) ∧
  (∀ a b, a ∈ letters → b ∈ letters →
     vocab !! Unicode.upper T a = vocab !! Unicode.upper T b → a = b) ∧
  (∀ code, 1 ≤ code ≤ n →
     ∃ a, a ∈ letters ∧ vocab !! Unicode.upper T a = Some code ∧
          vocab !! Unicode.lower T a = Some code) ∧
  (∀ c, Unicode.encode_char vocab c = 0 ↔
        ∀ a, a ∈ letters → [c] ∉ Unicode.case_forms T a) ∧
  (∀ c (seq : list Unicode.code_point) (i : nat),
     (∀ a, a ∈ letters → [c] ∉ Unicode.case_forms T a) →
     seq !! i = Some c →
     Unicode.encode_residues vocab seq !! i = Some 0).
Proof.
  intros letters vocab n Hd. subst vocab. rewrite unicode_vocab_letters.
  fold letters.
  assert (Hown : ∀ (i : nat) a, letters !! i = Some a →
            Unicode.gen_amino_acid_vocab T (Some letters)
              !! Unicode.upper T a = Some (Z.of_nat i + 1) ∧
            Unicode.gen_amino_acid_vocab T (Some letters)
              !! Unicode.lower T a = Some (Z.of_nat i + 1)).
  { intros i a Hi.
    split; apply (unicode_vocab_lookup_distinct T letters i a); try done;
      apply elem_of_case_forms; auto. }
  assert (Hzero : ∀ c,
            Unicode.encode_char
              (Unicode.gen_amino_acid_vocab T (Some letters)) c = 0 ↔
            ∀ a, a ∈ letters → [c] ∉ Unicode.case_forms T a).
  { intros c. rewrite <- unicode_vocab_lookup_None.
    unfold Unicode.encode_char.
    destruct (Unicode.gen_amino_acid_vocab T (Some letters) !! [c])
      as [code|] eqn:E; cbn; [|done].
    apply unicode_vocab_code_range in E. split; [lia|done]. }
  split_and!.
  - exact Hown.
  - intros key code Hc. by apply unicode_vocab_code_range in Hc.
  - intros a b [i Hi]%list_elem_of_lookup_1 [j Hj]%list_elem_of_lookup_1.
    destruct (Hown i a Hi) as [-> _]. destruct (Hown j b Hj) as [-> _].
    intros [=]. assert (i = j) as -> by lia. congruence.
  - intros code Hcode.
    destruct (lookup_lt_is_Some_2 letters (Z.to_nat (code - 1))) as [a Ha].
    { subst n. lia. }
    exists a. split; [by eapply list_elem_of_lookup_2|].
    destruct (Hown _ a Ha) as [-> ->]. split; f_equal; lia.
  - exact Hzero.
  - intros c seq i Hc Hi. unfold Unicode.encode_residues.
    rewrite list_lookup_fmap, Hi. cbn. f_equal. by apply Hzero.
Qed.

Lemma vocabulary_bijection_witness :
  let T := Unicode.sample_tables in
  let letters := Unicode.letters_of None in
  let vocab := Unicode.gen_amino_acid_vocab T None in
  let n := Z.of_nat (length letters) in
  (∀ (i : nat) a, letters !! i = Some a →
     vocab !! Unicode.upper T a = Some (Z.of_nat i + 1) ∧
     vocab !! Unicode.lower T a = Some (Z.of_nat i + 1)) ∧
  (∀ key code, vocab !! key = Some code → 1 ≤ code ≤ n) ∧
  (∀ a b, a ∈ letters → b ∈ letters →
     vocab !! Unicode.upper T a = vocab !! Unicode.upper T b → a = b) ∧
  (∀ code, 1 ≤ code ≤ n →
     ∃ a, a ∈ letters ∧ vocab !! Unicode.upper T a = Some code ∧
          vocab !! Unicode.lower T a = Some code) ∧
  (∀ c, Unicode.encode_char vocab c = 0 ↔
        ∀ a, a ∈ letters → [c] ∉ Unicode.case_forms T a) ∧
  (∀ c (seq : list Unicode.code_point) (i : nat),
     (∀ a, a ∈ letters → [c] ∉ Unicode.case_forms T a) →
     seq !! i = Some c →
     Unicode.encode_residues vocab seq !! i = Some 0).
Proof.
  apply (vocabulary_bijection Unicode.sample_tables None).
  apply (bool_decide_unpack _). vm_compute. exact I.
Defined.

(** C8, as the specification states it, fails: the alphabet of the dotless
    i (U+0131) and [i] has no repeated letter after case folding, and yet
    the upper-case form [I] of the first letter has the code 2 of the
    second, whose upper-case form it is as well, while its lower-case form
    has the code 1. *)
Lemma dotless_i_shares_a_key :
  let T := Unicode.sample_tables in
  let alphabet := [305%N; 105%N] in
  let vocab := Unicode.gen_amino_acid_vocab T (Some alphabet) in
  NoDup (Unicode.casefold T <$> alphabet) ∧
  vocab = {[ [73%N] := 2; [305%N] := 1; [105%N] := 2 ]} ∧
  vocab !! Unicode.upper T 305%N = Some 2 ∧
  vocab !! Unicode.lower T 305%N = Some 1.
Proof.
  split_and!; [|reflexivity..].
  apply (bool_decide_unpack _). vm_compute. exact I.
Qed.

(** *** ASCII text *)

(** The tables of the examples are, on the characters of 8 bits, the two
    functions of the ASCII reading. *)
Lemma sample_tables_ascii (a : ascii) :
  Unicode.upper Unicode.sample_tables (N_of_ascii a)
    = [N_of_ascii (upper a)] ∧
  Unicode.lower Unicode.sample_tables (N_of_ascii a)
    = [N_of_ascii (lower a)].
Proof. destruct a as [[] [] [] [] [] [] [] []]; split; reflexivity. Qed.

(** On an alphabet on which the case tables are those of the ASCII reading,
    the vocabulary is that of the ASCII reading: the definitions for ASCII
    text are [gen_amino_acid_vocab] on such text. *)
Lemma gen_amino_acid_vocab_ascii_text
    (T : Unicode.case_tables) (alphabet : option string) (c : ascii) :
  Forall (λ a, Unicode.upper T (N_of_ascii a) = [N_of_ascii (upper a)] ∧
               Unicode.lower T (N_of_ascii a) = [N_of_ascii (lower a)])
         (letters_of alphabet) →
  Unicode.gen_amino_acid_vocab T (Unicode.of_string <$> alphabet)
    !! [N_of_ascii c]
  = gen_amino_acid_vocab alphabet !! c.
Proof.
  rewrite unicode_vocab_letters, gen_amino_acid_vocab_letters.
  replace (Unicode.letters_of (Unicode.of_string <$> alphabet))
    with (N_of_ascii <$> letters_of alphabet) by by destruct alphabet.
  generalize (letters_of alphabet). clear alphabet. intros l.
  induction l as [|a l IH] using rev_ind; intros Hl.
  - unfold Unicode.gen_amino_acid_vocab, vocab_of. cbn.
    by rewrite !lookup_empty.
  - apply Forall_app in Hl as [Hl [[Hu Hlow] _]%Forall_cons].
    rewrite fmap_app. cbn [fmap list_fmap].
    rewrite unicode_vocab_snoc, vocab_of_snoc, length_fmap, Hu, Hlow.
    assert (∀ x y : ascii, [N_of_ascii x] = [N_of_ascii y] ↔ x = y) as Hinj.
    { intros x y. split; [|by intros ->]. intros [= E].
      by rewrite <- (ascii_N_embedding x), <- (ascii_N_embedding y), E. }
    destruct (decide (lower a = c)) as [->|Hne].
    { by rewrite !lookup_insert_eq. }
    rewrite (lookup_insert_ne _ (lower a)) by done.
    rewrite (lookup_insert_ne _ [N_of_ascii (lower a)]) by by rewrite Hinj.
    destruct (decide (upper a = c)) as [->|Hne'].
    { by rewrite !lookup_insert_eq. }
    rewrite (lookup_insert_ne _ (upper a)) by done.
    rewrite (lookup_insert_ne _ [N_of_ascii (upper a)]) by by rewrite Hinj.
    by apply IH.
Qed.

(** On ASCII text the letters that share a key are the letters that are
    equal after case folding: an alphabet without repeated letters after
    case folding has no two letters that share a key. *)
Lemma ascii_distinct_case_forms (letters : list ascii) :
  NoDup (casefold <$> letters) →
  Unicode.distinct_case_forms Unicode.sample_tables (N_of_ascii <$> letters).
Proof.
  induction letters as [|a letters IH]; [done|].
  rewrite fmap_cons, NoDup_cons. intros [Ha Hnd].
  cbn [fmap list_fmap Unicode.distinct_case_forms]. split; [|by apply IH].
  apply Forall_fmap, Forall_forall. intros b Hb Hshare. apply Ha.
  assert (casefold a = casefold b) as ->; [|by apply list_elem_of_fmap_2].
  assert (∀ x y : ascii, [N_of_ascii x] = [N_of_ascii y] → x = y) as Hinj.
  { intros x y [= E].
    by rewrite <- (ascii_N_embedding x), <- (ascii_N_embedding y), E. }
  unfold Unicode.shares_case_form, Unicode.case_forms in Hshare.
  destruct (sample_tables_ascii a) as [Hua Hla].
  destruct (sample_tables_ascii b) as [Hub Hlb].
  rewrite Hua, Hla, Hub, Hlb in Hshare.
  apply keys_meet.
  rewrite !Exists_cons, Exists_nil in Hshare.
  rewrite !elem_of_cons, !elem_of_nil in Hshare.
  destruct Hshare as [[H|[H|[]]]|[[H|[H|[]]]|[]]]; apply Hinj in H; auto.
Qed.

(** ** The sharded iterator *)

Import ProteinIterator.

Lemma add_skips_iadd_one c shared :
  iadd_one c shared = add_skips 1 (c, shared).
Proof. by destruct c. Qed.

Lemma add_skips_add d1 d2 c :
  add_skips d1 (add_skips d2 c) = add_skips (d2 + d1) c.
Proof.
  destruct c as [[n|] shared]; unfold add_skips; simpl; f_equal; try lia.
  f_equal. lia.
Qed.

Lemma add_skips_0 c : add_skips 0 c = c.
Proof.
  destruct c as [[n|] shared]; unfold add_skips; simpl; f_equal; try lia.
  f_equal. lia.
Qed.

Section Seek.

Context (skip : SeqRecord → bool).

Lemma seek_drop (k s : nat) (p : Z) (l : list SeqRecord) :
  seek skip k s p l = seek skip 0 s (p + Z.of_nat k) (drop k l).
Proof.
  revert p l. induction k as [|k IH]; intros p l.
  - rewrite drop_0. replace (p + Z.of_nat 0) with p by lia. done.
  - destruct l as [|x l].
    + simpl. do 2 f_equal. lia.
    + simpl seek at 1. rewrite IH. simpl drop. f_equal. lia.
Qed.

(** The records a shard keeps are found by one search after the other. *)
Lemma shard_seek (k s : nat) (p : Z) (l : list SeqRecord) :
  shard skip k s p l =
  match seek skip k s p l with
  | (_, p', Some (y, rest)) => (p', y) :: shard skip s s (p' + 1) rest
  | (_, _, None) => []
  end.
Proof.
  revert k p. induction l as [|x l IH]; intros k p; [done|].
  destruct k as [|k]; simpl.
  - destruct (skip x); simpl; [|done].
    rewrite IH. by destruct (seek skip s s (p + 1) l) as [[d p'] [[y rest]|]].
  - apply IH.
Qed.

Lemma shard_skips_seek (k s : nat) (p : Z) (l : list SeqRecord) :
  shard_skips skip k s l =
  match seek skip k s p l with
  | (d, _, Some (_, rest)) => d + shard_skips skip s s rest
  | (d, _, None) => d
  end.
Proof.
  revert k p. induction l as [|x l IH]; intros k p; [done|].
  destruct k as [|k]; simpl.
  - destruct (skip x); simpl; [|done].
    rewrite (IH s (p + 1)).
    destruct (seek skip s s (p + 1) l) as [[d p'] [[y rest]|]]; lia.
  - apply IH.
Qed.

(** A search ends on a record that is kept, beyond the position it started
    from, and with fewer records left. *)
Lemma seek_Some (k s : nat) (p : Z) (l : list SeqRecord) d p' y rest :
  seek skip k s p l = (d, p', Some (y, rest)) →
  skip y = false ∧ p + Z.of_nat k ≤ p' ∧ 0 ≤ d ∧
  (length rest < length l)%nat.
Proof.
  revert k p d. induction l as [|x l IH]; intros k p d; [done|].
  destruct k as [|k]; simpl.
  - destruct (skip x) eqn:Hx.
    + destruct (seek skip s s (p + 1) l) as [[d1 p1] o1] eqn:E.
      intros [= <- <- ->]. apply IH in E as (? & ? & ? & ?).
      split_and!; [done|lia..].
    + intros [= <- <- <- <-]. split_and!; [done|lia..].
  - intros E. apply IH in E as (? & ? & ? & ?). split_and!; [done|lia..].
Qed.

End Seek.

(** The [while] loop of [__next__] is one search, started at the record just
    read. *)
Lemma skip_loop_seek (fuel : nat) (x : SeqRecord) (self : t) (shared : Z)
    (s : nat) :
  step self = Z.of_nat s →
  (length (unread (iterator self)) < fuel)%nat →
  skip_loop fuel x (self, shared) =
  let '(d, p', o) :=
    seek (skipped_by self) 0 s (pos self) (x :: unread (iterator self)) in
  let c := add_skips d (n_skipped self, shared) in
  match o with
  | Some (y, rest) =>
      ((progressed self rest (n_close (iterator self)) p' c.1, c.2),
       Return (y, rec_id y, label_from_id self !! rec_id y))
  | None =>
      ((progressed self [] (n_close (iterator self)) p' c.1, c.2),
       Raise StopIteration)
  end.
Proof.
  revert x self shared. induction fuel as [|fuel IH]; intros x self shared Hs Hf.
  { lia. }
  destruct self as [[l nc] hl lf v c st p stp]. cbn in Hs, Hf. subst stp.
  cbn [seek pos iterator unread n_close n_skipped label_from_id].
  set (self := {| iterator := _ |}).
  assert (Hneg : (Z.of_nat s <? 0) = false) by (apply Z.ltb_ge; lia).
  destruct (skipped_by self x) eqn:Hx.
  - rewrite seek_drop.
    assert (Hx' : to_skip self (rec_id x) (lf !! rec_id x) = true) by exact Hx.
    simpl skip_loop. unfold mbind, M_bind, get_self. cbn [fst].
    cbn [label_from_id self]. rewrite Hx'.
    unfold incr_n_skipped, _consume, add_pos, next_iterator, islice_advance.
    rewrite add_skips_iadd_one.
    cbn -[seek skipped_by add_skips skip_loop Z.add]. rewrite Hneg, Nat2Z.id.
    destruct (add_skips 1 (c, shared)) as [c1 shared1] eqn:Hc1.
    cbn -[seek skipped_by add_skips skip_loop Z.add].
    replace (p + 1 + Z.of_nat s) with (p + (Z.of_nat s + 1)) by lia.
    destruct (drop s l) as [|x' l'] eqn:Hd.
    + cbn -[add_skips Z.add]. rewrite Z.add_0_r.
      replace (1 + 0) with 1 by lia. by rewrite Hc1.
    + assert (length l' < fuel)%nat as Hl'.
      { pose proof (length_drop l s) as E. rewrite Hd in E. simpl in E. lia. }
      rewrite IH by done.
      cbn [pos iterator unread n_close n_skipped label_from_id set_iterator
           set_pos set_n_skipped self].
      match goal with
      | |- context [seek ?f 0 s _ (x' :: l')] =>
          change f with (skipped_by self)
      end.
      destruct (seek (skipped_by self) 0 s _ (x' :: l')) as [[d p'] o].
      rewrite <- Hc1, add_skips_add.
      by destruct o as [[y rest]|].
  - assert (Hx' : to_skip self (rec_id x) (lf !! rec_id x) = false) by exact Hx.
    simpl skip_loop. unfold mbind, M_bind, get_self. cbn [fst].
    cbn [label_from_id self]. rewrite Hx'.
    rewrite add_skips_0. destruct c; reflexivity.
Qed.

(** One call of [__next__] is one search: from the start of the file (after
    [start] records) on the first call, and after [step] records on a later
    call. *)
Lemma next_seek (self : t) (shared : Z) (k s : nat) :
  pending self = Z.of_nat k →
  step self = Z.of_nat s →
  __next__ (self, shared) =
  next_of_seek (self, shared)
    (seek (skipped_by self) k s (next_position self) (unread (iterator self))).
Proof.
  intros Hk Hs. rewrite seek_drop.
  destruct self as [[l nc] hl lf v c st p stp]. cbn in Hs. subst stp.
  unfold pending, next_position in *. cbn [pos start step] in *.
  set (self := {| iterator := _ |}).
  assert (Hneg : (Z.of_nat k <? 0) = false) by (apply Z.ltb_ge; lia).
  unfold __next__, mbind, M_bind, get_self. cbn [fst pos start step self].
  assert (∃ q, q = (if p =? UNINITIALIZED_POS then 1 else p + 1) + Z.of_nat k
    ∧ (let (σ', r) :=
         (if p =? UNINITIALIZED_POS
          then (_consume st;; assign_pos (st + 1))
          else (_consume (Z.of_nat s);; add_pos (Z.of_nat s + 1)))
         (self, shared) in (σ', r))
      = ((progressed self (drop k l) nc q c, shared), Return ()))
    as (q & Hq & Hpos).
  { eexists. split; [reflexivity|].
    destruct (p =? UNINITIALIZED_POS) eqn:Hp.
    - subst st. unfold mbind, M_bind, _consume, assign_pos, islice_advance.
      cbn -[Z.add]. rewrite Hneg, Nat2Z.id. cbn -[Z.add].
      unfold progressed. cbn -[Z.add]. by rewrite (Z.add_comm 1).
    - apply Nat2Z.inj in Hk. subst k.
      unfold mbind, M_bind, _consume, add_pos, islice_advance.
      cbn -[Z.add]. rewrite Hneg, Nat2Z.id. cbn -[Z.add].
      unfold progressed. cbn -[Z.add].
      by rewrite <- Z.add_assoc, (Z.add_comm 1). }
  rewrite <- Hq. clear Hq.
  unfold mbind, M_bind in Hpos.
  match goal with
  | |- (let (σ', r) := ?m in _) = _ =>
      match type of Hpos with
      | (let (σ', r) := ?m' in _) = _ => change m with m'
      end
  end.
  destruct (_ (self, shared)) as [σ' r]. injection Hpos as -> ->.
  unfold try_except_StopIteration, next_iterator, close_iterator, raise.
  cbn [progressed set_n_skipped set_pos set_iterator iterator unread n_close
       has_labels label_from_id vocab n_skipped start pos step self].
  destruct (drop k l) as [|x l'] eqn:Hd.
  - cbn -[Z.add add_skips]. rewrite Z.add_0_r, add_skips_0. reflexivity.
  - assert (length l' < length l)%nat as Hl'.
    { pose proof (length_drop l k) as E. rewrite Hd in E. simpl in E. lia. }
    rewrite (skip_loop_seek _ _ _ _ s) by done.
    subst self. unfold next_of_seek, skipped_by, to_skip, progressed.
    cbn -[seek add_skips Z.add].
    destruct (seek _ 0 s q (x :: l')) as [[d p'] o].
    destruct o as [[y rest]|]; destruct c; reflexivity.
Qed.

Lemma ready_progressed (self : t) rest closes p c :
  ready self → 0 < p → ready (progressed self rest closes p c).
Proof. unfold ready. cbn. intros (? & ? & _) ?. auto. Qed.

Lemma pending_progressed (self : t) rest closes p c :
  0 < p → pending (progressed self rest closes p c) = step self.
Proof.
  intros Hp. unfold pending. cbn.
  destruct (p =? UNINITIALIZED_POS) eqn:E; [|done].
  apply Z.eqb_eq in E. unfold UNINITIALIZED_POS in E. lia.
Qed.

Lemma next_position_progressed (self : t) rest closes p c :
  0 < p → next_position (progressed self rest closes p c) = p + 1.
Proof.
  intros Hp. unfold next_position. cbn.
  destruct (p =? UNINITIALIZED_POS) eqn:E; [|done].
  apply Z.eqb_eq in E. unfold UNINITIALIZED_POS in E. lia.
Qed.

Lemma ready_pending (self : t) : ready self → 0 ≤ pending self.
Proof. unfold ready, pending. intros (? & ? & _). by destruct (_ =? _). Qed.

Lemma ready_next_position (self : t) : ready self → 0 < next_position self.
Proof.
  unfold ready, next_position. intros (_ & _ & [E|E]).
  - by rewrite E.
  - destruct (_ =? _); lia.
Qed.

(** [__next__] in a ready state, by the search it makes. *)
Lemma next_ready (self : t) (shared : Z) :
  ready self →
  __next__ (self, shared) =
  next_of_seek (self, shared)
    (seek (skipped_by self) (Z.to_nat (pending self)) (Z.to_nat (step self))
          (next_position self) (unread (iterator self))).
Proof.
  intros Hr. apply next_seek.
  - pose proof (ready_pending _ Hr). lia.
  - destruct Hr as (_ & ? & _). lia.
Qed.

(** Running an iterator to its end yields its shard, counts the skipped
    records of the shard, closes the parser once, and ends on
    [StopIteration]. *)
Lemma collect_shard (fuel : nat) (self : t) (shared : Z) :
  ready self →
  (length (unread (iterator self)) ≤ fuel)%nat →
  ∃ pf,
    collect fuel (self, shared) =
    ((λ pr, sequence_of self pr.1 pr.2) <$> remaining_shard self,
     (let c := add_skips (remaining_skips self) (n_skipped self, shared) in
      (progressed self [] (S (n_close (iterator self))) pf c.1, c.2)),
     Return ()).
Proof.
  revert self shared. induction fuel as [|fuel IH]; intros self shared Hr Hf.
  - destruct (unread (iterator self)) as [|x l] eqn:Hl; [|simpl in Hf; lia].
    simpl. rewrite next_ready by done. unfold remaining_shard, remaining_skips.
    rewrite Hl. simpl. rewrite add_skips_0. eauto.
  - unfold remaining_shard, remaining_skips.
    set (k := Z.to_nat (pending self)). set (s := Z.to_nat (step self)).
    rewrite (shard_seek _ k s (next_position self)).
    rewrite (shard_skips_seek _ k s (next_position self)).
    simpl. rewrite next_ready by done. fold k s.
    destruct (seek _ k s _ _) as [[d p'] [[y rest]|]] eqn:E.
    + apply seek_Some in E as (Hy & Hp' & Hd & Hlen).
      pose proof (ready_next_position _ Hr) as Hnp.
      assert (0 < p') as Hpos by lia.
      unfold next_of_seek.
      set (c := add_skips d (n_skipped self, shared)).
      set (self' := progressed self rest (n_close (iterator self)) p' c.1).
      destruct (IH self' c.2) as [pf Hpf].
      { by apply ready_progressed. }
      { subst self'. cbn. lia. }
      rewrite Hpf. exists pf.
      unfold remaining_shard, remaining_skips. subst self'.
      rewrite pending_progressed, next_position_progressed by done.
      cbn [step progressed set_n_skipped set_pos set_iterator iterator unread
           n_close n_skipped].
      fold s. subst c.
      rewrite <- surjective_pairing, add_skips_add.
      destruct self as [[l nc] hl lf v c0 st p stp]. reflexivity.
    + unfold next_of_seek. eauto.
Qed.

(** *** Which records a shard holds *)

Section ShardPositions.

Context (skip : SeqRecord → bool).

Lemma elem_of_shard (k s : nat) (p : Z) (l : list SeqRecord) (i : Z)
    (r : SeqRecord) :
  (i, r) ∈ shard skip k s p l ↔
  ∃ j m : nat, l !! j = Some r ∧ skip r = false ∧ i = p + Z.of_nat j ∧
               j = (k + m * S s)%nat.
Proof.
  revert k p. induction l as [|x l IH]; intros k p.
  - simpl. split; [by intros ?%elem_of_nil|]. by intros (j & m & ? & _).
  - destruct k as [|k]; simpl.
    + rewrite elem_of_app, IH. split.
      * intros [Hx | (j & m & Hj & Hr & -> & ->)].
        -- destruct (skip x) eqn:Hx'; [by apply elem_of_nil in Hx|].
           apply list_elem_of_singleton in Hx as [= -> ->].
           exists 0%nat, 0%nat. split_and!; [done..|lia|done].
        -- exists (S (s + m * S s)), (S m). split_and!; [done..|lia|simpl; lia].
      * intros (j & m & Hj & Hr & -> & ->).
        destruct m as [|m]; simpl in Hj.
        -- left. injection Hj as ->. rewrite Hr.
           apply list_elem_of_singleton. f_equal. lia.
        -- right. exists (s + m * S s)%nat, m. split_and!; [done..|lia|done].
    + rewrite IH. split.
      * intros (j & m & Hj & Hr & -> & ->).
        exists (S (k + m * S s)), m. split_and!; [done..|lia|done].
      * intros (j & m & Hj & Hr & -> & ->). simpl in Hj.
        exists (k + m * S s)%nat, m. split_and!; [done..|lia|done].
Qed.

Lemma shard_lower_bound (k s : nat) (p : Z) (l : list SeqRecord) :
  Forall (λ i, p ≤ i) (shard skip k s p l).*1.
Proof.
  apply Forall_forall. intros i [[i' r] [-> Hr]]%list_elem_of_fmap.
  apply elem_of_shard in Hr as (j & m & _ & _ & -> & _). simpl. lia.
Qed.

(** The positions of a shard increase strictly. *)
Lemma shard_sorted (k s : nat) (p : Z) (l : list SeqRecord) :
  StronglySorted Z.lt (shard skip k s p l).*1.
Proof.
  revert k p. induction l as [|x l IH]; intros k p; [constructor|].
  destruct k as [|k]; simpl; [|apply IH].
  destruct (skip x); simpl; [apply IH|].
  constructor; [apply IH|].
  eapply Forall_impl; [apply shard_lower_bound|]. simpl. intros; lia.
Qed.

(** The shards of [S s] workers share the skipped records among them. *)
Lemma shard_skips_sum (s : nat) (l : list SeqRecord) :
  sum_list ((λ k, shard_skips skip k s l) <$> seq 0 (S s)) =
  Z.of_nat (length (filter (λ r, skip r = true) l)).
Proof.
  induction l as [|x l IH].
  - simpl. clear. generalize 1%nat. induction s as [|s IH]; intros n; [done|].
    simpl. apply IH.
  - rewrite seq_S in IH. rewrite fmap_app in IH. simpl in IH.
    cbn [seq fmap list_fmap sum_list foldr shard_skips].
    rewrite <- fmap_S_seq, <- list_fmap_compose.
    change (foldr Z.add 0 ?l) with (sum_list l).
    assert (∀ l1 a, sum_list (l1 ++ [a]) = sum_list l1 + a) as Hsnoc.
    { clear. induction l1 as [|b l1 IH]; intros a; simpl; [lia|].
      rewrite IH. lia. }
    rewrite Hsnoc in IH.
    rewrite filter_cons.
    erewrite (list_fmap_ext _ (λ k, shard_skips skip k s l) (seq 0 s)).
    2:{ intros i k _. reflexivity. }
    destruct (decide (skip x = true)) as [E|E].
    + rewrite E. simpl length. lia.
    + destruct (skip x); [done|]. lia.
Qed.

End ShardPositions.

(** *** The validity filter *)

Lemma label_dict_lookup_None (rows : list (string * Z))
    (d : gmap string Z) (key : string) :
  foldl (λ d row, <[row.1 := row.2]> d) d rows !! key = None ↔
  d !! key = None ∧ key ∉ rows.*1.
Proof.
  revert d. induction rows as [|[k v] rows IH]; intros d; simpl.
  - split; [|by intros []]. intros ?. split; [done|]. apply not_elem_of_nil.
  - rewrite IH, not_elem_of_cons. destruct (decide (k = key)) as [->|Hne].
    + rewrite lookup_insert_eq. split; [by intros []|]. by intros (_ & ? & _).
    + rewrite lookup_insert_ne by done.
      split; [intros [? ?]|intros (? & ? & ?)]; split_and?; auto.
Qed.

(** The [while] of line 293 skips the records that the validity filter of
    the specification rejects. *)
Lemma skipped_by_init file labels vocab c W w (r : SeqRecord) :
  skipped_by (__init__ file labels vocab c W w) r = invalid_record labels r.
Proof.
  unfold skipped_by, to_skip, invalid_record. cbn. f_equal.
  destruct labels as [rows|]; [|done]. cbn.
  apply bool_decide_ext. rewrite label_dict_lookup_None, lookup_empty.
  split; [by intros [_ ?]|auto].
Qed.

Lemma shard_ext (f g : SeqRecord → bool) k s p l :
  (∀ r, f r = g r) → shard f k s p l = shard g k s p l.
Proof.
  intros E. revert k p. induction l as [|x l IH]; intros k p; [done|].
  destruct k; simpl; [|done]. by rewrite E, IH.
Qed.

Lemma shard_skips_ext (f g : SeqRecord → bool) k s l :
  (∀ r, f r = g r) → shard_skips f k s l = shard_skips g k s l.
Proof.
  intros E. revert k. induction l as [|x l IH]; intros k; [done|].
  destruct k; simpl; [|done]. by rewrite E, IH.
Qed.

(** With one worker the shard is the whole file: its positions are the
    1-based positions of the records that pass the filter. *)
Lemma shard_all (skip : SeqRecord → bool) (n : nat) (l : list SeqRecord) :
  (shard skip 0 0 (Z.of_nat n + 1) l).*1 =
  omap (λ '(i, r), if skip r then None else Some (i + 1))
       (imap (λ i x, (Z.of_nat (n + i), x)) l).
Proof.
  revert n. induction l as [|x l IH]; intros n; [done|].
  cbn [shard imap omap list_omap]. rewrite fmap_app.
  replace (Z.of_nat n + 1 + 1) with (Z.of_nat (S n) + 1) by lia.
  rewrite IH, Nat.add_0_r.
  erewrite (imap_ext _ (λ i x, (Z.of_nat (n + S i), x))).
  2:{ intros i y _. simpl. do 2 f_equal. lia. }
  by destruct (skip x).
Qed.

Lemma valid_positions_shard labels file :
  valid_positions labels file = (shard (invalid_record labels) 0 0 1 file).*1.
Proof.
  unfold valid_positions, enumerate. by rewrite (shard_all _ 0).
Qed.

(** *** A worker run to its end *)

Lemma ready_init file labels vocab c W w :
  1 ≤ W → 0 ≤ w → ready (__init__ file labels vocab c W w).
Proof. unfold ready. cbn. intros. split_and!; [done|lia|by left]. Qed.

(** The run of worker [w] of [W]: the records of its shard, in order; one
    skip counted for every rejected record of the shard; [StopIteration] at
    the end, never another exception. *)
Lemma to_list_init file labels vocab c W w shared :
  1 ≤ W → 0 ≤ w →
  let skip := invalid_record labels in
  let k := Z.to_nat w in
  let s := Z.to_nat (W - 1) in
  ∃ σ,
    to_list (__init__ file labels vocab c W w, shared) =
      ((λ pr, sequence_of (__init__ file labels vocab c W w) pr.1 pr.2)
         <$> shard skip k s 1 file, σ, Return ()) ∧
    (n_skipped σ.1, σ.2) = add_skips (shard_skips skip k s file) (c, shared) ∧
    unread (iterator σ.1) = [] ∧ n_close (iterator σ.1) = 1%nat.
Proof.
  intros HW Hw skip k s.
  destruct (collect_shard (length file) (__init__ file labels vocab c W w)
              shared) as [pf Hpf].
  { by apply ready_init. }
  { done. }
  unfold to_list. cbn [fst].
  change (unread (iterator (__init__ file labels vocab c W w))) with file.
  assert (remaining_shard (__init__ file labels vocab c W w)
          = shard skip k s 1 file) as E1.
  { unfold remaining_shard. cbn.
    apply shard_ext. intros r. apply (skipped_by_init file labels vocab c W w). }
  assert (remaining_skips (__init__ file labels vocab c W w)
          = shard_skips skip k s file) as E2.
  { unfold remaining_skips. cbn.
    apply shard_skips_ext. intros r.
    apply (skipped_by_init file labels vocab c W w). }
  rewrite Hpf, E1, E2. eexists. split; [reflexivity|].
  cbn -[add_skips]. by rewrite <- surjective_pairing.
Qed.

Lemma index_values_init file labels vocab c W w shared :
  1 ≤ W → 0 ≤ w →
  index_values (__init__ file labels vocab c W w, shared) =
  (shard (invalid_record labels) (Z.to_nat w) (Z.to_nat (W - 1)) 1 file).*1.
Proof.
  intros HW Hw.
  destruct (to_list_init file labels vocab c W w shared HW Hw)
    as (σ & E & _).
  unfold index_values. rewrite E. cbn [fst].
  rewrite <- list_fmap_compose. by apply list_fmap_ext.
Qed.

Lemma elem_of_index_values file labels vocab c W w shared (i : Z) :
  1 ≤ W → 0 ≤ w →
  i ∈ index_values (__init__ file labels vocab c W w, shared) ↔
  ∃ (j m : nat) r, file !! j = Some r ∧ invalid_record labels r = false ∧
                   i = Z.of_nat j + 1 ∧
                   j = (Z.to_nat w + m * Z.to_nat W)%nat.
Proof.
  intros HW Hw. rewrite index_values_init by done.
  replace (Z.to_nat W) with (S (Z.to_nat (W - 1))) by lia.
  rewrite list_elem_of_fmap. split.
  - intros ([i' r] & -> & (j & m & Hj & Hr & -> & ->)%elem_of_shard).
    exists (Z.to_nat w + m * S (Z.to_nat (W - 1)))%nat, m, r.
    split_and!; [done..|simpl; lia|done].
  - intros (j & m & r & Hj & Hr & -> & ->).
    exists (Z.of_nat (Z.to_nat w + m * S (Z.to_nat (W - 1))) + 1, r).
    split; [done|]. apply elem_of_shard.
    eexists _, m. split_and!; [done..|lia|done].
Qed.

(** C1: for [W >= 1] workers, each worker [w] with [0 <= w < W] runs to the
    end of its copy of the file and ends on [StopIteration]; the [index]
    values it yields increase strictly; two different workers yield no
    common value; a value is yielded by some worker exactly if the single
    iterator ([W = 1]) yields it; and the single iterator yields the 1-based
    positions in the file of the records that pass the validity filter. *)
Theorem sharding_partitions_valid_positions
    (file : list SeqRecord) (labels : option (list (string * Z)))
    (vocab : gmap ascii Z) (W : Z) :
  1 ≤ W →
  let run w := ProteinIterator.to_list (worker_iterator file labels vocab W w) in
  let indices_of w := index_values (worker_iterator file labels vocab W w) in
  let single := index_values (worker_iterator file labels vocab 1 0) in
  (∀ w, 0 ≤ w < W →
        (run w).2 = Return () ∧ StronglySorted Z.lt (indices_of w)) ∧
  (∀ w1 w2 i, 0 ≤ w1 < W → 0 ≤ w2 < W → w1 ≠ w2 →
              i ∈ indices_of w1 → i ∉ indices_of w2) ∧
  (∀ i, (∃ w, 0 ≤ w < W ∧ i ∈ indices_of w) ↔ i ∈ single) ∧
  single = valid_positions labels file.
Proof.
  intros HW run indices_of single. subst run indices_of single.
  unfold worker_iterator. split_and!.
  - intros w [Hw _]. split.
    + destruct (to_list_init file labels vocab (int_counter 0) W w 0 HW Hw)
        as (σ & -> & _). done.
    + rewrite index_values_init by done. apply shard_sorted.
  - intros w1 w2 i [Hw1 Hw1'] [Hw2 Hw2'] Hne.
    rewrite !elem_of_index_values by done.
    intros (j1 & m1 & r1 & _ & _ & -> & E1) (j2 & m2 & r2 & _ & _ & Ei & E2).
    assert (j1 = j2) as <- by lia. apply Hne.
    assert (Z.to_nat w1 = Z.to_nat w2); [|lia].
    assert (∀ w m, 0 ≤ w < W →
              ((Z.to_nat w + m * Z.to_nat W) `mod` Z.to_nat W)%nat = Z.to_nat w)
      as Hmod.
    { intros w m Hw. rewrite Nat.Div0.mod_add. apply Nat.mod_small. lia. }
    rewrite <- (Hmod w1 m1), <- (Hmod w2 m2) by done. congruence.
  - intros i. rewrite elem_of_index_values by lia. split.
    + intros (w & [Hw Hw'] & Hi). apply elem_of_index_values in Hi; [|done..].
      destruct Hi as (j & m & r & Hj & Hr & -> & ->).
      exists (Z.to_nat w + m * Z.to_nat W)%nat,
             (Z.to_nat w + m * Z.to_nat W)%nat, r.
      split_and!; [done..|]. simpl. lia.
    + intros (j & m & r & Hj & Hr & -> & _).
      exists (Z.of_nat (j `mod` Z.to_nat W)).
      assert (j `mod` Z.to_nat W < Z.to_nat W)%nat as Hlt
        by (apply Nat.mod_upper_bound; lia).
      split; [lia|]. apply elem_of_index_values; [lia..|].
      exists j, (j `div` Z.to_nat W)%nat, r. split_and!; [done..|].
      rewrite Nat2Z.id, Nat.add_comm, (Nat.mul_comm _ (Z.to_nat W)).
      apply Nat.div_mod_eq.
  - rewrite index_values_init by lia. by rewrite valid_positions_shard.
Qed.

Lemma sharding_partitions_valid_positions_witness :
  let file := [ {| rec_id := "a"; rec_seq := "AC" |};
                {| rec_id := ""; rec_seq := "CC" |};
                {| rec_id := "c"; rec_seq := "D" |} ] in
  let run w := ProteinIterator.to_list (worker_iterator file None ∅ 2 w) in
  let indices_of w := index_values (worker_iterator file None ∅ 2 w) in
  let single := index_values (worker_iterator file None ∅ 1 0) in
  (∀ w, 0 ≤ w < 2 →
        (run w).2 = Return () ∧ StronglySorted Z.lt (indices_of w)) ∧
  (∀ w1 w2 i, 0 ≤ w1 < 2 → 0 ≤ w2 < 2 → w1 ≠ w2 →
              i ∈ indices_of w1 → i ∉ indices_of w2) ∧
  (∀ i, (∃ w, 0 ≤ w < 2 ∧ i ∈ indices_of w) ↔ i ∈ single) ∧
  single = valid_positions None file.
Proof.
  apply (sharding_partitions_valid_positions _ None ∅ 2). lia.
Defined.

(** *** The skip counters *)

(** The records a shard skips are the shard of the opposite filter. *)
Lemma shard_skips_length (skip : SeqRecord → bool) k s p l :
  shard_skips skip k s l =
  Z.of_nat (length (shard (λ r, negb (skip r)) k s p l)).
Proof.
  revert k p. induction l as [|x l IH]; intros k p; [done|].
  destruct k as [|k]; simpl; [|apply IH].
  rewrite length_app, (IH s (p + 1)). destruct (skip x); simpl; lia.
Qed.

Lemma sum_list_workers (f : nat → Z) (W : Z) :
  sum_list ((λ w, f (Z.to_nat w)) <$> workers W) =
  sum_list (f <$> seq 0 (Z.to_nat W)).
Proof.
  unfold workers, seqZ. rewrite <- list_fmap_compose. f_equal.
  apply list_fmap_ext. intros i n _. simpl. f_equal. lia.
Qed.

Lemma final_counter file labels vocab c W w shared :
  1 ≤ W → 0 ≤ w →
  let σ := (to_list (__init__ file labels vocab c W w, shared)).1.2 in
  (n_skipped σ.1, σ.2) =
  add_skips (shard_skips (invalid_record labels) (Z.to_nat w)
               (Z.to_nat (W - 1)) file) (c, shared).
Proof.
  intros HW Hw.
  destruct (to_list_init file labels vocab c W w shared HW Hw)
    as (σ & -> & E & _). done.
Qed.

Lemma run_workers_sum file labels vocab W (ws : list Z) (shared : Z) :
  1 ≤ W → Forall (λ w, 0 ≤ w) ws →
  foldl (λ sh w,
           (to_list (__init__ file labels vocab synchronized_counter W w,
                     sh)).1.2.2) shared ws =
  shared + sum_list ((λ w, shard_skips (invalid_record labels) (Z.to_nat w)
                             (Z.to_nat (W - 1)) file) <$> ws).
Proof.
  intros HW Hws. revert shared.
  induction Hws as [|w ws Hw _ IH]; intros shared;
    cbn [foldl fmap list_fmap sum_list foldr]; [lia|].
  rewrite IH.
  pose proof (final_counter file labels vocab synchronized_counter W w shared
                HW Hw) as E.
  cbv zeta in E. unfold add_skips in E. cbn [fst snd] in E.
  injection E as _ ->. change (foldr Z.add 0 ?l) with (sum_list l). lia.
Qed.

(** The shards of the [W] workers share the rejected records of the file. *)
Lemma shard_skips_workers file labels W :
  1 ≤ W →
  sum_list ((λ w, shard_skips (invalid_record labels) (Z.to_nat w)
                    (Z.to_nat (W - 1)) file) <$> workers W)
  = count_invalid labels file.
Proof.
  intros HW.
  rewrite (sum_list_workers
             (λ k, shard_skips (invalid_record labels) k
                     (Z.to_nat (W - 1)) file)).
  replace (Z.to_nat W) with (S (Z.to_nat (W - 1))) by lia.
  apply shard_skips_sum.
Qed.

Lemma workers_nonneg W : Forall (λ w, 0 ≤ w) (workers W).
Proof. apply Forall_forall. intros w Hw%elem_of_seqZ. lia. Qed.

(** All workers on the shared counter add the rejected records of the file
    to it. *)
Lemma run_workers_total file labels vocab W shared :
  1 ≤ W →
  run_workers file labels vocab W shared = shared + count_invalid labels file.
Proof.
  intros HW. unfold run_workers.
  rewrite run_workers_sum by auto using workers_nonneg.
  by rewrite shard_skips_workers.
Qed.

(** C2: for [W >= 1] workers, each run to its end (every run ends on
    [StopIteration]), the final values of the workers' skip counters add up
    to the number of records of the file whose id is empty or whose label is
    required and absent.  Worker [w] counts the rejected records at the
    positions of its shard, each once: its counter is the length of a list,
    without repetition, of exactly these records.  When the workers share
    the counter of the dataset instead, that counter grows by the same
    number. *)
Theorem skip_counters_sum_to_invalid_records
    (file : list SeqRecord) (labels : option (list (string * Z)))
    (vocab : gmap ascii Z) (W : Z) :
  1 ≤ W →
  let run w := to_list (worker_iterator file labels vocab W w) in
  let final_count w :=
    counter_value (n_skipped (run w).1.2.1) (run w).1.2.2 in
  (∀ w, 0 ≤ w < W → (run w).2 = Return ()) ∧
  sum_list (final_count <$> workers W) = count_invalid labels file ∧
  (∀ w, 0 ≤ w < W →
     ∃ skipped : list (Z * SeqRecord),
       final_count w = Z.of_nat (length skipped) ∧
       StronglySorted Z.lt skipped.*1 ∧
       ∀ i r, (i, r) ∈ skipped ↔
              ∃ j m : nat, file !! j = Some r ∧
                           invalid_record labels r = true ∧
                           i = Z.of_nat j + 1 ∧
                           j = (Z.to_nat w + m * Z.to_nat W)%nat) ∧
  (∀ shared,
     run_workers file labels vocab W shared
     = shared + count_invalid labels file).
Proof.
  intros HW run final_count.
  assert (Hfinal : ∀ w, 0 ≤ w →
            final_count w = shard_skips (invalid_record labels) (Z.to_nat w)
                              (Z.to_nat (W - 1)) file).
  { intros w Hw. subst final_count run. unfold worker_iterator. cbn beta.
    pose proof (final_counter file labels vocab (int_counter 0) W w 0 HW Hw)
      as E.
    cbv zeta in E. unfold add_skips in E. cbn [fst snd] in E.
    injection E as E _. unfold counter_value. rewrite E. lia. }
  pose proof (shard_skips_workers file labels W HW) as Hsum.
  pose proof (workers_nonneg W) as Hws.
  split_and!.
  - intros w [Hw _]. subst run. unfold worker_iterator. cbn beta.
    destruct (to_list_init file labels vocab (int_counter 0) W w 0 HW Hw)
      as (σ & -> & _). done.
  - rewrite <- Hsum. f_equal. apply Forall_fmap_ext_1.
    eapply Forall_impl; [exact Hws|]. intros w Hw. by apply Hfinal.
  - intros w [Hw Hw'].
    exists (shard (λ r, negb (invalid_record labels r)) (Z.to_nat w)
              (Z.to_nat (W - 1)) 1 file).
    split_and!.
    + rewrite Hfinal by done. apply shard_skips_length.
    + apply shard_sorted.
    + intros i r. rewrite elem_of_shard.
      replace (Z.to_nat W) with (S (Z.to_nat (W - 1))) by lia.
      split; intros (j & m & Hj & Hr & -> & Ej); exists j, m;
        (split_and!; [done| |lia|done]).
      * by apply negb_false_iff in Hr.
      * by apply negb_false_iff.
  - intros shared. by apply run_workers_total.
Qed.

Lemma skip_counters_sum_to_invalid_records_witness :
  let file := [ {| rec_id := "a"; rec_seq := "AC" |};
                {| rec_id := ""; rec_seq := "CC" |};
                {| rec_id := "c"; rec_seq := "D" |} ] in
  let run w := to_list (worker_iterator file None ∅ 2 w) in
  let final_count w :=
    counter_value (n_skipped (run w).1.2.1) (run w).1.2.2 in
  (∀ w, 0 ≤ w < 2 → (run w).2 = Return ()) ∧
  sum_list (final_count <$> workers 2) = count_invalid None file ∧
  (∀ w, 0 ≤ w < 2 →
     ∃ skipped : list (Z * SeqRecord),
       final_count w = Z.of_nat (length skipped) ∧
       StronglySorted Z.lt skipped.*1 ∧
       ∀ i r, (i, r) ∈ skipped ↔
              ∃ j m : nat, file !! j = Some r ∧
                           invalid_record None r = true ∧
                           i = Z.of_nat j + 1 ∧
                           j = (Z.to_nat w + m * Z.to_nat 2)%nat) ∧
  (∀ shared,
     run_workers file None ∅ 2 shared = shared + count_invalid None file).
Proof.
  apply (skip_counters_sum_to_invalid_records _ None ∅ 2). lia.
Defined.

(** *** After the end of the file *)

(** A call of [__next__] on a parser without unread records closes the
    parser and raises [StopIteration]; nothing else changes but the
    position. *)
Lemma next_exhausted (self : t) (shared : Z) :
  0 ≤ start self → 0 ≤ step self →
  unread (iterator self) = [] →
  ∃ pf,
    __next__ (self, shared) =
    ((progressed self [] (S (n_close (iterator self))) pf (n_skipped self),
      shared), Raise StopIteration).
Proof.
  intros Hst Hs Hl.
  rewrite (next_seek self shared (Z.to_nat (pending self))
             (Z.to_nat (step self))).
  - rewrite Hl. simpl. rewrite add_skips_0. eauto.
  - unfold pending. destruct (_ =? _); lia.
  - lia.
Qed.

Lemma next_calls_exhausted (n : nat) (self : t) (shared : Z) :
  0 ≤ start self → 0 ≤ step self →
  unread (iterator self) = [] →
  ∃ pf,
    next_calls n (self, shared) =
    (replicate n (Raise StopIteration),
     (progressed self [] (n + n_close (iterator self)) pf (n_skipped self),
      shared)).
Proof.
  revert self. induction n as [|n IH]; intros self Hst Hs Hl.
  - exists (pos self). simpl. destruct self as [[l nc] ? ? ? ? ? ? ?].
    simpl in Hl. by subst l.
  - destruct (next_exhausted self shared Hst Hs Hl) as [pf E].
    simpl. rewrite E.
    destruct (IH (progressed self [] (S (n_close (iterator self))) pf
                    (n_skipped self))) as [pf' E']; [done..|].
    rewrite E'. exists pf'. cbn. do 3 f_equal.
    unfold progressed. cbn. do 3 f_equal. lia.
Qed.

(** C9, as the code has it: a worker's iterator run to the end of its file
    ends on [StopIteration], with [close] called once on the parser and no
    record left.  From then on it is terminal: each of [n] further calls of
    [__next__] raises [StopIteration] and yields no record; each of them
    calls [close] once more, so that the parser has been closed [1 + n]
    times. *)
Theorem exhausted_iterator_is_terminal
    (file : list SeqRecord) (labels : option (list (string * Z)))
    (vocab : gmap ascii Z) (c : skip_counter) (W w shared : Z) :
  1 ≤ W → 0 ≤ w →
  let end_of_run := to_list (__init__ file labels vocab c W w, shared) in
  let σ := end_of_run.1.2 in
  end_of_run.2 = Return () ∧
  n_close (iterator σ.1) = 1%nat ∧
  unread (iterator σ.1) = [] ∧
  ∀ n : nat,
    let later := next_calls n σ in
    later.1 = replicate n (Raise StopIteration) ∧
    n_close (iterator later.2.1) = (n + 1)%nat ∧
    unread (iterator later.2.1) = [].
Proof.
  intros HW Hw end_of_run σ. subst σ end_of_run.
  destruct (collect_shard (length file) (__init__ file labels vocab c W w)
              shared) as [pf Hpf].
  { by apply ready_init. }
  { done. }
  unfold to_list. cbn [fst].
  change (unread (iterator (__init__ file labels vocab c W w))) with file.
  rewrite Hpf. cbn [fst snd]. split_and!; [done..|].
  intros n.
  match goal with
  | |- context [next_calls n (?s, ?sh)] =>
      destruct (next_calls_exhausted n s sh) as [pf' ->]
  end.
  - cbn. lia.
  - cbn. lia.
  - done.
  - done.
Qed.

Lemma exhausted_iterator_is_terminal_witness :
  let file := [ {| rec_id := "a"; rec_seq := "AC" |} ] in
  let end_of_run :=
    to_list (__init__ file None ∅ (int_counter 0) 1 0, 0) in
  let σ := end_of_run.1.2 in
  end_of_run.2 = Return () ∧
  n_close (iterator σ.1) = 1%nat ∧
  unread (iterator σ.1) = [] ∧
  ∀ n : nat,
    let later := next_calls n σ in
    later.1 = replicate n (Raise StopIteration) ∧
    n_close (iterator later.2.1) = (n + 1)%nat ∧
    unread (iterator later.2.1) = [].
Proof.
  apply (exhausted_iterator_is_terminal _ None ∅ (int_counter 0) 1 0 0); lia.
Defined.

(** C9, as the specification states it, fails: on the empty file, the first
    call of [__next__] meets the end of the data and closes the parser, and
    the second call closes it again. *)
Lemma close_is_called_on_every_exhausted_next :
  let later := next_calls 2 (worker_iterator [] None ∅ 1 0) in
  later.1 = [Raise StopIteration; Raise StopIteration] ∧
  n_close (iterator later.2.1) = 2%nat.
Proof. split; reflexivity. Qed.

(** *** The counter of the dataset *)

(** C10: without worker context, [ProteinDataset.__iter__] hands the plain
    integer 0 to the iterator; run to the end, the iterator holds the number
    of rejected records of the file in that integer, and the counter of the
    dataset is what it was (0 after [ProteinDataset.__init__]).  With worker
    context the iterator holds the counter of the dataset and no integer of
    its own, and the counter of the dataset grows: by the rejected records of
    that worker's shard, which add up to those of the file over all
    workers. *)
Theorem single_process_run_leaves_shared_counter
    (file : list SeqRecord) (labels : option (list (string * Z))) :
  let self := (ProteinDataset.__init__ file labels).1 in
  (ProteinDataset.__init__ file labels).2 = 0 ∧
  n_skipped (ProteinDataset.__iter__ self None) = int_counter 0 ∧
  (∀ shared,
     let end_of_run := to_list (ProteinDataset.__iter__ self None, shared) in
     end_of_run.2 = Return () ∧
     end_of_run.1.2.2 = shared ∧
     n_skipped end_of_run.1.2.1 = int_counter (count_invalid labels file)) ∧
  (∀ W w shared, 1 ≤ W → 0 ≤ w < W →
     let info := {| ProteinDataset.num_workers := W;
                    ProteinDataset.id_ := w |} in
     let end_of_run :=
       to_list (ProteinDataset.__iter__ self (Some info), shared) in
     n_skipped (ProteinDataset.__iter__ self (Some info))
       = synchronized_counter ∧
     end_of_run.2 = Return () ∧
     n_skipped end_of_run.1.2.1 = synchronized_counter ∧
     end_of_run.1.2.2 =
       shared + shard_skips (invalid_record labels) (Z.to_nat w)
                  (Z.to_nat (W - 1)) file) ∧
  (∀ W shared, 1 ≤ W →
     foldl (λ sh w,
              (to_list
                 (ProteinDataset.__iter__ self
                    (Some {| ProteinDataset.num_workers := W;
                             ProteinDataset.id_ := w |}), sh)).1.2.2)
           shared (workers W)
     = shared + count_invalid labels file).
Proof.
  intros self. subst self. cbn [ProteinDataset.__init__ fst snd].
  unfold ProteinDataset.__iter__.
  cbn [ProteinDataset.file ProteinDataset.labels ProteinDataset.vocab
       ProteinDataset.num_workers ProteinDataset.id_].
  split_and!; [done..| | |].
  - intros shared.
    destruct (to_list_init file labels
                (gen_amino_acid_vocab (Some EXTENDED_IUPAC_PROTEIN_ALPHABET))
                (int_counter 0) 1 0 shared) as (σ & E & Hc & _); [lia..|].
    rewrite E. cbn [fst snd]. unfold add_skips in Hc. cbn [fst snd] in Hc.
    injection Hc as Hn Hs. rewrite Hn, Hs. split_and!; [done..|].
    f_equal. rewrite Z.add_0_l.
    pose proof (shard_skips_workers file labels 1) as Hsum.
    rewrite <- Hsum by lia.
    change (workers 1) with [0]. cbn [fmap list_fmap sum_list foldr]. lia.
  - intros W w shared HW [Hw Hw'].
    destruct (to_list_init file labels
                (gen_amino_acid_vocab (Some EXTENDED_IUPAC_PROTEIN_ALPHABET))
                synchronized_counter W w shared) as (σ & E & Hc & _); [lia..|].
    rewrite E. cbn [fst snd]. unfold add_skips in Hc. cbn [fst snd] in Hc.
    injection Hc as Hn Hs. by rewrite Hn, Hs.
  - intros W shared HW.
    apply (run_workers_total file labels _ W shared HW).
Qed.

(** ** The shuffle stage *)

Lemma usable_init file labels vocab c W w :
  1 ≤ W → 0 ≤ w → usable (__init__ file labels vocab c W w).
Proof. unfold usable. cbn. intros. split_and!; [done|lia|by left]. Qed.

(** One call of [__next__] in a usable state: it yields the first of the
    remaining records, or there is none and it raises [StopIteration]. *)
Lemma next_usable (self : t) (shared : Z) :
  usable self →
  match __next__ (self, shared) with
  | (σ', Return x) =>
      remaining (self, shared) = x :: remaining σ' ∧ usable σ'.1 ∧
      (length (unread (iterator σ'.1)) < length (unread (iterator self)))%nat
  | (σ', Raise StopIteration) =>
      remaining (self, shared) = [] ∧ remaining σ' = [] ∧ usable σ'.1 ∧
      unread (iterator σ'.1) = []
  | _ => False
  end.
Proof.
  intros (Hst & Hs & Hpos).
  destruct (unread (iterator self)) as [|x0 l0] eqn:Hl.
  - destruct (next_exhausted self shared Hst Hs Hl) as [pf ->].
    unfold remaining, remaining_shard. cbn. rewrite Hl.
    split_and!; [done..| |done]. unfold usable. cbn. auto.
  - assert (ready self) as Hr.
    { unfold ready. destruct Hpos as [?|[?|?]]; [auto..|done]. }
    rewrite next_ready by done. rewrite Hl.
    set (k := Z.to_nat (pending self)). set (s := Z.to_nat (step self)).
    assert (remaining (self, shared) =
            (λ pr, sequence_of self pr.1 pr.2) <$>
            match seek (skipped_by self) k s (next_position self) (x0 :: l0)
            with
            | (_, p', Some (y, rest)) =>
                (p', y) :: shard (skipped_by self) s s (p' + 1) rest
            | (_, _, None) => []
            end) as ->.
    { unfold remaining, remaining_shard. cbn [fst]. rewrite Hl.
      by rewrite (shard_seek _ _ _ (next_position self)). }
    destruct (seek _ k s _ _) as [[d p'] [[y rest]|]] eqn:E.
    + apply seek_Some in E as (Hy & Hp' & Hd & Hlen).
      pose proof (ready_next_position _ Hr) as Hnp.
      assert (0 < p') as Hp by lia.
      unfold next_of_seek. split_and!.
      * unfold remaining, remaining_shard. cbn [fst snd].
        rewrite pending_progressed, next_position_progressed by done.
        fold s. destruct self as [[l nc] hl lf v c0 st p stp]. reflexivity.
      * unfold usable. cbn. auto.
      * cbn in *. lia.
    + unfold next_of_seek. cbn [fst snd]. split_and!.
      * done.
      * unfold remaining, remaining_shard. by cbn.
      * unfold usable. cbn. auto.
      * by cbn.
Qed.

Import ShuffledProteinDataset.

(** The fill phase takes the first [n] of the remaining records, and stops
    early when there are fewer. *)
Lemma fill_spec (n : nat) (buf : list sequence_tuple) (self : ProteinIterator.t) (shared : Z) :
  usable self →
  let items := remaining (self, shared) in
  ∃ σ',
    fill n buf (self, shared) =
      (buf ++ take n items, σ', Return (bool_decide (length items < n)%nat)) ∧
    remaining σ' = drop n items ∧ usable σ'.1.
Proof.
  revert buf self shared. induction n as [|n IH]; intros buf self shared Hu.
  - exists (self, shared). simpl. rewrite app_nil_r. by split_and!.
  - simpl. pose proof (next_usable self shared Hu) as Hn.
    destruct (__next__ (self, shared)) as [[self' shared'] [x|[]|]];
      try done.
    + destruct Hn as (-> & Hu' & _).
      destruct (IH (buf ++ [x]) self' shared' Hu') as (σ'' & -> & Hrem & Hu'').
      exists σ''. split_and!; [|done..].
      rewrite <- app_assoc. simpl. do 2 f_equal.
      apply bool_decide_ext. lia.
    + destruct Hn as (-> & Hrem & Hu' & _).
      exists (self', shared'). simpl. rewrite app_nil_r. done.
Qed.

Lemma pop_snoc {A} (l : list A) (x : A) : pop (l ++ [x]) = Return (x, l).
Proof. unfold pop. rewrite reverse_snoc. by rewrite reverse_involutive. Qed.

(** The drain phase yields the buffer from its end backward and leaves it
    empty. *)
Lemma drain_spec (fuel : nat) (cap : Z) (buf : list sequence_tuple)
    (σ : state) (k : nat) :
  (length buf ≤ fuel)%nat →
  drain fuel cap buf σ k =
  {| yielded := reverse buf; final_buffer_size := cap; final_shufbuf := [];
     final_state := σ; draws := k; outcome := Return () |}.
Proof.
  revert fuel. induction buf as [|x buf IH] using rev_ind; intros fuel Hf.
  - by destruct fuel.
  - rewrite length_app in Hf. simpl in Hf.
    destruct fuel as [|fuel]; [lia|].
    cbn [drain]. rewrite length_app. simpl length.
    replace (0 <? length buf + 1)%nat with true
      by (symmetry; apply Nat.ltb_lt; lia).
    rewrite pop_snoc, IH by lia. by rewrite reverse_snoc.
Qed.

Lemma drawn_slots_cons rnd k n cap :
  drawn_slots rnd k (S n) cap =
  Z.to_nat (rnd k `mod` (cap - 1)) :: drawn_slots rnd (S k) n cap.
Proof. done. Qed.

(** The steady state and the drain, when the draws cannot fail: no record is
    left to pull, or the buffer is full with at least two slots. *)
Lemma steady_spec (fuel : nat) (rnd : nat → Z) (cap : Z)
    (buf : list sequence_tuple) (self : ProteinIterator.t) (shared : Z) (k : nat) :
  usable self →
  (length (unread (iterator self)) ≤ fuel)%nat →
  let items := remaining (self, shared) in
  items = [] ∨ (1 < cap ∧ cap = Z.of_nat (length buf)) →
  let r := steady fuel rnd cap buf (self, shared) k in
  yielded r =
    steady_state_spec (drawn_slots rnd k (length items) cap) buf items ∧
  outcome r = Return () ∧ final_buffer_size r = cap ∧ final_shufbuf r = [] ∧
  draws r = (k + length items)%nat.
Proof.
  revert buf self shared k.
  induction fuel as [|fuel IH]; intros buf self shared k Hu Hf items Hcap r;
    subst r items.
  - pose proof (next_usable self shared Hu) as Hn. cbn [steady].
    destruct (__next__ (self, shared)) as [[self' shared'] [x|[]|]];
      try done.
    + destruct Hn as (_ & _ & Hlt). lia.
    + destruct Hn as (-> & _). rewrite drain_spec by done. cbn.
      split_and!; [done..|lia].
  - pose proof (next_usable self shared Hu) as Hn. cbn [steady].
    destruct (__next__ (self, shared)) as [[self' shared'] [x|[]|]];
      try done.
    + destruct Hn as (Hrem & Hu' & Hlt). rewrite Hrem in *. cbn in Hlt, Hu'.
      destruct Hcap as [?|[Hcap Hlen]]; [done|].
      unfold randint.
      replace (0 <? cap - 1) with true by (symmetry; apply Z.ltb_lt; lia).
      rewrite Z.add_0_l, Z.sub_0_r.
      pose proof (Z.mod_pos_bound (rnd k) (cap - 1)) as Hm.
      set (e := rnd k `mod` (cap - 1)) in *.
      assert ((e <? 0) = false) as Hneg by (apply Z.ltb_ge; lia).
      assert ((Z.of_nat (length buf) <=? e) = false) as Hle
        by (apply Z.leb_gt; lia).
      destruct (lookup_lt_is_Some_2 buf (Z.to_nat e)) as [evicted He]; [lia|].
      unfold getitem, setitem. cbv zeta. rewrite !Hneg, Hle, He. cbn [orb].
      destruct (IH (<[Z.to_nat e := x]> buf) self' shared' (S k))
        as (Hy & Ho & Hb & Hs & Hd); [done|lia| |].
      { right. by rewrite length_insert. }
      cbn [yield yielded outcome final_buffer_size final_shufbuf draws].
      rewrite Hy, Ho, Hb, Hs, Hd. simpl length.
      rewrite drawn_slots_cons. cbn [steady_state_spec]. fold e. rewrite He.
      split_and!; [done..|lia].
    + destruct Hn as (-> & _). rewrite drain_spec by done. cbn.
      split_and!; [done..|lia].
Qed.

Lemma to_list_remaining (self : ProteinIterator.t) (shared : Z) :
  ready self → (to_list (self, shared)).1.1 = remaining (self, shared).
Proof.
  intros Hr. unfold to_list. cbn [fst].
  by destruct (collect_shard (length (unread (iterator self))) self shared)
    as [pf ->].
Qed.

Lemma dataset_iter_ready ds info :
  worker_info_ok info → ready (ProteinDataset.__iter__ ds info).
Proof.
  destruct info as [[W w]|]; cbn.
  - intros [? ?]. by apply ready_init.
  - intros _. by apply ready_init.
Qed.

Lemma dataset_iter_usable ds info :
  worker_info_ok info → usable (ProteinDataset.__iter__ ds info).
Proof.
  destruct info as [[W w]|]; cbn.
  - intros [? ?]. by apply usable_init.
  - intros _. by apply usable_init.
Qed.

Lemma drawn_slots_bound rnd k n cap :
  (n = 0%nat ∨ 1 < cap) →
  Forall (λ slot : nat, Z.of_nat slot < cap - 1) (drawn_slots rnd k n cap).
Proof.
  intros [->|Hcap]; [constructor|].
  apply Forall_forall. intros slot (j & -> & _)%list_elem_of_fmap.
  pose proof (Z.mod_pos_bound (rnd j) (cap - 1)). lia.
Qed.

(** Every choice of slots within the range is the choice of some oracle. *)
Lemma drawn_slots_any (slots : list nat) (cap : Z) :
  Forall (λ slot : nat, Z.of_nat slot < cap - 1) slots →
  ∃ rnd, drawn_slots rnd 0 (length slots) cap = slots.
Proof.
  intros Hs. exists (λ j, Z.of_nat (default 0%nat (slots !! j))).
  unfold drawn_slots. apply list_eq. intros i.
  rewrite list_lookup_fmap.
  destruct (slots !! i) as [slot|] eqn:E.
  - rewrite lookup_seq_lt by (by eapply lookup_lt_Some). simpl. rewrite E.
    simpl. f_equal. rewrite Forall_forall in Hs.
    specialize (Hs slot (list_elem_of_lookup_2 _ _ _ E)).
    rewrite Z.mod_small by lia. lia.
  - rewrite lookup_seq_ge; [done|]. by apply lookup_ge_None.
Qed.

(** The whole run of the shuffle stage, when no draw can fail. *)
Lemma shuffle_run rnd ds (C : Z) info shared :
  worker_info_ok info →
  0 ≤ C →
  let items := underlying_records ds info shared in
  (length items ≤ Z.to_nat C)%nat ∨ 1 < C →
  let cap := effective_capacity C items in
  let pulled := drop (Z.to_nat C) items in
  let r := __iter__ rnd {| dataset := ds; buffer_size := C |} info shared in
  yielded r =
    shuffle_stage_spec (drawn_slots rnd 0 (length pulled) cap)
      (Z.to_nat C) items ∧
  outcome r = Return () ∧ final_buffer_size r = cap ∧
  final_shufbuf r = [] ∧ draws r = length pulled.
Proof.
  intros Hinfo HC items Hcap cap pulled r. subst r pulled cap.
  unfold __iter__, underlying_records in *. cbn [dataset buffer_size].
  subst items.
  rewrite to_list_remaining in * by by apply dataset_iter_ready.
  set (it := ProteinDataset.__iter__ ds info) in *.
  destruct (fill_spec (Z.to_nat C) [] it shared) as ([self' sh'] & -> & Hrem & Hu).
  { by apply dataset_iter_usable. }
  cbn [app fst] in *.
  set (items := remaining (it, shared)) in *.
  set (stopped := bool_decide _).
  assert ((if stopped then Z.of_nat (length (take (Z.to_nat C) items)) else C)
          = effective_capacity C items) as ->.
  { unfold effective_capacity. subst stopped. rewrite length_take.
    case_bool_decide; lia. }
  destruct (steady_spec (length (unread (iterator self'))) rnd
              (effective_capacity C items) (take (Z.to_nat C) items)
              self' sh' 0) as (Hy & Ho & Hb & Hs & Hd); [done..| |].
  { rewrite Hrem. destruct Hcap as [Hcap|Hcap].
    - left. by apply drop_ge.
    - destruct (decide (length items ≤ Z.to_nat C)%nat).
      + left. by apply drop_ge.
      + right. unfold effective_capacity. rewrite length_take. lia. }
  rewrite Hrem in Hy, Hd. by rewrite Hy, Ho, Hb, Hs, Hd.
Qed.

(** C4, as the code has it: with a capacity of at least 1 and, for capacity
    1, no record left to pull after the fill phase (the range of the draw is
    then not empty whenever a record is pulled), the shuffle stage does what
    the specification describes.  For every record pulled after the fill phase
    a slot is drawn that lies in [[0, effective_capacity - 1)], so never the
    last slot; the record in that slot is emitted and the slot is
    overwritten with the record pulled; when the underlying iterator is
    exhausted the buffer is emitted from its end backward, and is empty at
    the end.  Every choice of slots within that range is the choice of some
    run. *)
Theorem shuffle_stage_steady_state_and_drain
    (rnd : nat → Z) (ds : ProteinDataset.t) (C : Z)
    (info : option ProteinDataset.worker_info) (shared : Z) :
  worker_info_ok info →
  1 ≤ C →
  let items := underlying_records ds info shared in
  (C = 1 → (length items ≤ 1)%nat) →
  let cap := effective_capacity C items in
  let pulled := drop (Z.to_nat C) items in
  let slots := drawn_slots rnd 0 (length pulled) cap in
  let stage := {| dataset := ds; buffer_size := C |} in
  let r := __iter__ rnd stage info shared in
  length slots = length pulled ∧
  Forall (λ slot : nat, Z.of_nat slot < cap - 1) slots ∧
  yielded r = shuffle_stage_spec slots (Z.to_nat C) items ∧
  outcome r = Return () ∧
  final_buffer_size r = cap ∧
  final_shufbuf r = [] ∧
  (∀ choice : list nat,
     length choice = length pulled →
     Forall (λ slot : nat, Z.of_nat slot < cap - 1) choice →
     ∃ rnd', yielded (__iter__ rnd' stage info shared)
             = shuffle_stage_spec choice (Z.to_nat C) items).
Proof.
  intros Hinfo HC items H1 cap pulled slots stage r.
  assert ((length items ≤ Z.to_nat C)%nat ∨ 1 < C) as Hcap.
  { destruct (decide (C = 1)) as [->|]; [left; auto|right; lia]. }
  destruct (shuffle_run rnd ds C info shared Hinfo) as (Hy & Ho & Hb & Hs & _);
    [lia|done|].
  split_and!; try done.
  - unfold slots, drawn_slots. by rewrite length_fmap, length_seq.
  - apply drawn_slots_bound.
    destruct (decide (length items ≤ Z.to_nat C)%nat) as [Hle|Hgt].
    + left. unfold pulled. rewrite length_drop. lia.
    + right. unfold cap, effective_capacity. lia.
  - intros choice Hlen Hrange.
    destruct (drawn_slots_any choice cap Hrange) as [rnd' Hrnd'].
    exists rnd'.
    destruct (shuffle_run rnd' ds C info shared Hinfo) as (Hy' & _);
      [lia|done|].
    unfold stage. rewrite Hy'. fold items pulled cap.
    by rewrite <- Hlen, Hrnd'.
Qed.

Lemma shuffle_stage_steady_state_and_drain_witness :
  let ds := (ProteinDataset.__init__
               [ {| rec_id := "a"; rec_seq := "AC" |};
                 {| rec_id := "b"; rec_seq := "CC" |};
                 {| rec_id := "c"; rec_seq := "D" |};
                 {| rec_id := "d"; rec_seq := "E" |} ] None).1 in
  let r := __iter__ (λ _, 1) {| dataset := ds; buffer_size := 3 |} None 0 in
  seq_index <$> yielded r = [2; 3; 4; 1] ∧ outcome r = Return ().
Proof.
  intros ds r.
  destruct (shuffle_stage_steady_state_and_drain (λ _, 1) ds 3 None 0)
    as (_ & _ & Hy & Ho & _).
  - exact I.
  - lia.
  - intros H. discriminate H.
  - split; [vm_compute; reflexivity|exact Ho].
Defined.

(** C4, as the specification states it, fails at capacity 1.  The file
    has two records: the first fills the buffer, the second is pulled after
    the buffer is full.  The range [[0, effective_capacity - 1)] of the draw
    is empty, so there is no slot to draw: [randint(0, 0)] raises
    [ValueError], the record in the buffer is not emitted, and the buffer is
    not drained, whatever the oracle. *)
Lemma steady_state_draw_at_capacity_one :
  let ds := (ProteinDataset.__init__
               [ {| rec_id := "a"; rec_seq := "AC" |};
                 {| rec_id := "b"; rec_seq := "CC" |} ] None).1 in
  let items := underlying_records ds None 0 in
  let cap := effective_capacity 1 items in
  let stage := {| dataset := ds; buffer_size := 1 |} in
  cap = 1 ∧
  seq_index <$> drop 1 items = [2] ∧
  (∀ slot : nat, ¬ Z.of_nat slot < cap - 1) ∧
  ∀ rnd : nat → Z,
    let r := __iter__ rnd stage None 0 in
    draws r = 0%nat ∧
    yielded r = [] ∧
    seq_index <$> final_shufbuf r = [1] ∧
    outcome r = Raise ValueError.
Proof.
  intros ds items cap stage. split_and!.
  - reflexivity.
  - reflexivity.
  - intros slot. change cap with 1. lia.
  - intros rnd r. split_and!; reflexivity.
Qed.

(** *** No record is lost when no draw fails *)

Lemma steady_state_spec_Permutation {A} (slots : list nat)
    (buffer pulled : list A) :
  length slots = length pulled →
  Forall (λ slot, slot < length buffer)%nat slots →
  steady_state_spec slots buffer pulled ≡ₚ buffer ++ pulled.
Proof.
  revert slots buffer.
  induction pulled as [|item pulled IH]; intros slots buffer Hlen Hs.
  - cbn [steady_state_spec]. by rewrite app_nil_r, reverse_Permutation.
  - destruct slots as [|slot slots]; [done|]. simpl in Hlen.
    apply Forall_cons in Hs as [Hslot Hs]. cbn [steady_state_spec].
    destruct (lookup_lt_is_Some_2 buffer slot Hslot) as [evicted He].
    rewrite He, IH; [|lia|by rewrite length_insert].
    destruct (list_elem_of_split_length _ _ _ He) as (l1 & l2 & -> & ->).
    rewrite insert_app_r_alt, Nat.sub_diag by done. simpl.
    rewrite <- !app_assoc. simpl.
    rewrite <- !Permutation_middle. first [done | apply perm_swap].
Qed.

(** With a capacity of at least 2 the shuffle stage emits the records of the
    underlying iterator, each once, and ends regularly. *)
Lemma shuffle_preserves_records rnd ds (C : Z) info shared :
  worker_info_ok info →
  2 ≤ C →
  let r := __iter__ rnd {| dataset := ds; buffer_size := C |} info shared in
  yielded r ≡ₚ underlying_records ds info shared ∧ outcome r = Return ().
Proof.
  intros Hinfo HC r.
  destruct (shuffle_run rnd ds C info shared Hinfo) as (Hy & Ho & _);
    [lia|right; lia|].
  split; [|done]. subst r. rewrite Hy. unfold shuffle_stage_spec.
  set (items := underlying_records ds info shared).
  rewrite steady_state_spec_Permutation.
  - by rewrite take_drop.
  - unfold drawn_slots. by rewrite length_fmap, length_seq.
  - destruct (decide (length items ≤ Z.to_nat C)%nat) as [Hle|Hgt].
    + rewrite drop_ge by done. constructor.
    + eapply Forall_impl.
      * apply drawn_slots_bound. right.
        unfold effective_capacity. fold items. lia.
      * simpl. intros slot Hslot. rewrite length_take.
        unfold effective_capacity in Hslot. fold items in Hslot. lia.
Qed.

(** With capacity 1 and at most one record the order is that of the input. *)
Lemma shuffle_capacity_one_short rnd ds info shared :
  worker_info_ok info →
  (length (underlying_records ds info shared) ≤ 1)%nat →
  let r := __iter__ rnd {| dataset := ds; buffer_size := 1 |} info shared in
  yielded r = underlying_records ds info shared ∧ outcome r = Return ().
Proof.
  intros Hinfo Hlen r.
  destruct (shuffle_run rnd ds 1 info shared Hinfo) as (Hy & Ho & _);
    [lia|by left|].
  split; [|done]. subst r. rewrite Hy. unfold shuffle_stage_spec.
  destruct (underlying_records ds info shared) as [|x [|y l]]; try done.
  simpl in Hlen. lia.
Qed.

(** With capacity 1 and a second record the first draw is from an empty
    range: [randint(0, 0)] raises [ValueError] before anything is emitted. *)
Lemma shuffle_capacity_one_raises rnd ds info shared :
  worker_info_ok info →
  (2 ≤ length (underlying_records ds info shared))%nat →
  let r := __iter__ rnd {| dataset := ds; buffer_size := 1 |} info shared in
  yielded r = [] ∧ outcome r = Raise ValueError.
Proof.
  intros Hinfo Hlen r. subst r.
  unfold __iter__, underlying_records in *. cbn [dataset buffer_size].
  rewrite to_list_remaining in Hlen by by apply dataset_iter_ready.
  set (it := ProteinDataset.__iter__ ds info) in *.
  destruct (fill_spec (Z.to_nat 1) [] it shared)
    as ([self' sh'] & -> & Hrem & Hu).
  { by apply dataset_iter_usable. }
  cbn [app fst] in *.
  rewrite bool_decide_eq_false_2 by (change (Z.to_nat 1) with 1%nat; lia).
  pose proof (next_usable self' sh' Hu) as Hn.
  destruct (remaining (it, shared)) as [|x [|y l]] eqn:E;
    [simpl in Hlen; lia..|].
  change (drop (Z.to_nat 1) (x :: y :: l)) with (y :: l) in Hrem.
  rewrite Hrem in Hn.
  destruct (length (unread (iterator self'))) as [|fuel]; cbn [steady];
    destruct (__next__ (self', sh')) as [σ' [z|[]|]]; try done;
    by destruct Hn.
Qed.

(** C3 fails on the code, at capacity 1: the file has two records, both
    pass the filter, and the shuffle stage with [buffer_size = 1] pulls the
    first into the buffer, pulls the second, draws from
    [randint(0, buffer_size - 1) = randint(0, 0)] and ends on [ValueError]
    without having emitted a record, whatever the oracle.  The claim asks
    for the two records in input order. *)
Theorem shuffle_capacity_one_two_records (rnd : nat → Z) :
  let ds := (ProteinDataset.__init__
               [ {| rec_id := "a"; rec_seq := "AC" |};
                 {| rec_id := "b"; rec_seq := "CC" |} ] None).1 in
  let r := __iter__ rnd {| dataset := ds; buffer_size := 1 |} None 0 in
  seq_index <$> underlying_records ds None 0 = [1; 2] ∧
  yielded r = [] ∧
  outcome r = Raise ValueError.
Proof. split_and!; reflexivity. Qed.

(** ** Collation *)

Lemma foldr_max_acc (a b : Z) (l : list Z) :
  foldr Z.max (Z.max a b) l = Z.max b (foldr Z.max a l).
Proof. induction l as [|x l IH]; cbn [foldr]; [lia|]. rewrite IH. lia. Qed.

(** The first loop of [collate_sequences] computes the row length and counts
    the records. *)
Lemma longest_spec (min_length : Z) (batch : list sequence_tuple) :
  longest min_length batch = (row_length min_length batch, length batch).
Proof.
  unfold longest, row_length.
  assert (∀ a n,
    foldl (λ '(max_len, n_data) seq,
             let sequence_len := Z.of_nat (length (seq_encoded seq)) in
             (if max_len <? sequence_len then sequence_len else max_len,
              S n_data)) (a, n) batch
    = (foldr Z.max a ((λ s, Z.of_nat (length (seq_encoded s))) <$> batch),
       (n + length batch)%nat)) as H; [|apply H].
  induction batch as [|s batch IH]; intros a n.
  - simpl. by rewrite Nat.add_0_r.
  - cbn [foldl fmap list_fmap foldr length]. rewrite IH.
    f_equal; [|lia].
    rewrite <- foldr_max_acc. f_equal.
    destruct (Z.ltb_spec a (Z.of_nat (length (seq_encoded s)))); cbn; lia.
Qed.


Lemma row_length_ge min_length batch s :
  s ∈ batch → Z.of_nat (length (seq_encoded s)) ≤ row_length min_length batch.
Proof.
  unfold row_length.
  induction batch as [|s' batch IH]; cbn [foldr fmap list_fmap].
  - by intros ?%elem_of_nil.
  - intros [->|H]%elem_of_cons; [lia|]. apply IH in H. lia.
Qed.

(** The row length is [min_length] or the length of a record. *)
Lemma row_length_attained min_length batch :
  row_length min_length batch = min_length ∨
  ∃ s, s ∈ batch ∧ row_length min_length batch
                   = Z.of_nat (length (seq_encoded s)).
Proof.
  unfold row_length.
  induction batch as [|s batch IH]; cbn [foldr fmap list_fmap]; [by left|].
  destruct (Z.max_spec (Z.of_nat (length (seq_encoded s)))
              (foldr Z.max min_length
                 ((λ s, Z.of_nat (length (seq_encoded s))) <$> batch)))
    as [[_ ->]|[_ ->]].
  - destruct IH as [?|(s' & ? & ?)]; [by left|].
    right. exists s'. split; [by apply elem_of_cons; right|done].
  - right. exists s. split; [by apply elem_of_cons; left|done].
Qed.

Lemma start_offsets_length rnd rp max_len k batch :
  length (start_offsets rnd rp max_len k batch) = length batch.
Proof.
  revert k. induction batch as [|s batch IH]; intros k; [done|].
  simpl. destruct (rp && _); simpl; by rewrite IH.
Qed.



(** *** Values and arrays *)

Lemma dtype_of_int_object (v : Z) :
  dtype_of_int v = object ↔ ¬ (- 2 ^ 63 ≤ v < 2 ^ 64).
Proof.
  unfold dtype_of_int, fits_int64, fits_uint64.
  destruct (Z.leb_spec (- 2 ^ 63) v), (Z.ltb_spec v (2 ^ 63)),
    (Z.leb_spec 0 v), (Z.ltb_spec v (2 ^ 64)); cbn; split; try done; lia.
Qed.

Lemma promote_types_object (l : list Z) (d : dtype) :
  foldl (λ d w, promote_types d (dtype_of_int w)) d l = object ↔
  d = object ∨ Exists (λ w, dtype_of_int w = object) l.
Proof.
  revert d. induction l as [|w l IH]; intros d; cbn [foldl].
  - rewrite Exists_nil. tauto.
  - rewrite IH, Exists_cons.
    destruct d, (dtype_of_int w); cbn; split; intros H; auto;
      destruct H as [H|[H|H]]; auto; discriminate.
Qed.

(** [numpy.array] keeps the values as Python objects exactly if one of them
    does not fit 64 bits. *)
Lemma result_type_object (l : list Z) :
  result_type l = object ↔ ¬ storable l.
Proof.
  unfold storable.
  rewrite <- Exists_Forall_neg
    by (intros v; destruct (decide (- 2 ^ 63 ≤ v < 2 ^ 64)); auto).
  destruct l as [|v l]; cbn [result_type].
  - rewrite Exists_nil. split; [done|tauto].
  - rewrite promote_types_object, Exists_cons.
    rewrite <- dtype_of_int_object.
    split; (intros [?|?]; [left|right]); try done;
      (eapply Exists_impl; [done|]); intros w; by apply dtype_of_int_object.
Qed.

Lemma result_type_int64 (l : list Z) (d : dtype) :
  Forall (λ v, fits_int64 v = true) l →
  foldl (λ d w, promote_types d (dtype_of_int w)) int64 l = int64.
Proof.
  induction 1 as [|v l Hv _ IH]; [done|].
  cbn [foldl]. unfold dtype_of_int at 2. by rewrite Hv.
Qed.

(** Values that fit [int64] are held as they are. *)
Lemma stored_fits (l : list Z) :
  Forall (λ v, fits_int64 v = true) l → stored l = l.
Proof.
  intros H. unfold stored. destruct H as [|v l Hv Hl]; [done|].
  cbn [result_type]. unfold dtype_of_int at 2. rewrite Hv.
  by rewrite (result_type_int64 l int64).
Qed.

Lemma length_stored (l : list Z) : length (stored l) = length l.
Proof. unfold stored. destruct (result_type l); by rewrite ?length_fmap. Qed.

Lemma length_np_array (l : list Z) :
  length (array_items (np_array l)) = length l.
Proof.
  unfold np_array. cbn. destruct (result_type l); by rewrite ?length_fmap.
Qed.

Lemma fits_int64_storable (l : list Z) :
  Forall (λ v, fits_int64 v = true) l → storable l.
Proof.
  unfold storable. intros H. eapply Forall_impl; [done|].
  intros v. unfold fits_int64.
  intros [?%Z.leb_le ?%Z.ltb_lt]%andb_true_iff. lia.
Qed.

(** The cast of the assignment, on an array made by [numpy.array]. *)
Lemma to_int64_np_array (l : list Z) :
  to_int64 (np_array l)
  = if decide (storable l) then Return (stored l) else Raise OverflowError.
Proof.
  pose proof (result_type_object l) as Hobj.
  unfold to_int64, np_array, stored. cbn [array_dtype array_items].
  destruct (result_type l) eqn:E.
  - rewrite decide_True; [done|].
    destruct (decide (storable l)); [done|]. by apply Hobj in n.
  - rewrite decide_True; [done|].
    destruct (decide (storable l)); [done|]. by apply Hobj in n.
  - rewrite decide_True; [by rewrite <- list_fmap_compose|].
    destruct (decide (storable l)); [done|]. by apply Hobj in n.
  - destruct Hobj as [Hobj _]. specialize (Hobj eq_refl).
    rewrite decide_False by done.
    destruct (forallb fits_int64 l) eqn:Hall; [|done].
    exfalso. apply Hobj, fits_int64_storable.
    apply Forall_forall. intros v Hv.
    rewrite forallb_forall in Hall. by apply Hall, list_elem_of_In.
Qed.

(** Writing a record into a zero row at an offset that leaves room. *)
Lemma slice_assign_zero_row (max_len start : Z) (v : list Z) :
  0 ≤ start → start + Z.of_nat (length v) ≤ max_len →
  slice_assign (replicate (Z.to_nat max_len) 0) start
               (start + Z.of_nat (length v)) (np_array v)
  = if decide (storable v) then Return (place max_len start (stored v))
    else Raise OverflowError.
Proof.
  intros H0 H1. unfold slice_assign, place. rewrite length_replicate.
  rewrite Z2Nat.id by lia.
  rewrite (Z.min_l start) by lia.
  rewrite (Z.min_l (start + _)) by lia.
  rewrite Z.max_r by lia.
  rewrite length_np_array, decide_True by lia.
  rewrite to_int64_np_array. destruct (decide (storable v)); [|done].
  cbn [mbind result_bind].
  rewrite take_replicate, drop_replicate, length_stored.
  do 3 f_equal; [f_equal; lia|]. f_equal. lia.
Qed.

(** The second loop of [collate_sequences] places every record in its row,
    at its offset; it raises [OverflowError] at the first record that the
    matrix cannot hold. *)
Lemma pad_rows_spec rnd rp (max_len : Z) (l : list sequence_tuple)
    (n k : nat) (done_rows : list (list Z)) :
  Forall (λ s, Z.of_nat (length (seq_encoded s)) ≤ max_len) l →
  length done_rows = n →
  pad_rows rnd rp max_len (imap (λ i x, (Z.of_nat (n + i), x)) l) k
    (done_rows ++ replicate (length l) (replicate (Z.to_nat max_len) 0))
  = if decide (Forall (λ s, storable (seq_encoded s)) l) then
      Return (done_rows ++
              zip_with (place max_len) (start_offsets rnd rp max_len k l)
                       (stored ∘ seq_encoded <$> l))
    else Raise OverflowError.
Proof.
  intros Hl. revert n k done_rows.
  induction Hl as [|s l Hs _ IH]; intros n k done_rows Hn.
  { by rewrite decide_True by constructor. }
  cbn [imap pad_rows start_offsets fmap list_fmap length replicate].
  rewrite length_np_array.
  set (len := Z.of_nat (length (seq_encoded s))) in *.
  set (zero := replicate (Z.to_nat max_len) 0).
  set (all_storable l := Forall (λ s, storable (seq_encoded s)) l).
  assert (∀ start k',
    0 ≤ start ≤ max_len - len →
    (row ← getitem (done_rows ++ zero :: replicate (length l) zero)
                   (Z.of_nat (n + 0));
     row' ← slice_assign row start (start + len) (np_array (seq_encoded s));
     sequences' ← setitem (done_rows ++ zero :: replicate (length l) zero)
                          (Z.of_nat (n + 0)) row';
     pad_rows rnd rp max_len
       (imap ((λ i x, (Z.of_nat (n + i), x)) ∘ S) l) k' sequences')
    = if decide (all_storable (s :: l)) then
        Return (done_rows ++ place max_len start (stored (seq_encoded s)) ::
                zip_with (place max_len) (start_offsets rnd rp max_len k' l)
                         (stored ∘ seq_encoded <$> l))
      else Raise OverflowError) as Hrow.
  { intros start k' Hstart.
    rewrite Nat.add_0_r.
    assert ((Z.of_nat n <? 0) = false) as Hneg by (apply Z.ltb_ge; lia).
    assert ((Z.of_nat (length (done_rows ++ zero :: replicate (length l) zero))
             <=? Z.of_nat n) = false) as Hlen.
    { apply Z.leb_gt. rewrite length_app. simpl. lia. }
    unfold getitem, setitem. cbv zeta.
    rewrite !Hneg, Hlen, Nat2Z.id, list_lookup_middle by done.
    cbn [orb mbind result_bind]. unfold zero, len.
    rewrite slice_assign_zero_row by (fold len; lia).
    destruct (decide (storable (seq_encoded s))) as [Hst|Hst].
    2:{ rewrite decide_False; [done|].
        unfold all_storable. rewrite Forall_cons. tauto. }
    cbn [mbind result_bind].
    rewrite insert_app_r_alt by lia. rewrite Hn, Nat.sub_diag.
    cbn [insert list_insert].
    erewrite (imap_ext _ (λ i x, (Z.of_nat (S n + i), x))).
    2:{ intros i x _. simpl. do 2 f_equal. lia. }
    rewrite (cons_middle _ done_rows), app_assoc.
    rewrite IH by (rewrite length_app; simpl; lia).
    unfold all_storable.
    destruct (decide (Forall (λ s, storable (seq_encoded s)) l)) as [Hall|Hall].
    - rewrite decide_True by by constructor. by rewrite <- app_assoc.
    - rewrite decide_False; [done|]. rewrite Forall_cons. tauto. }
  destruct (rp && (len <? max_len)) eqn:E.
  - apply andb_true_iff in E as [_ E%Z.ltb_lt].
    unfold choice.
    replace (0 <? max_len - len + 1) with true
      by (symmetry; apply Z.ltb_lt; lia).
    cbn [mbind result_bind].
    pose proof (Z.mod_pos_bound (rnd k) (max_len - len + 1)).
    rewrite Hrow by lia. done.
  - cbn [mbind result_bind].
    change len with (0 + len) at 1. rewrite Hrow by lia. done.
Qed.

(** *** The array of the labels *)

Lemma np_array_int_overflow (labels : list (option Z)) :
  np_array_int labels = Raise OverflowError ↔ label_overflow labels = true.
Proof.
  induction labels as [|[v|] labels IH]; cbn [np_array_int label_overflow];
    [done| |done].
  destruct (fits_int64 v); cbn [negb orb mbind result_bind]; [|done].
  rewrite <- IH. by destruct (np_array_int labels) as [?|[]|].
Qed.

(** Without such a label the array is made exactly if no label is missing,
    and the conversion ends on [TypeError] otherwise. *)
Lemma np_array_int_mapM (labels : list (option Z)) :
  label_overflow labels = false →
  np_array_int labels
  = match mapM id labels with
    | Some ys => Return ys
    | None => Raise TypeError
    end.
Proof.
  induction labels as [|[v|] labels IH]; cbn [np_array_int label_overflow];
    [done| |done].
  intros [Hv%negb_false_iff Hl]%orb_false_iff. rewrite Hv, IH by done.
  cbn. by destruct (mapM id labels).
Qed.


Lemma row_length_nonneg min_length batch :
  batch ≠ [] → 0 ≤ row_length min_length batch.
Proof.
  destruct batch as [|s batch]; [done|]. intros _.
  pose proof (row_length_ge min_length (s :: batch) s) as H.
  specialize (H ltac:(by apply elem_of_cons; left)). lia.
Qed.

Lemma row_length_Forall min_length batch :
  Forall (λ s, Z.of_nat (length (seq_encoded s))
               ≤ row_length min_length batch) batch.
Proof. apply Forall_forall. intros s Hs. by apply row_length_ge. Qed.

Lemma mapM_id_fmap {A B} (f : A → option B) (l : list A) :
  mapM id (f <$> l) = mapM f l.
Proof.
  induction l as [|x l IH]; [done|]. cbn. rewrite IH. by destruct (f x).
Qed.

(** [collate_sequences] on a batch that is not empty, with zero padding: it
    returns the batch when the arrays can hold the values, and raises
    [OverflowError] when they cannot. *)
Lemma collate_sequences_nonempty rnd batch min_length rp :
  records_of batch ≠ [] →
  let l := records_of batch in
  let max_len := row_length min_length l in
  collate_sequences rnd batch true min_length rp =
  if decide (collatable l) then
    Return {| indices := seq_index <$> l;
              ids := seq_id <$> l;
              sequences := zip_with (place max_len)
                             (start_offsets rnd rp max_len 0 l)
                             (stored ∘ seq_encoded <$> l);
              labels := mapM seq_label l |}
  else Raise OverflowError.
Proof.
  intros Hne. cbv zeta. unfold collate_sequences.
  fold (records_of batch). revert Hne.
  generalize (records_of batch). clear batch. intros l Hne.
  rewrite longest_spec. set (max_len := row_length min_length l).
  unfold np_zeros.
  replace (max_len <? 0) with false.
  2:{ symmetry. apply Z.ltb_ge. by apply row_length_nonneg. }
  cbn [mbind result_bind].
  pose proof (pad_rows_spec rnd rp max_len l 0 0 []
                (row_length_Forall min_length l) eq_refl) as Hpad.
  cbn [app] in Hpad. unfold enumerate.
  change (λ (i : nat) (x : sequence_tuple), (Z.of_nat (0 + i), x))
    with (λ (i : nat) (x : sequence_tuple), (Z.of_nat i, x)) in Hpad.
  rewrite Hpad. clear Hpad. unfold collatable.
  destruct (decide (Forall (λ s, storable (seq_encoded s)) l)) as [Hst|Hst].
  2:{ rewrite decide_False by tauto. done. }
  cbn [mbind result_bind].
  assert (∀ A (xs : list A), xs ≠ [] → default_collate xs = Return xs) as Hdc.
  { intros A [|x xs]; done. }
  rewrite Hdc.
  2:{ intros E. apply (f_equal length) in E.
      rewrite length_zip_with, start_offsets_length, length_fmap in E.
      destruct l; [done|]. simpl in E. lia. }
  cbn [mbind result_bind].
  destruct (decide (label_overflow (seq_label <$> l) = false)) as [Hov|Hov].
  2:{ rewrite decide_False by tauto.
      apply not_false_is_true, np_array_int_overflow in Hov.
      by rewrite Hov. }
  - rewrite decide_True by done.
    rewrite np_array_int_mapM, mapM_id_fmap by done.
    destruct (mapM seq_label l) as [labels|] eqn:E; [|done].
    cbn [mbind result_bind]. rewrite Hdc; [done|].
    apply length_mapM in E. intros ->. destruct l; done.
Qed.









(** A value that is too large by one bit does not stop the collation: the
    matrix holds [2^63] as [-2^63]. *)
Lemma collate_sequences_wraps_around :
  let s := {| seq_index := 1; seq_id := "a"; seq_string := "A";
              seq_encoded := [2 ^ 63]; seq_label := None |} in
  ∃ cb,
    collate_sequences (λ _, 0) (one_sequence s) true 2 false = Return cb ∧
    sequences cb = [[- 2 ^ 63; 0]].
Proof. intros s. eexists. split; reflexivity. Qed.



(** * Further properties of the code *)

(** ** The vocabulary, for any alphabet *)

(** The two forms of a character have the same entry, or none. *)
Lemma vocab_of_case (l : list ascii) (c : ascii) :
  vocab_of l !! upper c = vocab_of l !! lower c.
Proof.
  induction l as [|a l IH] using rev_ind; [done|].
  rewrite vocab_of_snoc.
  destruct (decide (casefold a = casefold c)) as [E|Hne].
  - pose proof (casefold_upper _ _ E) as Eu. unfold casefold in E.
    rewrite E, Eu. rewrite (lookup_insert_eq _ (lower c)).
    destruct (decide (lower c = upper c)) as [->|Hlu].
    + by rewrite lookup_insert_eq.
    + rewrite lookup_insert_ne by done. by rewrite lookup_insert_eq.
  - rewrite !lookup_insert_ne; [done|..];
      intros K; apply Hne, keys_meet; auto.
Qed.

Lemma vocab_of_is_Some (letters : list ascii) (c : ascii) :
  is_Some (vocab_of letters !! c) ↔
  ∃ a, a ∈ letters ∧ (c = upper a ∨ c = lower a).
Proof.
  split.
  - intros [code Hc].
    destruct (vocab_of_lookup_Some _ _ _ Hc) as (i & a & Hi & Ha & _).
    exists a. split; [by eapply list_elem_of_lookup_2|done].
  - intros (a & [i Hi]%list_elem_of_lookup_1 & Ha).
    destruct (vocab_of_lookup_class _ _ _ Hi) as (k & _ & Hu & Hl).
    destruct Ha as [-> | ->]; eauto.
Qed.

Lemma vocab_of_code_range (letters : list ascii) (c : ascii) (code : Z) :
  vocab_of letters !! c = Some code →
  1 ≤ code ≤ Z.of_nat (length letters).
Proof.
  intros Hc.
  destruct (vocab_of_lookup_Some _ _ _ Hc) as (i & a & Hi & _ & ->).
  apply lookup_lt_Some in Hi. lia.
Qed.

Lemma encode_char_range (letters : list ascii) (c : ascii) :
  0 ≤ encode_char (vocab_of letters) c ≤ Z.of_nat (length letters).
Proof.
  unfold encode_char. destruct (vocab_of letters !! c) as [code|] eqn:E.
  - apply vocab_of_code_range in E. simpl. lia.
  - simpl. lia.
Qed.

(** A character is encoded as 0 exactly if it has no entry. *)
Lemma encode_char_0 (letters : list ascii) (c : ascii) :
  encode_char (vocab_of letters) c = 0 ↔
  ∀ a, a ∈ letters → c ≠ upper a ∧ c ≠ lower a.
Proof.
  unfold encode_char. split.
  - intros H a Ha.
    destruct (vocab_of letters !! c) as [code|] eqn:E.
    + apply vocab_of_code_range in E. simpl in H. lia.
    + assert (¬ is_Some (vocab_of letters !! c)) as Hn
        by (rewrite E; by intros [? ?]).
      rewrite vocab_of_is_Some in Hn.
      split; intros ->; apply Hn; eauto.
  - intros H. by rewrite vocab_of_lookup_None.
Qed.

(** [gen_amino_acid_vocab], whatever the alphabet (repeated letters
    included): a character has an entry exactly if it is the upper- or the
    lower-case form of a letter of the alphabet; every code lies in
    [[1, |alphabet|]]; and what a character is encoded as lies in
    [[0, |alphabet|]]. *)
Theorem vocabulary_entries (alphabet : option string) (c : ascii) :
  let vocab := gen_amino_acid_vocab alphabet in
  let letters := letters_of alphabet in
  (is_Some (vocab !! c) ↔
   ∃ a, a ∈ letters ∧ (c = upper a ∨ c = lower a)) ∧
  (∀ code, vocab !! c = Some code →
           1 ≤ code ≤ Z.of_nat (length letters)) ∧
  0 ≤ encode_char vocab c ≤ Z.of_nat (length letters).
Proof.
  intros vocab letters. subst vocab.
  rewrite gen_amino_acid_vocab_letters. fold letters.
  split; [apply vocab_of_is_Some|].
  split; [intros code; apply vocab_of_code_range|apply encode_char_range].
Qed.

Lemma encode_char_upper vocab_letters (c : ascii) :
  encode_char (vocab_of vocab_letters) (upper c)
  = encode_char (vocab_of vocab_letters) c.
Proof.
  unfold encode_char.
  destruct (upper_or_lower c) as [E|E]; rewrite E at 2; [done|].
  by rewrite vocab_of_case.
Qed.

Lemma encode_char_lower vocab_letters (c : ascii) :
  encode_char (vocab_of vocab_letters) (lower c)
  = encode_char (vocab_of vocab_letters) c.
Proof.
  unfold encode_char.
  destruct (upper_or_lower c) as [E|E]; rewrite E at 2; [|done].
  by rewrite vocab_of_case.
Qed.

(** The encoding of line 301 does not see the case of the residues: a
    sequence, its upper-case form and its lower-case form are encoded alike,
    with the vocabulary of any alphabet. *)
Theorem encoding_ignores_case (alphabet : option string) (seq : string) :
  let vocab := gen_amino_acid_vocab alphabet in
  encode_residues vocab (str_upper seq) = encode_residues vocab seq ∧
  encode_residues vocab (str_lower seq) = encode_residues vocab seq.
Proof.
  intros vocab. subst vocab. rewrite gen_amino_acid_vocab_letters.
  unfold encode_residues, str_upper, str_lower.
  rewrite !list_ascii_of_string_of_list_ascii, <- !list_fmap_compose.
  split; apply list_fmap_ext; intros i c _; simpl.
  - apply encode_char_upper.
  - apply encode_char_lower.
Qed.

Lemma list_ascii_of_string_length (s : string) :
  length (list_ascii_of_string s) = String.length s.
Proof. induction s as [|c s IH]; simpl; [done|]. by rewrite IH. Qed.

(** The encoding has one code per residue, each in [[0, |alphabet|]]: 0 for
    a residue that is no form of a letter of the alphabet. *)
Theorem encoding_shape (alphabet : option string) (seq : string) :
  let vocab := gen_amino_acid_vocab alphabet in
  length (encode_residues vocab seq) = String.length seq ∧
  Forall (λ code, 0 ≤ code ≤ Z.of_nat (length (letters_of alphabet)))
         (encode_residues vocab seq) ∧
  (∀ (i : nat) c, list_ascii_of_string seq !! i = Some c →
     (encode_residues vocab seq !! i = Some 0 ↔
      ∀ a, a ∈ letters_of alphabet → c ≠ upper a ∧ c ≠ lower a)).
Proof.
  intros vocab. subst vocab. rewrite gen_amino_acid_vocab_letters.
  unfold encode_residues. split; [|split].
  - by rewrite length_fmap, list_ascii_of_string_length.
  - apply Forall_fmap, Forall_forall. intros c _. apply encode_char_range.
  - intros i c Hi. rewrite list_lookup_fmap, Hi. simpl.
    rewrite <- encode_char_0. split; [by intros [= ->]|by intros ->].
Qed.

(** ** The label table *)

Lemma label_dict_lookup_notin (rows : list (string * Z))
    (d : gmap string Z) (key : string) :
  key ∉ rows.*1 →
  foldl (λ d row, <[row.1 := row.2]> d) d rows !! key = d !! key.
Proof.
  revert d. induction rows as [|[k v] rows IH]; intros d; simpl; [done|].
  rewrite not_elem_of_cons. intros [Hne Hnotin].
  rewrite IH by done. by rewrite lookup_insert_ne.
Qed.

(** [ProteinIterator.__init__] keeps one label per id, that of the last row
    of the table with this id; an id has no label exactly if no row has
    it. *)
Theorem label_of_last_row
    (file : list SeqRecord) (rows : list (string * Z))
    (vocab : gmap ascii Z) (c : skip_counter) (W w : Z) (key : string) :
  let self := __init__ file (Some rows) vocab c W w in
  has_labels self = true ∧
  (label_from_id self !! key = None ↔ key ∉ rows.*1) ∧
  (∀ rows1 rows2 v,
     rows = rows1 ++ (key, v) :: rows2 → key ∉ rows2.*1 →
     label_from_id self !! key = Some v).
Proof.
  intros self. subst self. cbn [has_labels label_from_id __init__].
  split; [done|]. split.
  - rewrite label_dict_lookup_None, lookup_empty. split; [by intros []|auto].
  - intros rows1 rows2 v -> Hnotin.
    rewrite foldl_app. cbn [foldl]. rewrite label_dict_lookup_notin by done.
    cbn. by rewrite lookup_insert_eq.
Qed.

(** ** What one worker yields *)

Lemma elem_of_to_list_init file labels vocab c W w shared x :
  1 ≤ W → 0 ≤ w →
  x ∈ yielded_records (__init__ file labels vocab c W w, shared) ↔
  ∃ (j m : nat) r,
    file !! j = Some r ∧ invalid_record labels r = false ∧
    j = (Z.to_nat w + m * Z.to_nat W)%nat ∧
    x = sequence_of (__init__ file labels vocab c W w) (Z.of_nat j + 1) r.
Proof.
  intros HW Hw. unfold yielded_records.
  destruct (to_list_init file labels vocab c W w shared HW Hw)
    as (σ & -> & _).
  cbn [fst]. rewrite list_elem_of_fmap.
  replace (Z.to_nat W) with (S (Z.to_nat (W - 1))) by lia. split.
  - intros ([i r] & -> & (j & m & Hj & Hr & -> & ->)%elem_of_shard).
    exists (Z.to_nat w + m * S (Z.to_nat (W - 1)))%nat, m, r.
    split_and!; [done..|]. cbn [fst snd]. f_equal. lia.
  - intros (j & m & r & Hj & Hr & -> & ->).
    exists (Z.of_nat (Z.to_nat w + m * S (Z.to_nat (W - 1))) + 1, r).
    split; [done|]. apply elem_of_shard.
    eexists _, m. split_and!; [done..|lia|done].
Qed.

(** Every [sequence] a worker yields is a record of the file: with index
    [i] it carries the id and the residues of the [i]-th record (counted
    from 1), the encoding of these residues and the label the table has for
    this id; its id is not empty; it has a label when a label table was
    given, and none otherwise. *)
Theorem yielded_record_is_file_record
    (file : list SeqRecord) (labels : option (list (string * Z)))
    (vocab : gmap ascii Z) (c : skip_counter) (W w shared : Z)
    (x : sequence_tuple) :
  1 ≤ W → 0 ≤ w →
  let self := __init__ file labels vocab c W w in
  x ∈ yielded_records (self, shared) →
  ∃ r,
    1 ≤ seq_index x ∧
    file !! Z.to_nat (seq_index x - 1) = Some r ∧
    seq_id x = rec_id r ∧
    seq_string x = rec_seq r ∧
    seq_encoded x = encode_residues vocab (rec_seq r) ∧
    seq_label x = label_from_id self !! rec_id r ∧
    seq_id x ≠ "" ∧
    (is_Some labels → is_Some (seq_label x)) ∧
    (labels = None → seq_label x = None).
Proof.
  intros HW Hw self Hx.
  apply elem_of_to_list_init in Hx as (j & m & r & Hj & Hr & _ & ->);
    [|done..].
  exists r. cbn [sequence_of seq_index seq_id seq_string seq_encoded
                 seq_label].
  unfold invalid_record in Hr. apply orb_false_iff in Hr as [Hid Hlab].
  apply bool_decide_eq_false in Hid.
  split_and!; try done.
  - lia.
  - by replace (Z.to_nat (Z.of_nat j + 1 - 1)) with j by lia.
  - intros [rows ->]. apply bool_decide_eq_false in Hlab.
    subst self. cbn [label_from_id __init__].
    destruct (foldl _ ∅ rows !! rec_id r) eqn:E; [done|].
    apply label_dict_lookup_None in E as [_ E]. by destruct Hlab.
  - intros ->. subst self. cbn. apply lookup_empty.
Qed.

Lemma yielded_record_is_file_record_witness :
  let file := [ {| rec_id := "a"; rec_seq := "AC" |};
                {| rec_id := ""; rec_seq := "CC" |};
                {| rec_id := "c"; rec_seq := "D" |} ] in
  let self := __init__ file None (gen_amino_acid_vocab None)
                (int_counter 0) 2 0 in
  let x := {| seq_index := 3; seq_id := "c"; seq_string := "D";
              seq_encoded := [3]; seq_label := None |} in
  ∃ r,
    1 ≤ seq_index x ∧
    file !! Z.to_nat (seq_index x - 1) = Some r ∧
    seq_id x = rec_id r ∧
    seq_string x = rec_seq r ∧
    seq_encoded x = encode_residues (gen_amino_acid_vocab None) (rec_seq r) ∧
    seq_label x = label_from_id self !! rec_id r ∧
    seq_id x ≠ "" ∧
    (is_Some (@None (list (string * Z))) → is_Some (seq_label x)) ∧
    (@None (list (string * Z)) = None → seq_label x = None).
Proof.
  intros file self x.
  apply (yielded_record_is_file_record file None (gen_amino_acid_vocab None)
           (int_counter 0) 2 0 0 x).
  - lia.
  - lia.
  - vm_compute. apply list_elem_of_In. right. left. reflexivity.
Defined.

(** ** How many records a worker reads *)

(** The records a shard keeps and those it skips are the records it
    reads. *)
Lemma shard_kept_and_skipped (skip : SeqRecord → bool) k s p l :
  Z.of_nat (length (shard skip k s p l)) + shard_skips skip k s l
  = Z.of_nat (length (shard (λ _, false) k s p l)).
Proof.
  revert k p. induction l as [|x l IH]; intros k p; [done|].
  destruct k as [|k]; cbn [shard shard_skips]; [|apply IH].
  rewrite !length_app. cbn [length]. specialize (IH s (p + 1)).
  destruct (skip x); cbn [length]; lia.
Qed.

(** A shard reads every [(s + 1)]-th record, from the [k]-th on. *)
Lemma shard_read_count (k s : nat) p (l : list SeqRecord) :
  (k ≤ s)%nat →
  Z.of_nat (length (shard (λ _, false) k s p l))
  = (Z.of_nat (length l) - Z.of_nat k + Z.of_nat s) `div` (Z.of_nat s + 1).
Proof.
  revert k p. induction l as [|x l IH]; intros k p Hk.
  - cbn [shard length]. symmetry. apply Z.div_small. lia.
  - destruct k as [|k]; cbn [shard].
    + pose proof (IH s (p + 1) (le_n s)) as H.
      replace (Z.of_nat (length (x :: l)) - Z.of_nat 0 + Z.of_nat s)
        with (Z.of_nat (length l) - Z.of_nat s + Z.of_nat s
              + 1 * (Z.of_nat s + 1)) by (cbn [length]; lia).
      rewrite Z.div_add by lia. rewrite <- H. cbn [app length]. lia.
    + rewrite IH by lia. cbn [length]. f_equal. lia.
Qed.

(** The records of the file are dealt out evenly: worker [w] of [W] reads
    [ceil((L - w) / W)] of the [L] records, the records it yields and the
    records it skips taken together, so that two workers read the same
    number of records or numbers that differ by one. *)
Theorem workers_read_evenly
    (file : list SeqRecord) (labels : option (list (string * Z)))
    (vocab : gmap ascii Z) (W : Z) :
  1 ≤ W →
  let reads w :=
    Z.of_nat (length (yielded_records (worker_iterator file labels vocab W w)))
    + final_skip_count (worker_iterator file labels vocab W w) in
  (∀ w, 0 ≤ w < W →
        reads w = (Z.of_nat (length file) - w + W - 1) `div` W) ∧
  (∀ w1 w2, 0 ≤ w1 ≤ w2 → w2 < W → reads w2 ≤ reads w1 ≤ reads w2 + 1).
Proof.
  intros HW reads.
  assert (∀ w, 0 ≤ w < W →
            reads w = (Z.of_nat (length file) - w + W - 1) `div` W) as Hreads.
  { intros w [Hw Hw']. subst reads. cbn beta.
    unfold yielded_records, final_skip_count, worker_iterator.
    destruct (to_list_init file labels vocab (int_counter 0) W w 0 HW Hw)
      as (σ & -> & Hc & _).
    cbn [fst snd]. unfold add_skips in Hc. cbn [fst snd] in Hc.
    injection Hc as Hn Hs. unfold counter_value. rewrite Hn.
    rewrite length_fmap, Z.add_0_l, shard_kept_and_skipped.
    rewrite shard_read_count by lia.
    rewrite !Z2Nat.id by lia. f_equal; lia. }
  split; [done|].
  intros w1 w2 Hw1 Hw2. rewrite !Hreads by lia.
  set (L := Z.of_nat (length file)).
  split.
  - apply Z.div_le_mono; lia.
  - replace (((L - w2 + W - 1) `div` W) + 1)
      with ((L - w2 + W - 1 + 1 * W) `div` W) by (rewrite Z.div_add; lia).
    apply Z.div_le_mono; lia.
Qed.

Lemma workers_read_evenly_witness :
  let file := [ {| rec_id := "a"; rec_seq := "AC" |};
                {| rec_id := ""; rec_seq := "CC" |};
                {| rec_id := "c"; rec_seq := "D" |} ] in
  let reads w :=
    Z.of_nat (length (yielded_records (worker_iterator file None ∅ 2 w)))
    + final_skip_count (worker_iterator file None ∅ 2 w) in
  (∀ w, 0 ≤ w < 2 →
        reads w = (Z.of_nat (length file) - w + 2 - 1) `div` 2) ∧
  (∀ w1 w2, 0 ≤ w1 ≤ w2 → w2 < 2 → reads w2 ≤ reads w1 ≤ reads w2 + 1).
Proof.
  apply (workers_read_evenly _ None ∅ 2). lia.
Defined.

(** ** Iteration in one process *)

Lemma shard_all_records (skip : SeqRecord → bool) p (l : list SeqRecord) :
  (shard skip 0 0 p l).*2 = filter (λ r, skip r = false) l.
Proof.
  revert p. induction l as [|x l IH]; intros p; [done|].
  cbn [shard]. rewrite fmap_app, IH, filter_cons.
  destruct (skip x); [by rewrite decide_False|by rewrite decide_True].
Qed.

(** Without worker context the iterator of a dataset is a filter of the
    file: it yields the records that pass the validity filter, all of them,
    in the order of the file, and counts the others. *)
Theorem single_process_iteration_filters
    (self : ProteinDataset.t) (shared : Z) :
  let it := (ProteinDataset.__iter__ self None, shared) in
  let valid := valid_records (ProteinDataset.labels self)
                 (ProteinDataset.file self) in
  (λ x, (seq_id x, seq_string x)) <$> yielded_records it
    = (λ r, (rec_id r, rec_seq r)) <$> valid ∧
  (length (yielded_records it) + Z.to_nat (final_skip_count it))%nat
    = length (ProteinDataset.file self).
Proof.
  intros it valid. subst it valid.
  unfold yielded_records, final_skip_count, ProteinDataset.__iter__.
  destruct (to_list_init (ProteinDataset.file self)
              (ProteinDataset.labels self) (ProteinDataset.vocab self)
              (int_counter 0) 1 0 shared) as (σ & -> & Hc & _); [lia..|].
  cbn [fst snd]. unfold add_skips in Hc. cbn [fst snd] in Hc.
  injection Hc as Hn Hs. unfold counter_value. rewrite Hn.
  change (Z.to_nat 0) with 0%nat. change (Z.to_nat (1 - 1)) with 0%nat.
  split.
  - unfold valid_records.
    rewrite <- (shard_all_records
                  (invalid_record (ProteinDataset.labels self)) 1).
    rewrite <- !list_fmap_compose. by apply list_fmap_ext.
  - rewrite length_fmap, Z.add_0_l.
    pose proof (shard_kept_and_skipped
                  (invalid_record (ProteinDataset.labels self)) 0 0 1
                  (ProteinDataset.file self)) as H.
    rewrite (shard_read_count 0 0) in H by lia.
    change (Z.of_nat 0) with 0 in H. rewrite Z.div_1_r in H.
    assert (0 ≤ shard_skips (invalid_record (ProteinDataset.labels self))
                  0 0 (ProteinDataset.file self)).
    { rewrite (shard_skips_length _ 0 0 1). lia. }
    lia.
Qed.

(** ** The length of a dataset *)

(** The records of a shard come from the file, in the order of the file. *)
Lemma shard_sublist (skip : SeqRecord → bool) k s p (l : list SeqRecord) :
  (shard skip k s p l).*2 `sublist_of` l.
Proof.
  revert k p. induction l as [|x l IH]; intros k p; [constructor|].
  destruct k as [|k]; cbn [shard].
  - rewrite fmap_app. destruct (skip x); cbn.
    + by apply sublist_cons.
    + by apply sublist_skip.
  - by apply sublist_cons.
Qed.

(** [len(dataset)] is the number of rows of the label table.  When no two
    records of the file have the same id, no worker and no single process
    yields more records than that. *)
Theorem len_bounds_yielded_records
    (self : ProteinDataset.t) (rows : list (string * Z))
    (info : option ProteinDataset.worker_info) (shared : Z) :
  ProteinDataset.labels self = Some rows →
  NoDup (rec_id <$> ProteinDataset.file self) →
  worker_info_ok info →
  ProteinDataset.__len__ self = ProteinDataset.len_is (length rows) ∧
  (length (yielded_records (ProteinDataset.__iter__ self info, shared))
   ≤ length rows)%nat.
Proof.
  intros Hrows Hnd Hinfo. unfold ProteinDataset.__len__. rewrite Hrows.
  split; [done|].
  assert (∃ c W w, 1 ≤ W ∧ 0 ≤ w ∧
            ProteinDataset.__iter__ self info
            = __init__ (ProteinDataset.file self) (Some rows)
                (ProteinDataset.vocab self) c W w) as (c & W & w & HW & Hw & ->).
  { unfold ProteinDataset.__iter__. rewrite Hrows.
    destruct info as [[W w]|]; cbn in *.
    - exists synchronized_counter, W, w. by destruct Hinfo.
    - exists (int_counter 0), 1, 0. split_and!; [lia..|done]. }
  unfold yielded_records.
  destruct (to_list_init (ProteinDataset.file self) (Some rows)
              (ProteinDataset.vocab self) c W w shared HW Hw)
    as (σ & -> & _).
  cbn [fst]. rewrite length_fmap.
  set (sh := shard _ _ _ _ _).
  rewrite <- (length_fmap snd sh), <- (length_fmap rec_id sh.*2).
  rewrite <- (length_fmap fst rows).
  apply submseteq_length, NoDup_submseteq.
  - eapply sublist_NoDup; [exact Hnd|].
    apply fmap_sublist, shard_sublist.
  - intros key (r & -> & ([i r'] & Er & Hr)%list_elem_of_fmap_1)
      %list_elem_of_fmap_1.
    cbn [snd] in Er. subst r'.
    apply elem_of_shard in Hr as (j & m & _ & Hr & _).
    unfold invalid_record in Hr. apply orb_false_iff in Hr as [_ Hr].
    apply bool_decide_eq_false in Hr.
    destruct (decide (rec_id r ∈ rows.*1)); [done|by destruct Hr].
Qed.

Lemma len_bounds_yielded_records_witness :
  let rows := [("a", 0); ("c", 1); ("z", 1)] in
  let self := (ProteinDataset.__init__
                 [ {| rec_id := "a"; rec_seq := "AC" |};
                   {| rec_id := "b"; rec_seq := "CC" |};
                   {| rec_id := "c"; rec_seq := "D" |} ] (Some rows)).1 in
  ProteinDataset.__len__ self = ProteinDataset.len_is (length rows) ∧
  (length (yielded_records (ProteinDataset.__iter__ self None, 0%Z))
   ≤ length rows)%nat.
Proof.
  intros rows self.
  apply (len_bounds_yielded_records self rows None 0).
  - reflexivity.
  - apply (bool_decide_unpack _). vm_compute. exact I.
  - exact I.
Defined.

(** ** The shuffle stage, further *)

(** With a capacity of at least 2 the shuffle stage emits every record of
    the underlying iterator exactly once, whatever the random choices: what
    it yields is a rearrangement of what the iterator yields, of the same
    length, and the generator ends regularly with an empty buffer. *)
Theorem shuffle_emits_each_record_once
    (rnd : nat → Z) (ds : ProteinDataset.t) (C : Z)
    (info : option ProteinDataset.worker_info) (shared : Z) :
  worker_info_ok info →
  2 ≤ C →
  let r := __iter__ rnd {| dataset := ds; buffer_size := C |} info shared in
  yielded r ≡ₚ underlying_records ds info shared ∧
  length (yielded r) = length (underlying_records ds info shared) ∧
  outcome r = Return () ∧
  final_shufbuf r = [].
Proof.
  intros Hinfo HC r.
  destruct (shuffle_preserves_records rnd ds C info shared Hinfo HC)
    as [Hperm Ho].
  destruct (shuffle_run rnd ds C info shared Hinfo) as (_ & _ & _ & Hb & _);
    [lia|right; lia|].
  subst r. split_and!; try done. by rewrite Hperm.
Qed.

Lemma shuffle_emits_each_record_once_witness :
  let ds := (ProteinDataset.__init__
               [ {| rec_id := "a"; rec_seq := "AC" |};
                 {| rec_id := "b"; rec_seq := "CC" |};
                 {| rec_id := "c"; rec_seq := "D" |} ] None).1 in
  let r := __iter__ (λ _, 0) {| dataset := ds; buffer_size := 2 |} None 0 in
  yielded r ≡ₚ underlying_records ds None 0 ∧
  length (yielded r) = length (underlying_records ds None 0) ∧
  outcome r = Return () ∧
  final_shufbuf r = [].
Proof.
  intros ds.
  apply (shuffle_emits_each_record_once (λ _, 0) ds 2 None 0).
  - exact I.
  - lia.
Defined.

(** A stream that fits into the buffer is not shuffled: when the underlying
    iterator yields no more records than the capacity, the stage emits them
    in reverse order, makes no draw, and whatever the random generator; the
    attribute [buffer_size] is then the number of records. *)
Theorem short_stream_is_reversed
    (rnd : nat → Z) (ds : ProteinDataset.t) (C : Z)
    (info : option ProteinDataset.worker_info) (shared : Z) :
  worker_info_ok info →
  (Z.of_nat (length (underlying_records ds info shared)) ≤ C) →
  let r := __iter__ rnd {| dataset := ds; buffer_size := C |} info shared in
  yielded r = reverse (underlying_records ds info shared) ∧
  outcome r = Return () ∧
  draws r = 0%nat ∧
  final_buffer_size r = Z.of_nat (length (underlying_records ds info shared)).
Proof.
  intros Hinfo Hlen r.
  destruct (shuffle_run rnd ds C info shared Hinfo)
    as (Hy & Ho & Hb & _ & Hd); [lia|left; lia|].
  subst r. rewrite Hy, Ho, Hb, Hd. unfold shuffle_stage_spec.
  rewrite drop_ge, take_ge by lia. cbn [steady_state_spec length].
  split_and!; try done. unfold effective_capacity. lia.
Qed.

Lemma short_stream_is_reversed_witness :
  let ds := (ProteinDataset.__init__
               [ {| rec_id := "a"; rec_seq := "AC" |};
                 {| rec_id := "b"; rec_seq := "CC" |};
                 {| rec_id := "c"; rec_seq := "D" |} ] None).1 in
  let r := __iter__ (λ _, 0) {| dataset := ds; buffer_size := 5 |} None 0 in
  yielded r = reverse (underlying_records ds None 0) ∧
  outcome r = Return () ∧
  draws r = 0%nat ∧
  final_buffer_size r = Z.of_nat (length (underlying_records ds None 0)).
Proof.
  intros ds.
  apply (short_stream_is_reversed (λ _, 0) ds 5 None 0).
  - exact I.
  - vm_compute. discriminate.
Defined.

(** The last slot is never drawn, so its record stays to the drain. *)
Lemma steady_state_spec_last_slot {A} (slots : list nat)
    (buffer pulled : list A) (x : A) :
  length slots = length pulled →
  Forall (λ slot, slot < length buffer)%nat slots →
  steady_state_spec slots (buffer ++ [x]) pulled !! length pulled = Some x.
Proof.
  revert slots buffer.
  induction pulled as [|item pulled IH]; intros slots buffer Hlen Hs.
  - cbn [steady_state_spec length]. by rewrite reverse_snoc.
  - destruct slots as [|slot slots]; [done|]. simpl in Hlen.
    apply Forall_cons in Hs as [Hslot Hs]. cbn [steady_state_spec].
    destruct (lookup_lt_is_Some_2 buffer slot Hslot) as [evicted He].
    rewrite lookup_app_l, He by done. cbn [length lookup list_lookup].
    rewrite insert_app_l by done. apply IH; [lia|].
    by rewrite length_insert.
Qed.

(** The record that fills the last slot of the buffer is never evicted
    before the drain: with [L >= C >= 2] records, the [C]-th record of the
    underlying iterator is emitted after all the [L - C] emissions of the
    steady state, as the first record of the drain, whatever the random
    choices. *)
Theorem last_slot_is_kept_until_drain
    (rnd : nat → Z) (ds : ProteinDataset.t) (C : Z)
    (info : option ProteinDataset.worker_info) (shared : Z) :
  worker_info_ok info →
  2 ≤ C →
  let items := underlying_records ds info shared in
  (Z.to_nat C ≤ length items)%nat →
  let r := __iter__ rnd {| dataset := ds; buffer_size := C |} info shared in
  yielded r !! (length items - Z.to_nat C)%nat = items !! (Z.to_nat C - 1)%nat.
Proof.
  intros Hinfo HC items Hlen r.
  destruct (shuffle_run rnd ds C info shared Hinfo) as (Hy & _);
    [lia|right; lia|].
  subst r. rewrite Hy. fold items. unfold shuffle_stage_spec.
  destruct (lookup_lt_is_Some_2 items (Z.to_nat C - 1)) as [x Hx]; [lia|].
  rewrite Hx.
  assert (take (Z.to_nat C) items = take (Z.to_nat C - 1) items ++ [x]) as ->.
  { replace (Z.to_nat C) with (S (Z.to_nat C - 1)) at 1 by lia.
    by erewrite take_S_r. }
  rewrite <- (length_drop items (Z.to_nat C)).
  apply steady_state_spec_last_slot.
  - unfold drawn_slots. by rewrite length_fmap, length_seq.
  - destruct (decide (length items ≤ Z.to_nat C)%nat) as [Hle|Hgt].
    + rewrite drop_ge by done. constructor.
    + eapply Forall_impl.
      * apply drawn_slots_bound. right.
        unfold effective_capacity. fold items. lia.
      * simpl. intros slot Hslot. rewrite length_take.
        unfold effective_capacity in Hslot. fold items in Hslot. lia.
Qed.

Lemma last_slot_is_kept_until_drain_witness :
  let ds := (ProteinDataset.__init__
               [ {| rec_id := "a"; rec_seq := "AC" |};
                 {| rec_id := "b"; rec_seq := "CC" |};
                 {| rec_id := "c"; rec_seq := "D" |};
                 {| rec_id := "d"; rec_seq := "E" |} ] None).1 in
  let items := underlying_records ds None 0 in
  let r := __iter__ (λ _, 1) {| dataset := ds; buffer_size := 3 |} None 0 in
  yielded r !! (length items - Z.to_nat 3)%nat = items !! (Z.to_nat 3 - 1)%nat.
Proof.
  intros ds.
  apply (last_slot_is_kept_until_drain (λ _, 1) ds 3 None 0).
  - exact I.
  - lia.
  - vm_compute. lia.
Defined.

(** What the steady state emits at step [t] was in the buffer at the start
    or is one of the first [t] records pulled. *)
Lemma steady_state_spec_window {A} (slots : list nat)
    (buffer pulled : list A) (t : nat) (x : A) :
  steady_state_spec slots buffer pulled !! t = Some x →
  x ∈ buffer ++ take t pulled.
Proof.
  revert slots buffer t.
  induction pulled as [|item pulled IH]; intros slots buffer t.
  - cbn [steady_state_spec]. intros H%list_elem_of_lookup_2.
    rewrite elem_of_reverse in H. rewrite take_nil, app_nil_r. done.
  - destruct slots as [|slot slots]; [done|]. cbn [steady_state_spec].
    destruct (buffer !! slot) as [evicted|] eqn:He; [|done].
    destruct t as [|t]; cbn [lookup list_lookup].
    + intros [= <-]. apply elem_of_app. left.
      by eapply list_elem_of_lookup_2.
    + intros H%IH. cbn [take].
      apply elem_of_app in H as [H|H].
      * apply list_elem_of_lookup_1 in H as [i Hi].
        apply list_lookup_insert_Some in Hi as [(-> & -> & _)|[_ Hi]].
        -- apply elem_of_app. right. by left.
        -- apply elem_of_app. left. by eapply list_elem_of_lookup_2.
      * apply elem_of_app. right. by right.
Qed.

(** The shuffle is local: the record emitted at position [t] (from 0) is
    one of the first [C + t] records of the underlying iterator; no record
    is emitted more than [C - 1] places before its turn. *)
Theorem shuffle_window
    (rnd : nat → Z) (ds : ProteinDataset.t) (C : Z)
    (info : option ProteinDataset.worker_info) (shared : Z)
    (t : nat) (x : sequence_tuple) :
  worker_info_ok info →
  2 ≤ C →
  let items := underlying_records ds info shared in
  let r := __iter__ rnd {| dataset := ds; buffer_size := C |} info shared in
  yielded r !! t = Some x →
  x ∈ take (Z.to_nat C + t) items.
Proof.
  intros Hinfo HC items r.
  destruct (shuffle_run rnd ds C info shared Hinfo) as (Hy & _);
    [lia|right; lia|].
  subst r. rewrite Hy. fold items. unfold shuffle_stage_spec.
  intros H%steady_state_spec_window.
  by rewrite take_take_drop in H.
Qed.

Lemma shuffle_window_witness :
  let ds := (ProteinDataset.__init__
               [ {| rec_id := "a"; rec_seq := "AC" |};
                 {| rec_id := "b"; rec_seq := "CC" |};
                 {| rec_id := "c"; rec_seq := "D" |};
                 {| rec_id := "d"; rec_seq := "E" |} ] None).1 in
  let x := {| seq_index := 2; seq_id := "b"; seq_string := "CC";
              seq_encoded := [2; 2]; seq_label := None |} in
  x ∈ take (Z.to_nat 3 + 0) (underlying_records ds None 0).
Proof.
  intros ds x.
  apply (shuffle_window (λ _, 1) ds 3 None 0 0 x).
  - exact I.
  - lia.
  - reflexivity.
Defined.

(** ** Collation, further *)





Lemma place_full (max_len : Z) (enc : list Z) :
  Z.of_nat (length enc) = max_len → place max_len 0 enc = enc.
Proof.
  intros H. unfold place. cbn [Z.to_nat replicate app].
  replace (Z.to_nat (max_len - 0) - length enc)%nat with 0%nat by lia.
  cbn [replicate]. by rewrite app_nil_r.
Qed.

(** A batch of records of one length, not below [min_length], is not
    padded: the rows are the records as the matrix holds them, which are the
    encoded records when their values fit [int64]; with or without random
    padding. *)
Theorem collate_sequences_equal_length
    (rnd : nat → Z) (batch : batch_arg) (min_length : Z)
    (random_padding : bool) (n : Z) :
  records_of batch ≠ [] →
  collatable (records_of batch) →
  min_length ≤ n →
  Forall (λ s, Z.of_nat (length (seq_encoded s)) = n) (records_of batch) →
  ∃ cb,
    collate_sequences rnd batch true min_length random_padding = Return cb ∧
    sequences cb = stored ∘ seq_encoded <$> records_of batch ∧
    (Forall (λ s, Forall (λ v, fits_int64 v = true) (seq_encoded s))
            (records_of batch) →
     sequences cb = seq_encoded <$> records_of batch).
Proof.
  intros Hne Hcol Hmin Hall.
  rewrite collate_sequences_nonempty, decide_True by done.
  eexists. split; [reflexivity|]. cbn [sequences].
  set (l := records_of batch) in *.
  assert (row_length min_length l = n) as ->.
  { destruct (row_length_attained min_length l) as [E|(s & Hs & E)].
    - destruct l as [|s l]; [done|].
      pose proof (row_length_ge min_length (s :: l) s) as Hge.
      apply Forall_cons in Hall as [Hs _].
      specialize (Hge ltac:(by apply elem_of_cons; left)). lia.
    - rewrite Forall_forall in Hall. rewrite E. by apply Hall. }
  assert (∀ k, zip_with (place n) (start_offsets rnd random_padding n k l)
                 (stored ∘ seq_encoded <$> l)
               = stored ∘ seq_encoded <$> l) as Hrows.
  { clear Hne Hcol.
    induction Hall as [|s l Hs _ IH]; intros k; [done|].
    cbn [start_offsets fmap list_fmap].
    replace (Z.of_nat (length (seq_encoded s)) <? n) with false
      by (symmetry; apply Z.ltb_ge; lia).
    rewrite andb_false_r. cbn [zip_with]. rewrite IH, place_full; [done|].
    cbn. by rewrite length_stored. }
  rewrite Hrows. split; [done|]. intros Hfit.
  clear -Hfit. induction Hfit as [|s l Hs _ IH]; [done|].
  cbn [fmap list_fmap]. f_equal; [by apply stored_fits|done].
Qed.

Lemma collate_sequences_equal_length_witness :
  let s1 := {| seq_index := 1; seq_id := "a"; seq_string := "ACD";
               seq_encoded := [1; 2; 3]; seq_label := None |} in
  let s2 := {| seq_index := 2; seq_id := "b"; seq_string := "DCA";
               seq_encoded := [3; 2; 1]; seq_label := None |} in
  ∃ cb,
    collate_sequences (λ _, 5) (sequence_list [s1; s2]) true 2 true
      = Return cb ∧
    sequences cb = stored ∘ seq_encoded <$> records_of (sequence_list [s1; s2]) ∧
    (Forall (λ s, Forall (λ v, fits_int64 v = true) (seq_encoded s))
            (records_of (sequence_list [s1; s2])) →
     sequences cb = seq_encoded <$> records_of (sequence_list [s1; s2])).
Proof.
  intros s1 s2.
  apply (collate_sequences_equal_length (λ _, 5) (sequence_list [s1; s2]) 2
           true 3).
  - discriminate.
  - apply (bool_decide_unpack _). vm_compute. exact I.
  - lia.
  - repeat constructor.
Defined.

(** ** From the file to the batch *)










(** ** The shuffle stage and the iterator under it *)

Lemma counter_value_add_skips d c shared :
  counter_value (add_skips d (c, shared)).1 (add_skips d (c, shared)).2
  = counter_value c shared + d.
Proof. by destruct c. Qed.

(** One call of [__next__] in a usable state, for the counter and the
    parser: the skips counted so far and the skips still to come add up to
    the same number before and after; the parser is closed by the call that
    meets the end, and by no other. *)
Lemma next_usable_resources (self : ProteinIterator.t) (shared : Z) :
  usable self →
  let total σ :=
    counter_value (n_skipped σ.1) σ.2 + remaining_skips σ.1 in
  match __next__ (self, shared) with
  | (σ', Return x) =>
      total σ' = total (self, shared) ∧
      n_close (iterator σ'.1) = n_close (iterator self)
  | (σ', Raise StopIteration) =>
      total σ' = total (self, shared) ∧
      n_close (iterator σ'.1) = S (n_close (iterator self)) ∧
      unread (iterator σ'.1) = []
  | _ => True
  end.
Proof.
  intros (Hst & Hs & Hpos) total. subst total. cbn beta.
  destruct (unread (iterator self)) as [|x0 l0] eqn:Hl.
  - destruct (next_exhausted self shared Hst Hs Hl) as [pf ->].
    cbn [fst snd]. unfold remaining_skips. cbn. rewrite Hl. by cbn.
  - assert (ready self) as Hr.
    { unfold ready. destruct Hpos as [?|[?|?]]; [auto..|congruence]. }
    rewrite next_ready by done.
    set (k := Z.to_nat (pending self)). set (s := Z.to_nat (step self)).
    assert (remaining_skips self =
            match seek (skipped_by self) k s (next_position self)
                    (unread (iterator self)) with
            | (d, _, Some (_, rest)) => d + shard_skips (skipped_by self) s s rest
            | (d, _, None) => d
            end) as Hrem.
    { unfold remaining_skips.
      by rewrite (shard_skips_seek _ _ _ (next_position self)). }
    cbn [fst snd]. rewrite Hrem.
    destruct (seek _ k s _ _) as [[d p'] [[y rest]|]] eqn:E.
    + apply seek_Some in E as (Hy & Hp' & Hd & Hlen).
      pose proof (ready_next_position _ Hr) as Hnp.
      assert (0 < p') as Hp by lia.
      unfold next_of_seek. cbn [fst snd].
      cbn [progressed set_n_skipped set_pos set_iterator n_skipped iterator
           n_close].
      rewrite counter_value_add_skips. split; [|done].
      match goal with
      | |- context [remaining_skips ?self'] =>
          assert (remaining_skips self'
                  = shard_skips (skipped_by self) s s rest) as ->
      end.
      { unfold remaining_skips. rewrite pending_progressed by done.
        subst s. by destruct self as [[l nc] hl lf v c0 st p stp]. }
      lia.
    + unfold next_of_seek. cbn [fst snd].
      cbn [progressed set_n_skipped set_pos set_iterator n_skipped iterator
           n_close unread].
      rewrite counter_value_add_skips. split_and!; [|done..].
      unfold remaining_skips. cbn. lia.
Qed.

Lemma fill_resources (n : nat) (buf : list sequence_tuple)
    (self : ProteinIterator.t) (shared : Z) :
  usable self →
  let total σ :=
    counter_value (n_skipped σ.1) σ.2 + remaining_skips σ.1 in
  let items := remaining (self, shared) in
  ∃ buf' σ',
    ShuffledProteinDataset.fill n buf (self, shared)
      = (buf', σ', Return (bool_decide (length items < n)%nat)) ∧
    total σ' = total (self, shared) ∧
    n_close (iterator σ'.1)
      = (n_close (iterator self)
         + (if bool_decide (length items < n)%nat then 1 else 0))%nat ∧
    usable σ'.1 ∧ remaining σ' = drop n items.
Proof.
  revert buf self shared. induction n as [|n IH]; intros buf self shared Hu.
  - exists buf, (self, shared). cbv zeta.
    rewrite bool_decide_eq_false_2 by lia. cbn [ShuffledProteinDataset.fill drop fst snd].
    split_and!; try done.
  - cbn [ShuffledProteinDataset.fill].
    pose proof (next_usable self shared Hu) as Hn.
    pose proof (next_usable_resources self shared Hu) as Hres.
    destruct (__next__ (self, shared)) as [[self' shared'] [x|[]|]];
      try done.
    + destruct Hn as (Hrem & Hu' & _). destruct Hres as [Htot Hcl].
      destruct (IH (buf ++ [x]) self' shared' Hu')
        as (buf' & σ' & -> & Htot' & Hcl' & Hu'' & Hrem').
      exists buf', σ'. cbv zeta. rewrite Hrem. cbn [length drop].
      cbn [fst snd] in *.
      rewrite (bool_decide_ext (S (length (remaining (self', shared'))) < S n)%nat
                 (length (remaining (self', shared')) < n)%nat) by lia.
      split_and!; try done; congruence.
    + destruct Hn as (Hrem & Hrem' & Hu' & _).
      destruct Hres as (Htot & Hcl & _).
      exists buf, (self', shared'). cbv zeta. rewrite Hrem.
      cbn [length drop fst snd] in *.
      rewrite bool_decide_eq_true_2 by lia.
      split_and!; try done. lia.
Qed.

Lemma steady_resources (fuel : nat) (rnd : nat → Z) (cap : Z)
    (buf : list sequence_tuple) (self : ProteinIterator.t) (shared : Z)
    (k : nat) :
  usable self →
  (length (unread (iterator self)) ≤ fuel)%nat →
  remaining (self, shared) = [] ∨ (1 < cap ∧ cap = Z.of_nat (length buf)) →
  let total σ :=
    counter_value (n_skipped σ.1) σ.2 + remaining_skips σ.1 in
  let σ' := ShuffledProteinDataset.final_state
              (ShuffledProteinDataset.steady fuel rnd cap buf (self, shared) k)
  in
  total σ' = total (self, shared) ∧
  n_close (iterator σ'.1) = S (n_close (iterator self)) ∧
  unread (iterator σ'.1) = [].
Proof.
  revert buf self shared k.
  induction fuel as [|fuel IH]; intros buf self shared k Hu Hf Hcap;
    cbv zeta.
  - pose proof (next_usable self shared Hu) as Hn.
    pose proof (next_usable_resources self shared Hu) as Hres.
    cbn [ShuffledProteinDataset.steady].
    destruct (__next__ (self, shared)) as [[self' shared'] [x|[]|]];
      try done.
    + destruct Hn as (_ & _ & Hlt). cbn in Hlt. lia.
    + rewrite drain_spec by done. cbn [ShuffledProteinDataset.final_state].
      done.
  - pose proof (next_usable self shared Hu) as Hn.
    pose proof (next_usable_resources self shared Hu) as Hres.
    cbn [ShuffledProteinDataset.steady].
    destruct (__next__ (self, shared)) as [[self' shared'] [x|[]|]];
      try done.
    + destruct Hn as (Hrem & Hu' & Hlt). cbn in Hlt, Hu'.
      destruct Hres as [Htot Hcl]. cbn [fst snd] in Htot, Hcl.
      destruct Hcap as [Hcap|[Hcap Hlen]]; [congruence|].
      unfold randint.
      replace (0 <? cap - 1) with true by (symmetry; apply Z.ltb_lt; lia).
      rewrite Z.add_0_l, Z.sub_0_r.
      pose proof (Z.mod_pos_bound (rnd k) (cap - 1)) as Hm.
      set (e := rnd k `mod` (cap - 1)) in *.
      assert ((e <? 0) = false) as Hneg by (apply Z.ltb_ge; lia).
      assert ((Z.of_nat (length buf) <=? e) = false) as Hle
        by (apply Z.leb_gt; lia).
      destruct (lookup_lt_is_Some_2 buf (Z.to_nat e)) as [evicted He]; [lia|].
      unfold getitem, setitem. cbv zeta. rewrite !Hneg, Hle, He. cbn [orb].
      destruct (IH (<[Z.to_nat e := x]> buf) self' shared' (S k))
        as (Ht & Hc & Hun); [done|lia| |].
      { right. by rewrite length_insert. }
      cbn [ShuffledProteinDataset.yield ShuffledProteinDataset.final_state].
      cbn [fst snd] in *. split_and!; [congruence|congruence|done].
    + rewrite drain_spec by done. cbn [ShuffledProteinDataset.final_state].
      done.
Qed.

Lemma final_skip_count_total (self : ProteinIterator.t) (shared : Z) :
  ready self →
  final_skip_count (self, shared)
  = counter_value (n_skipped self) shared + remaining_skips self.
Proof.
  intros Hr. unfold final_skip_count, to_list. cbn [fst].
  destruct (collect_shard (length (unread (iterator self))) self shared)
    as [pf ->]; [done..|].
  cbn [fst snd progressed set_n_skipped n_skipped].
  apply counter_value_add_skips.
Qed.

(** The shuffle stage runs the iterator under it to its end: with a
    capacity of at least 2, when the generator has ended no record is left
    unread, and the skip counter has the value a plain run of the iterator
    gives.  The parser has been closed once, or twice when the stream is
    shorter than the buffer: then the fill loop meets the end of the data
    and the loop of the steady state meets it again. *)
Theorem shuffle_exhausts_underlying_iterator
    (rnd : nat → Z) (ds : ProteinDataset.t) (C : Z)
    (info : option ProteinDataset.worker_info) (shared : Z) :
  worker_info_ok info →
  2 ≤ C →
  let it := (ProteinDataset.__iter__ ds info, shared) in
  let r := ShuffledProteinDataset.__iter__ rnd
             {| ShuffledProteinDataset.dataset := ds;
                ShuffledProteinDataset.buffer_size := C |} info shared in
  let σ := ShuffledProteinDataset.final_state r in
  unread (iterator σ.1) = [] ∧
  counter_value (n_skipped σ.1) σ.2 = final_skip_count it ∧
  n_close (iterator σ.1)
    = (if bool_decide (length (yielded_records it) < Z.to_nat C)%nat
       then 2 else 1)%nat.
Proof.
  intros Hinfo HC it r σ. subst σ r it.
  rewrite final_skip_count_total by by apply dataset_iter_ready.
  unfold yielded_records.
  rewrite to_list_remaining by by apply dataset_iter_ready.
  unfold ShuffledProteinDataset.__iter__.
  cbn [ShuffledProteinDataset.dataset ShuffledProteinDataset.buffer_size].
  set (self := ProteinDataset.__iter__ ds info).
  destruct (fill_resources (Z.to_nat C) [] self shared)
    as (buf' & [self' sh'] & Hfill & Htot & Hcl & Hu & Hrem).
  { by apply dataset_iter_usable. }
  destruct (fill_spec (Z.to_nat C) [] self shared)
    as (σ'' & Hfill' & _).
  { by apply dataset_iter_usable. }
  rewrite Hfill. rewrite Hfill in Hfill'. injection Hfill' as Hbuf _.
  cbn [app] in Hbuf. cbn [fst snd] in *.
  set (items := remaining (self, shared)) in *.
  set (stopped := bool_decide _) in *.
  destruct (steady_resources (length (unread (iterator self'))) rnd
              (if stopped then Z.of_nat (length buf') else C) buf'
              self' sh' 0) as (Ht & Hc & Hun); [done..| |].
  { rewrite Hrem. subst stopped. case_bool_decide as Hlt.
    - left. apply drop_ge. lia.
    - right. split; [lia|]. rewrite Hbuf, length_take. lia. }
  cbn [fst snd] in *. split_and!; [done| |].
  - rewrite <- Htot, <- Ht. unfold remaining_skips at 1. rewrite Hun.
    cbn [shard_skips]. lia.
  - rewrite Hc, Hcl. subst self.
    assert (n_close (iterator (ProteinDataset.__iter__ ds info)) = 0%nat)
      as -> by (unfold ProteinDataset.__iter__; by destruct info as [[]|]).
    by destruct stopped.
Qed.

Lemma shuffle_exhausts_underlying_iterator_witness :
  let ds := (ProteinDataset.__init__
               [ {| rec_id := "a"; rec_seq := "AC" |};
                 {| rec_id := ""; rec_seq := "CC" |};
                 {| rec_id := "c"; rec_seq := "D" |} ] None).1 in
  let it := (ProteinDataset.__iter__ ds None, 0) in
  let r := ShuffledProteinDataset.__iter__ (λ _, 0)
             {| ShuffledProteinDataset.dataset := ds;
                ShuffledProteinDataset.buffer_size := 5 |} None 0 in
  let σ := ShuffledProteinDataset.final_state r in
  unread (iterator σ.1) = [] ∧
  counter_value (n_skipped σ.1) σ.2 = final_skip_count it ∧
  n_close (iterator σ.1)
    = (if bool_decide (length (yielded_records it) < Z.to_nat 5)%nat
       then 2 else 1)%nat.
Proof.
  intros ds.
  apply (shuffle_exhausts_underlying_iterator (λ _, 0) ds 5 None 0).
  - exact I.
  - lia.
Defined.

(** ** An iterator built with a negative stride *)

Lemma consume_negative (n : Z) (σ : ProteinIterator.state) :
  n < 0 → _consume n σ = (σ, Raise ValueError).
Proof.
  intros Hn. destruct σ as [self shared]. unfold _consume, islice_advance.
  by replace (n <? 0) with true by (symmetry; apply Z.ltb_lt; lia).
Qed.

Lemma next_negative_start (self : ProteinIterator.t) (shared : Z) :
  pos self = UNINITIALIZED_POS → start self < 0 →
  __next__ (self, shared) = ((self, shared), Raise ValueError).
Proof.
  intros Hp Hs. unfold __next__, mbind, M_bind, get_self. cbn [fst].
  rewrite Hp, Z.eqb_refl. by rewrite consume_negative by done.
Qed.

Lemma next_negative_step (self : ProteinIterator.t) (shared : Z) :
  pos self ≠ UNINITIALIZED_POS → step self < 0 →
  __next__ (self, shared) = ((self, shared), Raise ValueError).
Proof.
  intros Hp Hs. unfold __next__, mbind, M_bind, get_self. cbn [fst].
  replace (pos self =? UNINITIALIZED_POS) with false
    by (symmetry; by apply Z.eqb_neq).
  by rewrite consume_negative by done.
Qed.

(** [ProteinIterator.__init__] takes any [num_workers] and [worker_id], and
    [islice] refuses a negative bound.  With a negative [worker_id] the first
    [next] raises [ValueError] and changes nothing.  With [num_workers] below
    1 the step is negative: for a [worker_id] from 0 to [sys.maxsize] (a
    larger one is refused by [islice] as well) the first [next] still
    gives the record at position [worker_id], when that record passes the
    filter, and the [next] after it raises [ValueError] and changes nothing;
    when the record does not pass, the first [next] raises [ValueError]
    itself, and when the file is shorter, it ends the iteration. *)
Theorem iterator_rejects_negative_stride
    (file : list SeqRecord) (labels : option (list (string * Z)))
    (aa_vocab : gmap ascii Z) (c : skip_counter) (W w shared : Z) :
  let it := ProteinIterator.__init__ file labels aa_vocab c W w in
  (w < 0 → __next__ (it, shared) = ((it, shared), Raise ValueError)) ∧
  (0 ≤ w ≤ sys_maxsize → W ≤ 0 →
   match __next__ (it, shared) with
   | (σ, Return x) =>
       seq_index x = w + 1 ∧
       file !! Z.to_nat w
         = Some {| rec_id := seq_id x; rec_seq := seq_string x |} ∧
       invalid_record labels {| rec_id := seq_id x; rec_seq := seq_string x |}
         = false ∧
       __next__ σ = (σ, Raise ValueError)
   | (σ, Raise StopIteration) => (length file ≤ Z.to_nat w)%nat
   | (σ, Raise ValueError) =>
       ∃ r, file !! Z.to_nat w = Some r ∧ invalid_record labels r = true
   | _ => False
   end).
Proof.
  intros it. split.
  - intros Hw. by apply next_negative_start.
  - intros [Hw _] HW.
    destruct (__next__ (it, shared)) as [σ res] eqn:Hnext. revert Hnext.
    unfold __next__ at 1, mbind, M_bind, get_self. cbn [fst].
    subst it. cbn [ProteinIterator.__init__ pos start step iterator].
    rewrite Z.eqb_refl.
    unfold _consume at 1, islice_advance.
    cbn [ProteinIterator.__init__ pos start step iterator SeqIO_parse unread
         n_close set_iterator].
    replace (w <? 0) with false by (symmetry; apply Z.ltb_ge; lia).
    unfold assign_pos, try_except_StopIteration, next_iterator.
    cbn [set_pos set_iterator iterator unread n_close].
    destruct (drop (Z.to_nat w) file) as [|r rest] eqn:Hdrop.
    + unfold close_iterator, raise. intros [= <- <-].
      apply drop_nil_inv in Hdrop. lia.
    + assert (file !! Z.to_nat w = Some r) as Hr.
      { rewrite <- (Nat.add_0_r (Z.to_nat w)), <- lookup_drop, Hdrop. done. }
      assert (length file ≠ 0%nat) as Hlen.
      { apply lookup_lt_Some in Hr. lia. }
      destruct (length file) as [|fuel] eqn:Hfuel; [done|].
      cbn [skip_loop]. unfold mbind, M_bind, get_self. cbn [fst].
      match goal with |- context [to_skip ?s _ _] => set (self1 := s) end.
      assert (to_skip self1 (rec_id r) (label_from_id self1 !! rec_id r)
              = invalid_record labels r) as Hskip.
      { subst self1. unfold to_skip, invalid_record. cbn. f_equal.
        destruct labels as [rows|]; [|done]. cbn.
        apply bool_decide_ext. rewrite label_dict_lookup_None.
        rewrite lookup_empty. split; [by intros [_ ?]|auto]. }
      rewrite Hskip. destruct (invalid_record labels r) eqn:Hinv.
      * unfold incr_n_skipped. subst self1.
        cbn [set_iterator set_pos n_skipped iterator step
             ProteinIterator.__init__].
        destruct (iadd_one c shared) as [c' shared'].
        rewrite consume_negative by (cbn; lia).
        intros [= <- <-]. by exists r.
      * unfold mret, M_ret. intros [= <- <-].
        cbn [fst snd seq_index seq_id seq_string].
        destruct r as [rid rseq]. cbn [rec_id rec_seq] in *.
        split_and!; [done..|].
        apply next_negative_step.
        -- subst self1. cbn. unfold UNINITIALIZED_POS. lia.
        -- subst self1. cbn. lia.
Qed.

(** ** A shuffle buffer of no capacity *)

(** With [buffer_size] at most 0 the fill loop does not run, so the end of
    the data is not met there and [buffer_size] stays as it is.  Over an
    empty stream the generator ends at once; over any other stream the first
    record is pulled, the draw from [randint(0, buffer_size - 1)] raises
    [ValueError], and no record is yielded. *)
Theorem shuffle_without_capacity
    (rnd : nat → Z) (ds : ProteinDataset.t) (C : Z)
    (info : option ProteinDataset.worker_info) (shared : Z) :
  worker_info_ok info →
  C ≤ 0 →
  let r := ShuffledProteinDataset.__iter__ rnd
             {| ShuffledProteinDataset.dataset := ds;
                ShuffledProteinDataset.buffer_size := C |} info shared in
  ShuffledProteinDataset.yielded r = [] ∧
  ShuffledProteinDataset.final_shufbuf r = [] ∧
  ShuffledProteinDataset.final_buffer_size r = C ∧
  ShuffledProteinDataset.draws r = 0%nat ∧
  ShuffledProteinDataset.outcome r
    = match underlying_records ds info shared with
      | [] => Return ()
      | _ :: _ => Raise ValueError
      end.
Proof.
  intros Hinfo HC r. subst r.
  unfold ShuffledProteinDataset.__iter__, underlying_records.
  cbn [ShuffledProteinDataset.dataset ShuffledProteinDataset.buffer_size].
  rewrite to_list_remaining by by apply dataset_iter_ready.
  set (it := ProteinDataset.__iter__ ds info).
  replace (Z.to_nat C) with 0%nat by lia.
  cbn [ShuffledProteinDataset.fill fst snd].
  pose proof (next_usable it shared (dataset_iter_usable ds info Hinfo)) as Hn.
  assert (randint rnd 0 0 (C - 1) = Raise ValueError) as Hdraw.
  { unfold randint.
    by replace (0 <? C - 1) with false by (symmetry; apply Z.ltb_ge; lia). }
  destruct (length (unread (iterator it))) as [|fuel];
    cbn [ShuffledProteinDataset.steady];
    destruct (__next__ (it, shared)) as [σ' [x|[]|]]; try done;
    rewrite ?Hdraw, ?drain_spec by done;
    destruct Hn as [-> _]; done.
Qed.

Lemma shuffle_without_capacity_witness :
  let ds := (ProteinDataset.__init__
               [ {| rec_id := "a"; rec_seq := "AC" |} ] None).1 in
  let r := ShuffledProteinDataset.__iter__ (λ _, 0)
             {| ShuffledProteinDataset.dataset := ds;
                ShuffledProteinDataset.buffer_size := 0 |} None 0 in
  ShuffledProteinDataset.yielded r = [] ∧
  ShuffledProteinDataset.final_shufbuf r = [] ∧
  ShuffledProteinDataset.final_buffer_size r = 0 ∧
  ShuffledProteinDataset.draws r = 0%nat ∧
  ShuffledProteinDataset.outcome r
    = match underlying_records ds None 0 with
      | [] => Return ()
      | _ :: _ => Raise ValueError
      end.
Proof.
  intros ds.
  apply (shuffle_without_capacity (λ _, 0) ds 0 None 0).
  - exact I.
  - lia.
Defined.
